(** * Index arithmetic of the conv2d unfold kernels (conv2d.cu)

    A shallow embedding of the four CUDA kernels of
    [src/tensor_ops/conv2d/conv2d.cu]:
    [unfold_input_into_patches], [unfold_output_into_patches],
    [transpose_and_broadcast_filters] and [sum_transposed_filters].

    - [size_t] is a 64-bit unsigned integer and [unsigned int] a 32-bit one;
      both are modelled as [Z] with the wrap-around written out.
    - [float] is kept abstract: the kernels only copy elements and, in the
      reducer, add them; the element type, its zero and its addition are
      parameters.
    - Undefined behaviour of the C++ source (division by zero, overflow of
      the signed loop counter, access outside a buffer) is the outcome
      [Undefined] of the [result] monad.
    - A kernel launch is the sequential composition of its threads; every
      thread of these kernels only writes elements owned by its own flat
      index, and the order of the threads is shown not to matter. *)

From Stdlib Require Import ZArith Lia.
From stdpp Require Import base option list list_numbers.

Local Open Scope Z_scope.

(** ** Machine integers *)

Module Machine.

Definition UINT_MAX : Z := 2 ^ 32 - 1.
Definition SIZE_MAX : Z := 2 ^ 64 - 1.
Definition INT_MAX : Z := 2 ^ 31 - 1.

(** Conversion to [unsigned int]. *)
Definition wrap32 (z : Z) : Z := z mod 2 ^ 32.
(** Conversion to [size_t]. *)
Definition wrap64 (z : Z) : Z := z mod 2 ^ 64.

(** [size_t] arithmetic. *)
Definition add64 (a b : Z) : Z := wrap64 (a + b).
Definition sub64 (a b : Z) : Z := wrap64 (a - b).
Definition mul64 (a b : Z) : Z := wrap64 (a * b).

Definition is_size_t (z : Z) : Prop := 0 <= z <= SIZE_MAX.
Definition is_uint (z : Z) : Prop := 0 <= z <= UINT_MAX.

End Machine.
Export Machine.

Infix "+!" := add64 (at level 50, left associativity).
Infix "-!" := sub64 (at level 50, left associativity).
Infix "*!" := mul64 (at level 40, left associativity).

(** ** Outcomes of a computation that may be undefined *)

Inductive result (T : Type) : Type :=
| Ok (t : T)
| Undefined.
Arguments Ok {T} t.
Arguments Undefined {T}.

#[global] Instance result_ret : MRet result := fun _ t => Ok t.
#[global] Instance result_bind : MBind result := fun _ _ f r =>
  match r with
  | Ok t => f t
  | Undefined => Undefined
  end.

(** [a % b] and [a / b] on unsigned operands; a zero divisor is undefined. *)
Definition umod (a b : Z) : result Z :=
  if b =? 0 then Undefined else Ok (a mod b).
Definition udiv (a b : Z) : result Z :=
  if b =? 0 then Undefined else Ok (a / b).

Infix "%!" := umod (at level 40, left associativity).
Infix "/!" := udiv (at level 40, left associativity).

(** [idx /= d] where [idx] is an [unsigned int] and [d] a [size_t]: the
    quotient is computed in [size_t] and converted back. *)
Definition udiv_assign (idx d : Z) : result Z :=
  q ← idx /! d; Ok (wrap32 q).

(** ** The geometry descriptor *)

Record Conv2DOp : Type := MkConv2DOp {
  stride : Z;
  padding : Z;
  kernel : Z;
  batch : Z;
  chan_in : Z;
  chan_out : Z;
  h_in : Z;
  h_out : Z;
  w_in : Z;
  w_out : Z
}.

(** Every field is a [size_t]. *)
Record size_t_fields (op : Conv2DOp) : Prop := MkSizeTFields {
  stride_size_t : is_size_t (stride op);
  padding_size_t : is_size_t (padding op);
  kernel_size_t : is_size_t (kernel op);
  batch_size_t : is_size_t (batch op);
  chan_in_size_t : is_size_t (chan_in op);
  chan_out_size_t : is_size_t (chan_out op);
  h_in_size_t : is_size_t (h_in op);
  h_out_size_t : is_size_t (h_out op);
  w_in_size_t : is_size_t (w_in op);
  w_out_size_t : is_size_t (w_out op)
}.

(** ** Threads and launches *)

(** The built-in variables [blockIdx.x], [blockDim.x] and [threadIdx.x]. *)
Record Thread : Type := MkThread {
  blockIdx : Z;
  blockDim : Z;
  threadIdx : Z
}.

(** [unsigned int i = blockIdx.x * blockDim.x + threadIdx.x;] *)
Definition thread_index (t : Thread) : Z :=
  wrap32 (wrap32 (blockIdx t * blockDim t) + threadIdx t).

(** The threads of a launch with [gridDim] blocks of [blockDim] threads. *)
Definition grid (gridDim blockDim : Z) : list Thread :=
  bi ← seqZ 0 gridDim; ti ← seqZ 0 blockDim; [MkThread bi blockDim ti].

(** Running a body once per element of a list, in order, threading the
    state; used for the threads of a launch and for the trips of a loop. *)
Fixpoint for_each {I M : Type} (body : I → M → result M)
    (l : list I) (m : M) : result M :=
  match l with
  | [] => Ok m
  | x :: l' => m' ← body x m; for_each body l' m'
  end.

(** A kernel launch: its threads run one after the other. *)
Definition launch {M : Type} (thread : Thread → M → result M)
    (ts : list Thread) (m : M) : result M :=
  for_each thread ts m.

(** [for (auto b = 0; b < n; b++) body] with [n] a [size_t]: [auto] makes
    [b] an [int], so the counter runs through [0 .. n-1] and the increment
    overflows, which is undefined, when [n] exceeds [INT_MAX]. *)
Definition for_int {M : Type} (n : Z) (body : Z → M → result M) (m : M)
    : result M :=
  if INT_MAX <? n then Undefined else for_each body (seqZ 0 n) m.

(** ** Buffers *)

Section Buffers.
Context {A : Type}.

(** [buf[i]] as an rvalue. *)
Definition load (buf : list A) (i : Z) : result A :=
  match buf !! Z.to_nat i with
  | Some a => Ok a
  | None => Undefined
  end.

(** [buf[i] = a]. *)
Definition store (buf : list A) (i : Z) (a : A) : result (list A) :=
  if decide (Z.to_nat i < length buf)%nat
  then Ok (<[Z.to_nat i := a]> buf)
  else Undefined.

End Buffers.

(** ** Pieces shared by the kernels *)

(** [const size_t r = idx % d; idx /= d;]: the next coordinate, innermost
    first, and the remaining index. *)
Definition next_coordinate (idx d : Z) : result (Z * Z) :=
  r ← idx %! d; idx' ← udiv_assign idx d; Ok (r, idx').

(** Lines 40-47 (and 49-56 with [ow], [k2], [w_in]): the source position
    read by the forward transform along one axis, or [None] when the
    thread returns. *)
Definition forward_tap (op : Conv2DOp) (o k extent_in : Z) : option Z :=
  let y_plus_p := o *! stride op +! k in
  if y_plus_p <? padding op then None else
  let y := y_plus_p -! padding op in
  if extent_in <=? y then None else
  Some y.

(** Lines 87-98 (and 100-111 with [x], [k2], [w_out]): the output position
    solved by the backward transform along one axis, or [None] when the
    thread returns. *)
Definition backward_tap (op : Conv2DOp) (y k extent_out : Z)
    : result (option Z) :=
  let oh := y +! padding op in
  if oh <? k then Ok None else
  let oh := oh -! k in
  r ← oh %! stride op;
  if negb (r =? 0) then Ok None else
  oh ← oh /! stride op;
  if extent_out <=? oh then Ok None else
  Ok (Some oh).

(** Offset of element [(b, c, y, x)] in a 4d tensor whose three inner
    extents are [chan], [h] and [w], as lines 58 and 113 compute it. *)
Definition image_offset (chan h w b c y x : Z) : Z :=
  b *! (chan *! h *! w) +! c *! (h *! w) +! y *! w +! x.

(** ** unfold_input_into_patches *)

(** The index computation of one thread, lines 19-58: [Ok None] when the
    thread returns early, [Ok (Some (i, i_image))] when it reaches
    [patches[i] = image[i_image]]. *)
Definition unfold_input_into_patches_indices (op : Conv2DOp) (t : Thread)
    : result (option (Z * Z)) :=
  let i := thread_index t in
  let patches_numel :=
    batch op *! chan_in op *! kernel op *! kernel op *! h_out op *! w_out op in
  if patches_numel <=? i then Ok None else
  let idx := i in
  '(ow, idx) ← next_coordinate idx (w_out op);
  '(oh, idx) ← next_coordinate idx (h_out op);
  '(k2, idx) ← next_coordinate idx (kernel op);
  '(k1, idx) ← next_coordinate idx (kernel op);
  '(c, idx) ← next_coordinate idx (chan_in op);
  '(b, idx) ← next_coordinate idx (batch op);
  match forward_tap op oh k1 (h_in op) with
  | None => Ok None
  | Some y =>
    match forward_tap op ow k2 (w_in op) with
    | None => Ok None
    | Some x =>
      let i_image := image_offset (chan_in op) (h_in op) (w_in op) b c y x in
      Ok (Some (i, i_image))
    end
  end.

(** A thread that reaches line 59 copies one element. *)
Definition copy_element {A : Type} (src : list A) (r : option (Z * Z))
    (dst : list A) : result (list A) :=
  match r with
  | None => Ok dst
  | Some (i, i_src) => v ← load src i_src; store dst i v
  end.

(** A thread of a copy kernel: the index computation, then the copy. *)
Definition copy_thread {A : Type} (indices : Thread → result (option (Z * Z)))
    (src : list A) (t : Thread) (dst : list A) : result (list A) :=
  r ← indices t; copy_element src r dst.

Definition unfold_input_into_patches {A : Type} (op : Conv2DOp)
    (image : list A) (t : Thread) (patches : list A) : result (list A) :=
  copy_thread (unfold_input_into_patches_indices op) image t patches.

(** ** unfold_output_into_patches *)

(** Lines 67-113. *)
Definition unfold_output_into_patches_indices (op : Conv2DOp) (t : Thread)
    : result (option (Z * Z)) :=
  let i := thread_index t in
  let patches_numel :=
    batch op *! chan_out op *! kernel op *! kernel op *! h_in op *! w_in op in
  if patches_numel <=? i then Ok None else
  let idx := i in
  '(x, idx) ← next_coordinate idx (w_in op);
  '(y, idx) ← next_coordinate idx (h_in op);
  '(k2, idx) ← next_coordinate idx (kernel op);
  '(k1, idx) ← next_coordinate idx (kernel op);
  '(o, idx) ← next_coordinate idx (chan_out op);
  '(b, idx) ← next_coordinate idx (batch op);
  r ← backward_tap op y k1 (h_out op);
  match r with
  | None => Ok None
  | Some oh =>
    r ← backward_tap op x k2 (w_out op);
    match r with
    | None => Ok None
    | Some ow =>
      let image_i :=
        image_offset (chan_out op) (h_out op) (w_out op) b o oh ow in
      Ok (Some (i, image_i))
    end
  end.

Definition unfold_output_into_patches {A : Type} (op : Conv2DOp)
    (image_out : list A) (t : Thread) (patches : list A) : result (list A) :=
  copy_thread (unfold_output_into_patches_indices op) image_out t patches.

(** ** transpose_and_broadcast_filters and sum_transposed_filters *)

(** Lines 122-138, and lines 151-167 with the factors of [numel] in the
    order [numel_l * numel_r * kernel * kernel]: [Ok None] when the thread
    returns, [Ok (Some (i, numel, i_tr))] otherwise. *)
Definition transposed_indices (op : Conv2DOp) (numel_l numel_r : Z)
    (t : Thread) : result (option (Z * Z * Z)) :=
  let i := thread_index t in
  let numel := numel_l *! numel_r *! kernel op *! kernel op in
  if numel <=? i then Ok None else
  let idx := i in
  '(k2, idx) ← next_coordinate idx (kernel op);
  '(k1, idx) ← next_coordinate idx (kernel op);
  '(c, idx) ← next_coordinate idx (chan_in op);
  '(o, idx) ← next_coordinate idx (chan_out op);
  let i_tr :=
    c *! (chan_out op *! kernel op *! kernel op) +! o *! (kernel op *! kernel op)
    +! k1 *! kernel op +! k2 in
  Ok (Some (i, numel, i_tr)).

(** The index [b * numel + i_tr] of lines 142 and 171. *)
Definition filters_tr_offset (numel i_tr b : Z) : Z := b *! numel +! i_tr.

Definition transpose_and_broadcast_filters {A : Type} (op : Conv2DOp)
    (filters : list A) (t : Thread) (filters_tr : list A) : result (list A) :=
  r ← transposed_indices op (chan_in op) (chan_out op) t;
  match r with
  | None => Ok filters_tr
  | Some (i, numel, i_tr) =>
    f ← load filters i;
    for_int (batch op)
      (fun b filters_tr => store filters_tr (filters_tr_offset numel i_tr b) f)
      filters_tr
  end.

Definition sum_transposed_filters {A : Type} (zero : A) (add : A → A → A)
    (op : Conv2DOp) (filters_tr : list A) (t : Thread) (filters : list A)
    : result (list A) :=
  r ← transposed_indices op (chan_out op) (chan_in op) t;
  match r with
  | None => Ok filters
  | Some (i, numel, i_tr) =>
    tmp ← for_int (batch op)
      (fun b tmp =>
         v ← load filters_tr (filters_tr_offset numel i_tr b); Ok (add tmp v))
      zero;
    old ← load filters i;
    store filters i (add old tmp)
  end.

(** ** Tensor shapes in exact arithmetic *)

(** Row-major flat index of a coordinate; the list pairs every extent with
    the coordinate along it, outermost axis first. *)
Definition row_major (l : list (Z * Z)) : Z :=
  foldl (fun acc '(d, x) => acc * d + x) 0 l.

(** Number of elements of a shape. *)
Definition shape_numel (l : list (Z * Z)) : Z :=
  foldl (fun acc '(d, _) => acc * d) 1 l.

(** The coordinate lies inside the shape. *)
Definition in_shape (l : list (Z * Z)) : Prop :=
  Forall (fun '(d, x) => 0 <= x < d) l.

(** Element counts of the tensors, as unbounded integers. *)
Definition image_numel (op : Conv2DOp) : Z :=
  batch op * chan_in op * h_in op * w_in op.
Definition image_out_numel (op : Conv2DOp) : Z :=
  batch op * chan_out op * h_out op * w_out op.
Definition patches_in_numel (op : Conv2DOp) : Z :=
  batch op * chan_in op * kernel op * kernel op * h_out op * w_out op.
Definition patches_out_numel (op : Conv2DOp) : Z :=
  batch op * chan_out op * kernel op * kernel op * h_in op * w_in op.
Definition filters_numel (op : Conv2DOp) : Z :=
  chan_out op * chan_in op * kernel op * kernel op.
Definition filters_tr_numel (op : Conv2DOp) : Z :=
  batch op * chan_in op * chan_out op * kernel op * kernel op.

(** The element counts as the kernels compute them, in [size_t]: lines 20,
    68, 123 and 152. *)
Definition patches_in_numel64 (op : Conv2DOp) : Z :=
  batch op *! chan_in op *! kernel op *! kernel op *! h_out op *! w_out op.
Definition patches_out_numel64 (op : Conv2DOp) : Z :=
  batch op *! chan_out op *! kernel op *! kernel op *! h_in op *! w_in op.
Definition transpose_numel64 (op : Conv2DOp) : Z :=
  chan_in op *! chan_out op *! kernel op *! kernel op.
Definition sum_numel64 (op : Conv2DOp) : Z :=
  chan_out op *! chan_in op *! kernel op *! kernel op.

(** Flat indices of the elements of each tensor. *)
Definition image_index (op : Conv2DOp) (b c y x : Z) : Z :=
  row_major [(batch op, b); (chan_in op, c); (h_in op, y); (w_in op, x)].
Definition image_out_index (op : Conv2DOp) (b o oh ow : Z) : Z :=
  row_major [(batch op, b); (chan_out op, o); (h_out op, oh); (w_out op, ow)].
Definition patches_in_index (op : Conv2DOp) (b c k1 k2 oh ow : Z) : Z :=
  row_major [(batch op, b); (chan_in op, c); (kernel op, k1); (kernel op, k2);
             (h_out op, oh); (w_out op, ow)].
Definition patches_out_index (op : Conv2DOp) (b o k1 k2 y x : Z) : Z :=
  row_major [(batch op, b); (chan_out op, o); (kernel op, k1); (kernel op, k2);
             (h_in op, y); (w_in op, x)].
Definition filters_index (op : Conv2DOp) (o c k1 k2 : Z) : Z :=
  row_major [(chan_out op, o); (chan_in op, c); (kernel op, k1); (kernel op, k2)].
Definition filters_tr_index (op : Conv2DOp) (b c o k1 k2 : Z) : Z :=
  row_major [(batch op, b); (chan_in op, c); (chan_out op, o);
             (kernel op, k1); (kernel op, k2)].

(** Element [i] of a buffer, as an option. *)
Definition elem {A : Type} (buf : list A) (i : Z) : option A :=
  if decide (0 <= i) then buf !! Z.to_nat i else None.

(** A buffer of [numel] elements in device memory: its size is a
    [size_t]. *)
Definition is_buffer {A : Type} (buf : list A) (numel : Z) : Prop :=
  Z.of_nat (length buf) = numel ∧ numel <= SIZE_MAX.

(** Modelled from the spec: the standard convolution output-size formula,
    which the source file assumes of its caller and never computes. *)
Definition conv_out_size (op : Conv2DOp) (extent_in : Z) : Z :=
  (extent_in + 2 * padding op - kernel op) / stride op + 1.

(** Modelled from the spec: a valid geometry has a stride, a kernel that
    fits the padded input, and the output extents of the formula. *)
Definition valid_geometry (op : Conv2DOp) : Prop :=
  0 < stride op
  ∧ 0 < kernel op <= h_in op + 2 * padding op
  ∧ kernel op <= w_in op + 2 * padding op
  ∧ h_out op = conv_out_size op (h_in op)
  ∧ w_out op = conv_out_size op (w_in op).

(** The three guards of the backward transform along one axis, in exact
    arithmetic: no underflow, exact divisibility by the stride, and a
    quotient inside the output extent. *)
Definition backward_guard (op : Conv2DOp) (y k extent_out : Z) : Prop :=
  k <= y + padding op
  ∧ (y + padding op - k) mod stride op = 0
  ∧ (y + padding op - k) / stride op < extent_out.

#[global] Instance backward_guard_dec op y k extent_out :
  Decision (backward_guard op y k extent_out).
Proof. unfold backward_guard. apply _. Defined.


(** A launch has a thread for every flat index below [numel]. *)
Definition covers (ts : list Thread) (numel : Z) : Prop :=
  ∀ i, 0 <= i < numel → ∃ t, t ∈ ts ∧ thread_index t = i.

(** The elements [(b, c, o, k1, k2)] of a transposed tensor along the batch
    axis, in the order of [b]. *)
Definition batch_column {A : Type} (op : Conv2DOp) (filters_tr : list A)
    (c o k1 k2 : Z) : list (option A) :=
  (fun b => elem filters_tr (filters_tr_index op b c o k1 k2))
    <$> seqZ 0 (batch op).

(** ** Example geometries *)

(** A geometry used by the examples: one 5x5 image, a 3x3 kernel, stride 1 and
    no padding, hence 3x3 windows. *)
Definition op_5x5 : Conv2DOp :=
  {| stride := 1; padding := 0; kernel := 3; batch := 1; chan_in := 1;
     chan_out := 1; h_in := 5; h_out := 3; w_in := 5; w_out := 3 |}.

(** The same image with stride 2 and padding 1, and two output channels. *)
Definition op_padded : Conv2DOp :=
  {| stride := 2; padding := 1; kernel := 3; batch := 1; chan_in := 1;
     chan_out := 2; h_in := 5; h_out := 3; w_in := 5; w_out := 3 |}.

(** A valid geometry whose padded extent does not fit a [size_t]: a 2x2
    image, a 2x2 kernel, padding [2^64 - 1] and stride [(2^65 - 2) / 3],
    hence 4x4 windows. *)
Definition op_overflow : Conv2DOp :=
  {| stride := 12297829382473034410; padding := 18446744073709551615;
     kernel := 2; batch := 1; chan_in := 1; chan_out := 1;
     h_in := 2; h_out := 4; w_in := 2; w_out := 4 |}.

(** The 5x5 geometry with a stride of zero. *)
Definition op_stride_0 : Conv2DOp :=
  {| stride := 0; padding := 0; kernel := 3; batch := 1; chan_in := 1;
     chan_out := 1; h_in := 5; h_out := 3; w_in := 5; w_out := 3 |}.

(** A geometry with three batches, two input and three output channels and
    a 2x2 kernel. *)
Definition op_filters : Conv2DOp :=
  {| stride := 2; padding := 1; kernel := 2; batch := 3; chan_in := 2;
     chan_out := 3; h_in := 5; h_out := 3; w_in := 5; w_out := 3 |}.

(** A geometry whose batch count does not fit the [int] loop counter. *)
Definition op_batch_2_31 : Conv2DOp :=
  {| stride := 1; padding := 0; kernel := 1; batch := 2 ^ 31; chan_in := 1;
     chan_out := 1; h_in := 1; h_out := 1; w_in := 1; w_out := 1 |}.


(** A geometry whose filter tensor has [2^32 + 1] elements. *)
Definition op_chan_2_32 : Conv2DOp :=
  {| stride := 1; padding := 0; kernel := 1; batch := 1; chan_in := 1;
     chan_out := 2 ^ 32 + 1; h_in := 1; h_out := 1; w_in := 1; w_out := 1 |}.

(** A geometry whose patches tensor has [2^32 + 1] elements. *)
Definition op_batch_2_32 : Conv2DOp :=
  {| stride := 1; padding := 0; kernel := 1; batch := 2 ^ 32 + 1; chan_in := 1;
     chan_out := 1; h_in := 1; h_out := 1; w_in := 1; w_out := 1 |}.

(** A geometry with an empty batch and a stride of zero. *)
Definition op_batch_0 : Conv2DOp :=
  {| stride := 0; padding := 0; kernel := 2; batch := 0; chan_in := 2;
     chan_out := 3; h_in := 5; h_out := 3; w_in := 5; w_out := 3 |}.

(** A geometry without input channels, hence without filters, and with
    [2^31] batches. *)
Definition op_chan_in_0 : Conv2DOp :=
  {| stride := 1; padding := 0; kernel := 3; batch := 2 ^ 31; chan_in := 0;
     chan_out := 3; h_in := 5; h_out := 3; w_in := 5; w_out := 3 |}.

(** A pointwise convolution: a 1x1 kernel, stride 1 and no padding on two
    2x3 images of three channels, with four output channels. *)
Definition op_pointwise : Conv2DOp :=
  {| stride := 1; padding := 0; kernel := 1; batch := 2; chan_in := 3;
     chan_out := 4; h_in := 2; h_out := 2; w_in := 3; w_out := 3 |}.

(** * Properties *)

(** ** Machine arithmetic *)

Section MachineFacts.

Lemma wrap64_range z : 0 <= wrap64 z <= SIZE_MAX.
Proof.
  unfold wrap64, SIZE_MAX.
  pose proof (Z.mod_pos_bound z (2 ^ 64) eq_refl). lia.
Qed.

Lemma wrap32_range z : 0 <= wrap32 z <= UINT_MAX.
Proof.
  unfold wrap32, UINT_MAX.
  pose proof (Z.mod_pos_bound z (2 ^ 32) eq_refl). lia.
Qed.

Lemma wrap64_small z : 0 <= z <= SIZE_MAX → wrap64 z = z.
Proof. unfold wrap64, SIZE_MAX. intros. apply Z.mod_small. lia. Qed.

Lemma wrap32_small z : 0 <= z <= UINT_MAX → wrap32 z = z.
Proof. unfold wrap32, UINT_MAX. intros. apply Z.mod_small. lia. Qed.

Lemma wrap64_le z : 0 <= z → wrap64 z <= z.
Proof. unfold wrap64. intros. apply Z.mod_le; lia. Qed.

Lemma wrap64_add_l a b : wrap64 (wrap64 a + b) = wrap64 (a + b).
Proof. apply Z.add_mod_idemp_l. lia. Qed.

Lemma wrap64_add_r a b : wrap64 (a + wrap64 b) = wrap64 (a + b).
Proof. apply Z.add_mod_idemp_r. lia. Qed.

Lemma wrap64_mul_l a b : wrap64 (wrap64 a * b) = wrap64 (a * b).
Proof. apply Z.mul_mod_idemp_l. lia. Qed.

Lemma wrap64_mul_r a b : wrap64 (a * wrap64 b) = wrap64 (a * b).
Proof. apply Z.mul_mod_idemp_r. lia. Qed.

Lemma wrap64_wrap64 m e : wrap64 m = wrap64 e → wrap64 (wrap64 m) = wrap64 e.
Proof. intros <-. unfold wrap64. apply Z.mod_mod. lia. Qed.

Lemma wrap64_add m1 m2 e1 e2 :
  wrap64 m1 = wrap64 e1 → wrap64 m2 = wrap64 e2 →
  wrap64 (m1 + m2) = wrap64 (e1 + e2).
Proof.
  intros H1 H2. rewrite <- wrap64_add_l, <- wrap64_add_r, H1, H2.
  by rewrite wrap64_add_l, wrap64_add_r.
Qed.

Lemma wrap64_mul m1 m2 e1 e2 :
  wrap64 m1 = wrap64 e1 → wrap64 m2 = wrap64 e2 →
  wrap64 (m1 * m2) = wrap64 (e1 * e2).
Proof.
  intros H1 H2. rewrite <- wrap64_mul_l, <- wrap64_mul_r, H1, H2.
  by rewrite wrap64_mul_l, wrap64_mul_r.
Qed.

Lemma mul64_range a b : is_size_t (a *! b).
Proof. apply wrap64_range. Qed.

Lemma mul64_nonneg a b : 0 <= a *! b.
Proof. apply wrap64_range. Qed.

Lemma add64_range a b : is_size_t (a +! b).
Proof. apply wrap64_range. Qed.

Lemma sub64_range a b : is_size_t (a -! b).
Proof. apply wrap64_range. Qed.

(** A product that is not zero has no zero factor, wrapped or not. *)
Lemma mul64_nonzero a b : a *! b ≠ 0 → a ≠ 0 ∧ b ≠ 0.
Proof.
  unfold mul64, wrap64. intros H.
  split; intros ->; apply H; [rewrite Z.mul_0_l | rewrite Z.mul_0_r]; done.
Qed.

(** Wrapping only ever lowers a product of non-negative factors. *)
Lemma mul64_le a' a b : 0 <= a' <= a → 0 <= b → a' *! b <= a * b.
Proof.
  intros Ha Hb. unfold mul64.
  etrans; [apply wrap64_le; nia | nia].
Qed.

Lemma mul64_exact a b : 0 <= a → 0 <= b → a * b <= SIZE_MAX → a *! b = a * b.
Proof. intros. apply wrap64_small. nia. Qed.

Lemma add64_exact a b : 0 <= a → 0 <= b → a + b <= SIZE_MAX → a +! b = a + b.
Proof. intros. apply wrap64_small. lia. Qed.

Lemma sub64_exact a b : 0 <= b <= a → a <= SIZE_MAX → a -! b = a - b.
Proof. intros. apply wrap64_small. lia. Qed.

Lemma thread_index_range t : 0 <= thread_index t <= UINT_MAX.
Proof. apply wrap32_range. Qed.

(** Threads of a launch with at most [2^32] threads are numbered by
    their global position. *)
Lemma thread_index_grid bi bd ti :
  0 <= bi → 0 <= ti < bd → (bi + 1) * bd <= UINT_MAX + 1 →
  thread_index (MkThread bi bd ti) = bi * bd + ti.
Proof.
  intros. unfold thread_index; simpl.
  rewrite (wrap32_small (bi * bd)) by (unfold UINT_MAX in *; nia).
  apply wrap32_small. unfold UINT_MAX in *; nia.
Qed.

End MachineFacts.

(** Rewrites a sum of products computed in [size_t] into the same
    expression computed exactly and wrapped once. *)
Ltac wrap64_exact :=
  unfold add64, mul64;
  etrans;
  [ repeat first
      [ apply wrap64_wrap64 | apply wrap64_add | apply wrap64_mul | reflexivity ]
  | ].

(** ** The result monad *)

Lemma bind_Ok {S T : Type} (f : S → result T) (r : result S) (v : T) :
  r ≫= f = Ok v ↔ ∃ s, r = Ok s ∧ f s = Ok v.
Proof.
  destruct r as [s|]; simpl; split.
  - eauto.
  - by intros (? & [= ->] & ?).
  - done.
  - by intros (? & ? & ?).
Qed.

Lemma for_each_app {I M : Type} (body : I → M → result M) l1 l2 m :
  for_each body (l1 ++ l2) m = for_each body l1 m ≫= for_each body l2.
Proof.
  revert m. induction l1 as [|x l1 IH]; intros m; simpl; [done|].
  destruct (body x m) as [m'|]; simpl; [apply IH | done].
Qed.

Lemma for_each_snoc {I M : Type} (body : I → M → result M) l x m :
  for_each body (l ++ [x]) m = for_each body l m ≫= body x.
Proof.
  rewrite for_each_app. destruct (for_each body l m) as [m'|]; simpl; [|done].
  by destruct (body x m').
Qed.



(** ** Coordinates *)

Section Coordinates.

Lemma umod_ok a d : d ≠ 0 → a %! d = Ok (a mod d).
Proof. unfold umod. intros. by rewrite (proj2 (Z.eqb_neq d 0)). Qed.

Lemma udiv_ok a d : d ≠ 0 → a /! d = Ok (a / d).
Proof. unfold udiv. intros. by rewrite (proj2 (Z.eqb_neq d 0)). Qed.

(** The divide chain never truncates: a quotient of an [unsigned int] by
    a positive [size_t] is again an [unsigned int]. *)
Lemma next_coordinate_ok idx d :
  0 < d → 0 <= idx <= UINT_MAX →
  next_coordinate idx d = Ok (idx mod d, idx / d).
Proof.
  intros Hd Hidx. unfold next_coordinate, udiv_assign.
  rewrite umod_ok, udiv_ok by lia. simpl.
  rewrite wrap32_small; [done|].
  split; [apply Z.div_pos; lia|].
  etrans; [apply Z.div_le_upper_bound with (q := idx); nia | lia].
Qed.

Lemma next_coordinate_zero idx : next_coordinate idx 0 = Undefined.
Proof. done. Qed.

(** One step of the chain peels the innermost coordinate. *)
Lemma next_coordinate_row_major q d x :
  0 <= x < d → 0 <= q → q * d + x <= UINT_MAX →
  next_coordinate (q * d + x) d = Ok (x, q).
Proof.
  intros Hx Hq Hmax. rewrite next_coordinate_ok by nia.
  do 2 f_equal.
  - symmetry. apply Z.mod_unique_pos with (q := q); lia.
  - symmetry. apply Z.div_unique_pos with (r := x); lia.
Qed.

Lemma row_major_snoc l d x : row_major (l ++ [(d, x)]) = row_major l * d + x.
Proof. unfold row_major. by rewrite foldl_snoc. Qed.

Lemma in_shape_snoc l d x : in_shape (l ++ [(d, x)]) ↔ in_shape l ∧ 0 <= x < d.
Proof.
  unfold in_shape. rewrite Forall_app, Forall_singleton. done.
Qed.

Lemma shape_numel_snoc l d x : shape_numel (l ++ [(d, x)]) = shape_numel l * d.
Proof. unfold shape_numel. by rewrite foldl_snoc. Qed.

(** A coordinate inside a shape has a flat index inside the tensor. *)
Lemma row_major_range l :
  in_shape l → 0 <= row_major l < shape_numel l.
Proof.
  induction l as [|[d x] l IH] using rev_ind; [done|].
  rewrite in_shape_snoc, row_major_snoc, shape_numel_snoc.
  intros [Hl Hx]. specialize (IH Hl). nia.
Qed.

End Coordinates.

Lemma shape_numel_nonneg l : in_shape l → 0 < shape_numel l.
Proof. intros H. pose proof (row_major_range l H). lia. Qed.

(** Every index below the element count is the flat index of a coordinate
    inside the shape. *)
Lemma row_major_surj l i :
  Forall (fun '(d, _) => 0 <= d) l → 0 <= i < shape_numel l →
  ∃ l', l'.*1 = l.*1 ∧ in_shape l' ∧ row_major l' = i.
Proof.
  revert i. induction l as [|[d x] l IH] using rev_ind; intros i Hd Hi.
  - exists []. unfold shape_numel in Hi. simpl in Hi.
    split_and!; [done | apply Forall_nil_2 | unfold row_major; simpl; lia].
  - rewrite shape_numel_snoc in Hi.
    rewrite Forall_app, Forall_singleton in Hd. destruct Hd as [Hd Hd'].
    assert (0 <= shape_numel l) as Hn.
    { clear -Hd. induction l as [|[d' x'] l IH] using rev_ind; [done|].
      rewrite shape_numel_snoc.
      rewrite Forall_app, Forall_singleton in Hd. destruct Hd as [Hd Hd'].
      specialize (IH Hd). nia. }
    assert (0 < d) by nia.
    destruct (IH (i / d)) as (l' & Hl' & Hin & Hrm); [done | |].
    { split; [apply Z.div_pos; lia|]. apply Z.div_lt_upper_bound; lia. }
    exists (l' ++ [(d, i mod d)]). split_and!.
    + rewrite !fmap_app, Hl'. done.
    + apply in_shape_snoc. split; [done|]. apply Z.mod_pos_bound. lia.
    + rewrite row_major_snoc, Hrm.
      pose proof (Z.div_mod i d). lia.
Qed.

(** The chain of a kernel, read as a function of the continuation. *)
Lemma next_coordinate_bind {T : Type} (f : Z * Z → result T) q d x :
  0 <= x < d → 0 <= q → q * d + x <= UINT_MAX →
  next_coordinate (q * d + x) d ≫= f = f (x, q).
Proof. intros. by rewrite next_coordinate_row_major. Qed.

(** Dropping the innermost coordinate does not increase a flat index. *)
Lemma row_major_prefix q d x :
  0 <= q → 0 <= x < d → 0 <= q * d + x ∧ q <= q * d + x.
Proof. nia. Qed.

Ltac split_shape :=
  repeat match goal with
  | H : in_shape (_ :: _) |- _ => apply Forall_cons in H as [? H]
  | H : Forall _ (_ :: _) |- _ => apply Forall_cons in H as [? H]
  end.

(** Names the coordinates of a list of pairs whose extents are known. *)
Ltac destruct_shape l :=
  repeat match goal with
  | H : (_ <$> l) = _ |- _ => destruct l as [|[? ?] l]; simplify_eq/=
  | H : l.*1 = _ |- _ => destruct l as [|[? ?] l]; simplify_eq/=
  end.

(** Proves that a coordinate lies inside a shape, axis by axis. *)
Ltac in_shape_tac :=
  unfold in_shape; repeat (apply Forall_cons_2; [simpl; lia|]);
  apply Forall_nil_2.

(** Bounds on every prefix of a flat index in Horner form. *)
Ltac prefix_bounds q :=
  lazymatch q with
  | ?q' * ?d + ?x =>
    prefix_bounds q';
    destruct (row_major_prefix q' d x) as [? ?]; [lia | lia |]
  | _ => idtac
  end.

(** Runs the divide chain of a kernel on a flat index in Horner form. *)
Ltac decode_chain :=
  match goal with
  | |- context [next_coordinate ?top _] => prefix_bounds top
  end;
  repeat rewrite next_coordinate_bind by lia.

(** ** The forward extractor, thread by thread *)

Section ForwardThread.
Context (op : Conv2DOp) (Hop : size_t_fields op).

Lemma patches_in_numel64_le : patches_in_numel64 op <= patches_in_numel op.
Proof.
  destruct Hop. unfold is_size_t in *.
  unfold patches_in_numel64, patches_in_numel.
  repeat (apply mul64_le; [split; [apply mul64_nonneg|] | lia]).
  apply mul64_le; lia.
Qed.

(** The thread that owns a coordinate decomposes its index into that
    coordinate. *)
Lemma unfold_input_indices_at t b c k1 k2 oh ow :
  in_shape [(batch op, b); (chan_in op, c); (kernel op, k1); (kernel op, k2);
            (h_out op, oh); (w_out op, ow)] →
  thread_index t = patches_in_index op b c k1 k2 oh ow →
  unfold_input_into_patches_indices op t =
    if patches_in_numel64 op <=? thread_index t then Ok None else
    match forward_tap op oh k1 (h_in op) with
    | None => Ok None
    | Some y =>
      match forward_tap op ow k2 (w_in op) with
      | None => Ok None
      | Some x =>
        Ok (Some (thread_index t,
                  image_offset (chan_in op) (h_in op) (w_in op) b c y x))
      end
    end.
Proof.
  intros Hin Hi. pose proof (thread_index_range t) as Hr.
  unfold unfold_input_into_patches_indices. fold (patches_in_numel64 op).
  destruct (patches_in_numel64 op <=? thread_index t); [done|].
  rewrite Hi in *. clear Hi. unfold patches_in_index, row_major in *.
  simpl foldl in *. split_shape.
  rewrite Z.mul_0_l, Z.add_0_l in *.
  decode_chain.
  replace b with (0 * batch op + b) at 1 by lia.
  rewrite next_coordinate_bind by lia.
  done.
Qed.

(** Every thread below the element count owns a coordinate of the patches
    tensor. *)
Lemma unfold_input_indices_decode t :
  thread_index t < patches_in_numel64 op →
  ∃ b c k1 k2 oh ow,
    in_shape [(batch op, b); (chan_in op, c); (kernel op, k1); (kernel op, k2);
              (h_out op, oh); (w_out op, ow)]
    ∧ thread_index t = patches_in_index op b c k1 k2 oh ow.
Proof.
  intros Hlt. pose proof patches_in_numel64_le as Hle.
  pose proof (thread_index_range t) as Hr.
  destruct (row_major_surj
    [(batch op, 0); (chan_in op, 0); (kernel op, 0); (kernel op, 0);
     (h_out op, 0); (w_out op, 0)] (thread_index t)) as (l & Hl & Hin & Hrm).
  { destruct Hop. unfold is_size_t in *. in_shape_tac. }
  { unfold shape_numel, patches_in_numel in *. simpl. lia. }
  destruct_shape l. do 6 eexists. split; [exact Hin | symmetry; exact Hrm].
Qed.

(** What a thread that reaches the copy has computed. *)
Lemma unfold_input_indices_inv t dst src :
  unfold_input_into_patches_indices op t = Ok (Some (dst, src)) →
  ∃ b c k1 k2 oh ow y x,
    in_shape [(batch op, b); (chan_in op, c); (kernel op, k1); (kernel op, k2);
              (h_out op, oh); (w_out op, ow)]
    ∧ dst = thread_index t
    ∧ dst = patches_in_index op b c k1 k2 oh ow
    ∧ dst < patches_in_numel64 op
    ∧ forward_tap op oh k1 (h_in op) = Some y
    ∧ forward_tap op ow k2 (w_in op) = Some x
    ∧ src = image_offset (chan_in op) (h_in op) (w_in op) b c y x.
Proof.
  intros H.
  destruct (Z.leb_spec (patches_in_numel64 op) (thread_index t)) as [Hge|Hlt].
  { unfold unfold_input_into_patches_indices in H.
    fold (patches_in_numel64 op) in H.
    by rewrite (proj2 (Z.leb_le _ _) Hge) in H. }
  destruct (unfold_input_indices_decode t Hlt)
    as (b & c & k1 & k2 & oh & ow & Hin & Hi).
  rewrite (unfold_input_indices_at t b c k1 k2 oh ow Hin Hi) in H.
  rewrite (proj2 (Z.leb_gt _ _) Hlt) in H.
  destruct (forward_tap op oh k1 _) as [y|] eqn:Hy; [|done].
  destruct (forward_tap op ow k2 _) as [x|] eqn:Hx; [|done].
  simplify_eq. exists b, c, k1, k2, oh, ow, y, x. split_and!; done.
Qed.

(** The forward extractor has no undefined behaviour in its index
    computation: past the guard of line 21 no extent is zero. *)
Lemma unfold_input_indices_defined t :
  ∃ r, unfold_input_into_patches_indices op t = Ok r.
Proof.
  destruct (Z.leb_spec (patches_in_numel64 op) (thread_index t)) as [Hge|Hlt].
  { unfold unfold_input_into_patches_indices.
    fold (patches_in_numel64 op).
    rewrite (proj2 (Z.leb_le _ _) Hge). eauto. }
  destruct (unfold_input_indices_decode t Hlt)
    as (b & c & k1 & k2 & oh & ow & Hin & Hi).
  rewrite (unfold_input_indices_at t b c k1 k2 oh ow Hin Hi).
  repeat case_match; eauto.
Qed.

Lemma unfold_input_indices_same t t' :
  thread_index t = thread_index t' →
  unfold_input_into_patches_indices op t
  = unfold_input_into_patches_indices op t'.
Proof. unfold unfold_input_into_patches_indices. by intros ->. Qed.

End ForwardThread.

(** ** Taps and source offsets *)

Section Taps.
Context (op : Conv2DOp) (Hop : size_t_fields op).

(** Whatever the geometry, a source position that passes the forward
    guards lies inside the extent. *)
Lemma forward_tap_range o k extent y :
  forward_tap op o k extent = Some y → 0 <= y < extent.
Proof.
  unfold forward_tap. intros H.
  destruct (_ <? _); [done|].
  destruct (extent <=? _) eqn:Hle; [done|]. simplify_eq.
  apply Z.leb_gt in Hle. split; [apply sub64_range | done].
Qed.

(** Without overflow the forward guards are the exact range test. *)
Lemma forward_tap_exact o k extent :
  0 <= o → 0 <= k → o * stride op + k <= SIZE_MAX →
  forward_tap op o k extent =
    if decide (0 <= o * stride op + k - padding op < extent)
    then Some (o * stride op + k - padding op) else None.
Proof.
  intros Ho Hk Hmax. destruct Hop. unfold is_size_t in *.
  unfold forward_tap.
  rewrite (mul64_exact o (stride op)) by nia.
  rewrite add64_exact by nia.
  destruct (_ <? _) eqn:Hlt.
  { apply Z.ltb_lt in Hlt. rewrite decide_False by lia. done. }
  apply Z.ltb_ge in Hlt. rewrite sub64_exact by lia.
  destruct (extent <=? _) eqn:Hle.
  - apply Z.leb_le in Hle. rewrite decide_False by lia. done.
  - apply Z.leb_gt in Hle. rewrite decide_True by lia. done.
Qed.

(** The first tap of the first window lies in the padding. *)
Lemma forward_tap_padding extent :
  0 < padding op → forward_tap op 0 0 extent = None.
Proof.
  intros Hp. unfold forward_tap, mul64, add64.
  rewrite Z.mul_0_l. change (wrap64 (wrap64 0 + 0)) with 0.
  by rewrite (proj2 (Z.ltb_lt 0 (padding op)) Hp).
Qed.

(** A position that passes the backward guards lies inside the extent. *)
Lemma backward_tap_range y k extent o :
  backward_tap op y k extent = Ok (Some o) → 0 <= o < extent.
Proof.
  unfold backward_tap. intros H.
  destruct (_ <? _); [done|].
  apply bind_Ok in H as (r & Hr & H).
  destruct (negb _); [done|].
  apply bind_Ok in H as (q & Hq & H).
  destruct (extent <=? q) eqn:Hle; [done|]. simplify_eq.
  apply Z.leb_gt in Hle. split; [|done].
  unfold udiv in Hq. destruct (stride op =? 0) eqn:Hs; [done|]. simplify_eq.
  apply Z.eqb_neq in Hs. destruct Hop. unfold is_size_t in *.
  apply Z.div_pos; [apply sub64_range | lia].
Qed.

(** The backward guards are defined as soon as the stride is not zero. *)
Lemma backward_tap_defined y k extent :
  stride op ≠ 0 → ∃ r, backward_tap op y k extent = Ok r.
Proof.
  intros Hs. unfold backward_tap.
  destruct (_ <? _); [eauto|].
  rewrite umod_ok, udiv_ok by done. simpl.
  destruct (negb _); [eauto|]. destruct (_ <=? _); eauto.
Qed.

(** Without overflow the backward guards are: no underflow, exact
    divisibility, and a quotient inside the extent. *)
Lemma backward_tap_exact y k extent :
  0 <= y → 0 <= k → y + padding op <= SIZE_MAX → 0 < stride op →
  backward_tap op y k extent =
    Ok (if decide (backward_guard op y k extent)
        then Some ((y + padding op - k) / stride op) else None).
Proof.
  intros Hy Hk Hmax Hs. destruct Hop. unfold is_size_t in *.
  unfold backward_tap, backward_guard.
  rewrite add64_exact by lia.
  destruct (_ <? _) eqn:Hlt.
  { apply Z.ltb_lt in Hlt. rewrite decide_False by lia. done. }
  apply Z.ltb_ge in Hlt. rewrite sub64_exact by lia.
  rewrite umod_ok, udiv_ok by lia. simpl.
  destruct (_ =? 0) eqn:Hm; simpl.
  2:{ apply Z.eqb_neq in Hm. rewrite decide_False by tauto. done. }
  apply Z.eqb_eq in Hm.
  destruct (extent <=? _) eqn:Hle.
  - apply Z.leb_le in Hle. rewrite decide_False by lia. done.
  - apply Z.leb_gt in Hle. rewrite decide_True by lia. done.
Qed.

End Taps.

Section Offsets.

(** The offset computed in [size_t] is the exact one modulo [2^64]. *)
Lemma image_offset_mod chan h w b c y x :
  image_offset chan h w b c y x
  = wrap64 (((b * chan + c) * h + y) * w + x).
Proof.
  unfold image_offset. wrap64_exact. f_equal. ring.
Qed.

(** Whatever the extents, the offset of a coordinate inside the tensor is
    below the exact element count. *)
Lemma image_offset_lt n chan h w b c y x :
  in_shape [(n, b); (chan, c); (h, y); (w, x)] →
  0 <= image_offset chan h w b c y x < n * chan * h * w.
Proof.
  intros Hin. rewrite image_offset_mod.
  pose proof (row_major_range _ Hin) as Hr.
  unfold row_major, shape_numel in Hr. simpl in Hr.
  split; [apply wrap64_range|].
  eapply Z.le_lt_trans; [apply wrap64_le; lia | lia].
Qed.

(** When the tensor fits a 64-bit address space, the offset is the
    row-major index. *)
Lemma image_offset_exact n chan h w b c y x :
  in_shape [(n, b); (chan, c); (h, y); (w, x)] →
  n * chan * h * w <= SIZE_MAX + 1 →
  image_offset chan h w b c y x = row_major [(n, b); (chan, c); (h, y); (w, x)].
Proof.
  intros Hin Hfit. rewrite image_offset_mod.
  pose proof (row_major_range _ Hin) as Hr.
  unfold row_major, shape_numel in *. simpl in *.
  rewrite Z.mul_0_l, Z.add_0_l in *.
  apply wrap64_small. lia.
Qed.

End Offsets.

(** ** The backward extractor, thread by thread *)

Section BackwardThread.
Context (op : Conv2DOp) (Hop : size_t_fields op).

Lemma patches_out_numel64_le : patches_out_numel64 op <= patches_out_numel op.
Proof.
  destruct Hop. unfold is_size_t in *.
  unfold patches_out_numel64, patches_out_numel.
  repeat (apply mul64_le; [split; [apply mul64_nonneg|] | lia]).
  apply mul64_le; lia.
Qed.

Lemma unfold_output_indices_at t b o k1 k2 y x :
  in_shape [(batch op, b); (chan_out op, o); (kernel op, k1); (kernel op, k2);
            (h_in op, y); (w_in op, x)] →
  thread_index t = patches_out_index op b o k1 k2 y x →
  unfold_output_into_patches_indices op t =
    if patches_out_numel64 op <=? thread_index t then Ok None else
    r ← backward_tap op y k1 (h_out op);
    match r with
    | None => Ok None
    | Some oh =>
      r ← backward_tap op x k2 (w_out op);
      match r with
      | None => Ok None
      | Some ow =>
        Ok (Some (thread_index t,
                  image_offset (chan_out op) (h_out op) (w_out op) b o oh ow))
      end
    end.
Proof.
  intros Hin Hi. pose proof (thread_index_range t) as Hr.
  unfold unfold_output_into_patches_indices. fold (patches_out_numel64 op).
  destruct (patches_out_numel64 op <=? thread_index t); [done|].
  rewrite Hi in *. clear Hi. unfold patches_out_index, row_major in *.
  simpl foldl in *. split_shape.
  rewrite Z.mul_0_l, Z.add_0_l in *.
  decode_chain.
  replace b with (0 * batch op + b) at 1 by lia.
  rewrite next_coordinate_bind by lia.
  done.
Qed.

Lemma unfold_output_indices_decode t :
  thread_index t < patches_out_numel64 op →
  ∃ b o k1 k2 y x,
    in_shape [(batch op, b); (chan_out op, o); (kernel op, k1); (kernel op, k2);
              (h_in op, y); (w_in op, x)]
    ∧ thread_index t = patches_out_index op b o k1 k2 y x.
Proof.
  intros Hlt. pose proof patches_out_numel64_le as Hle.
  pose proof (thread_index_range t) as Hr.
  destruct (row_major_surj
    [(batch op, 0); (chan_out op, 0); (kernel op, 0); (kernel op, 0);
     (h_in op, 0); (w_in op, 0)] (thread_index t)) as (l & Hl & Hin & Hrm).
  { destruct Hop. unfold is_size_t in *. in_shape_tac. }
  { unfold shape_numel, patches_out_numel in *. simpl. lia. }
  destruct_shape l. do 6 eexists. split; [exact Hin | symmetry; exact Hrm].
Qed.

Lemma unfold_output_indices_inv t dst src :
  unfold_output_into_patches_indices op t = Ok (Some (dst, src)) →
  ∃ b o k1 k2 y x oh ow,
    in_shape [(batch op, b); (chan_out op, o); (kernel op, k1); (kernel op, k2);
              (h_in op, y); (w_in op, x)]
    ∧ dst = thread_index t
    ∧ dst = patches_out_index op b o k1 k2 y x
    ∧ dst < patches_out_numel64 op
    ∧ backward_tap op y k1 (h_out op) = Ok (Some oh)
    ∧ backward_tap op x k2 (w_out op) = Ok (Some ow)
    ∧ src = image_offset (chan_out op) (h_out op) (w_out op) b o oh ow.
Proof.
  intros H.
  destruct (Z.leb_spec (patches_out_numel64 op) (thread_index t)) as [Hge|Hlt].
  { unfold unfold_output_into_patches_indices in H.
    fold (patches_out_numel64 op) in H.
    by rewrite (proj2 (Z.leb_le _ _) Hge) in H. }
  destruct (unfold_output_indices_decode t Hlt)
    as (b & o & k1 & k2 & y & x & Hin & Hi).
  rewrite (unfold_output_indices_at t b o k1 k2 y x Hin Hi) in H.
  rewrite (proj2 (Z.leb_gt _ _) Hlt) in H.
  apply bind_Ok in H as ([oh|] & Hoh & H); [|done].
  apply bind_Ok in H as ([ow|] & How & H); [|done].
  simplify_eq. exists b, o, k1, k2, y, x, oh, ow. split_and!; done.
Qed.

(** With a stride that is not zero the backward extractor has no undefined
    behaviour in its index computation. *)
Lemma unfold_output_indices_defined t :
  stride op ≠ 0 → ∃ r, unfold_output_into_patches_indices op t = Ok r.
Proof.
  intros Hs.
  destruct (Z.leb_spec (patches_out_numel64 op) (thread_index t)) as [Hge|Hlt].
  { unfold unfold_output_into_patches_indices.
    fold (patches_out_numel64 op).
    rewrite (proj2 (Z.leb_le _ _) Hge). eauto. }
  destruct (unfold_output_indices_decode t Hlt)
    as (b & o & k1 & k2 & y & x & Hin & Hi).
  rewrite (unfold_output_indices_at t b o k1 k2 y x Hin Hi).
  rewrite (proj2 (Z.leb_gt _ _) Hlt).
  destruct (backward_tap_defined op y k1 (h_out op) Hs) as [[oh|] ->];
    simpl; [|eauto].
  destruct (backward_tap_defined op x k2 (w_out op) Hs) as [[ow|] ->];
    simpl; eauto.
Qed.

Lemma unfold_output_indices_same t t' :
  thread_index t = thread_index t' →
  unfold_output_into_patches_indices op t
  = unfold_output_into_patches_indices op t'.
Proof. unfold unfold_output_into_patches_indices. by intros ->. Qed.

End BackwardThread.

(** ** Copy kernels

    Both extractors are launches of threads that compute a pair of indices
    and copy one element; what a launch leaves in the destination only
    depends on which flat indices have a thread that reaches the copy. *)

Section CopyKernel.
Context {A : Type} (indices : Thread → result (option (Z * Z))) (src : list A).

(** The index computation only looks at the flat index of the thread. *)
Hypothesis indices_same :
  ∀ t t', thread_index t = thread_index t' → indices t = indices t'.
(** A thread writes the element of its own flat index. *)
Hypothesis indices_own :
  ∀ t i s, indices t = Ok (Some (i, s)) → i = thread_index t.

Lemma elem_lookup (buf : list A) i : 0 <= i → elem buf i = buf !! Z.to_nat i.
Proof. intros. unfold elem. by rewrite decide_True. Qed.

Lemma copy_element_Ok dst i s :
  0 <= i → (Z.to_nat i < length dst)%nat → (Z.to_nat s < length src)%nat →
  ∃ dst', copy_element src (Some (i, s)) dst = Ok dst' ∧
    length dst' = length dst ∧
    elem dst' i = src !! Z.to_nat s ∧
    ∀ j, j ≠ i → elem dst' j = elem dst j.
Proof.
  intros Hi Hdst Hsrc. unfold copy_element, load, store.
  destruct (lookup_lt_is_Some_2 src _ Hsrc) as [v Hv]. rewrite Hv. simpl.
  rewrite decide_True by done.
  eexists. split_and!; [done | apply length_insert | |].
  - rewrite elem_lookup by done. by apply list_lookup_insert_eq.
  - intros j Hj. unfold elem. case_decide; [|done].
    apply list_lookup_insert_ne. lia.
Qed.

Lemma launch_copy ts dst :
  (∀ t, t ∈ ts → ∃ r, indices t = Ok r) →
  (∀ t i s, t ∈ ts → indices t = Ok (Some (i, s)) →
     (Z.to_nat i < length dst)%nat ∧ (Z.to_nat s < length src)%nat) →
  ∃ dst', launch (copy_thread indices src) ts dst = Ok dst' ∧
    length dst' = length dst ∧
    (∀ t i s, t ∈ ts → indices t = Ok (Some (i, s)) →
       elem dst' i = src !! Z.to_nat s) ∧
    (∀ j, (∀ t, t ∈ ts → thread_index t = j → indices t = Ok None) →
       elem dst' j = elem dst j).
Proof.
  unfold launch.
  induction ts as [|t ts IH] using rev_ind; intros Hdef Hin.
  { exists dst. split_and!; [done | done | | done].
    intros t i s Ht. by apply elem_of_nil in Ht. }
  destruct IH as (dst1 & Hrun & Hlen & Hwr & Hfr).
  { intros t' Ht'. apply Hdef, elem_of_app. by left. }
  { intros t' i s Ht'. apply Hin, elem_of_app. by left. }
  rewrite for_each_snoc, Hrun. simpl. unfold copy_thread at 1.
  destruct (Hdef t) as [r Hr]; [apply elem_of_app; right; by apply list_elem_of_singleton|].
  rewrite Hr. simpl. destruct r as [[i s]|]; simpl.
  - pose proof (indices_own _ _ _ Hr) as Hi.
    pose proof (thread_index_range t) as Hrange.
    destruct (Hin t i s) as [Hidst Hssrc];
      [apply elem_of_app; right; by apply list_elem_of_singleton | done |].
    destruct (copy_element_Ok dst1 i s) as (dst' & Hc & Hlen' & Hat & Hne);
      [lia | lia | done |].
    simpl in Hc. rewrite Hc. exists dst'. split_and!; [done | lia | |].
    + intros t' i' s' Ht' Hr'.
      destruct (decide (i' = i)) as [->|Hii].
      * pose proof (indices_own _ _ _ Hr') as Hi'.
        assert (indices t' = indices t) as Heq
          by (apply indices_same; congruence).
        rewrite Hr, Hr' in Heq. by simplify_eq.
      * rewrite Hne by done. apply (Hwr t'); [|done].
        apply elem_of_app in Ht' as [Ht'|Ht']; [done|].
        apply list_elem_of_singleton in Ht' as ->. congruence.
    + intros j Hj.
      assert (j ≠ i) as Hji.
      { intros ->. specialize (Hj t).
        rewrite Hr in Hj. discriminate Hj; [|done].
        apply elem_of_app; right; by apply list_elem_of_singleton. }
      rewrite Hne by done. apply Hfr.
      intros t' Ht'. apply Hj, elem_of_app. by left.
  - exists dst1. split_and!; [done | done | |].
    + intros t' i' s' Ht' Hr'. apply (Hwr t'); [|done].
      apply elem_of_app in Ht' as [Ht'|Ht']; [done|].
      apply list_elem_of_singleton in Ht' as ->. congruence.
    + intros j Hj. apply Hfr.
      intros t' Ht'. apply Hj, elem_of_app. by left.
Qed.

End CopyKernel.

(** ** Element counts without overflow *)

Section Counts.
Context (op : Conv2DOp) (Hop : size_t_fields op).

Lemma patches_in_numel64_exact :
  patches_in_numel op <= SIZE_MAX →
  patches_in_numel64 op = patches_in_numel op.
Proof.
  intros Hfit. unfold patches_in_numel64. wrap64_exact.
  apply wrap64_small. split; [|done].
  destruct Hop. unfold is_size_t in *.
  repeat apply Z.mul_nonneg_nonneg; lia.
Qed.

Lemma patches_out_numel64_exact :
  patches_out_numel op <= SIZE_MAX →
  patches_out_numel64 op = patches_out_numel op.
Proof.
  intros Hfit. unfold patches_out_numel64. wrap64_exact.
  apply wrap64_small. split; [|done].
  destruct Hop. unfold is_size_t in *.
  repeat apply Z.mul_nonneg_nonneg; lia.
Qed.

Lemma patches_in_index_range b c k1 k2 oh ow :
  in_shape [(batch op, b); (chan_in op, c); (kernel op, k1); (kernel op, k2);
            (h_out op, oh); (w_out op, ow)] →
  0 <= patches_in_index op b c k1 k2 oh ow < patches_in_numel op.
Proof.
  intros Hin. pose proof (row_major_range _ Hin) as Hr.
  unfold shape_numel, patches_in_numel in *. simpl in Hr.
  unfold patches_in_index. lia.
Qed.

Lemma patches_out_index_range b o k1 k2 y x :
  in_shape [(batch op, b); (chan_out op, o); (kernel op, k1); (kernel op, k2);
            (h_in op, y); (w_in op, x)] →
  0 <= patches_out_index op b o k1 k2 y x < patches_out_numel op.
Proof.
  intros Hin. pose proof (row_major_range _ Hin) as Hr.
  unfold shape_numel, patches_out_numel in *. simpl in Hr.
  unfold patches_out_index. lia.
Qed.

End Counts.

(** ** Launches of the extractors *)

Section ExtractorLaunch.
Context {A : Type} (op : Conv2DOp) (Hop : size_t_fields op).

(** A launch of the forward extractor on buffers of the declared sizes is
    defined, whatever the geometry and the threads. *)
Lemma launch_unfold_input (image patches : list A) ts :
  Z.of_nat (length image) = image_numel op →
  Z.of_nat (length patches) = patches_in_numel op →
  ∃ patches',
    launch (unfold_input_into_patches op image) ts patches = Ok patches' ∧
    length patches' = length patches ∧
    (∀ t i s, t ∈ ts →
       unfold_input_into_patches_indices op t = Ok (Some (i, s)) →
       elem patches' i = image !! Z.to_nat s) ∧
    (∀ j, (∀ t, t ∈ ts → thread_index t = j →
             unfold_input_into_patches_indices op t = Ok None) →
       elem patches' j = elem patches j).
Proof.
  intros Himg Hpat.
  apply (launch_copy (unfold_input_into_patches_indices op) image).
  - apply unfold_input_indices_same.
  - intros t i s H.
    apply (unfold_input_indices_inv op Hop) in H
      as (? & ? & ? & ? & ? & ? & ? & ? & ? & ? & ?). done.
  - intros t _. apply (unfold_input_indices_defined op Hop).
  - intros t i s _ H.
    apply (unfold_input_indices_inv op Hop) in H
      as (b & c & k1 & k2 & oh & ow & y & x & Hin & -> & Hi & Hlt & Hy & Hx & ->).
    pose proof (patches_in_numel64_le op Hop).
    pose proof (thread_index_range t).
    apply forward_tap_range in Hy, Hx. split_shape.
    pose proof (image_offset_lt (batch op) (chan_in op) (h_in op) (w_in op)
                  b c y x) as Hoff.
    unfold image_numel in Himg. split; [lia|].
    assert (in_shape [(batch op, b); (chan_in op, c); (h_in op, y); (w_in op, x)])
      as Hs by in_shape_tac.
    specialize (Hoff Hs). lia.
Qed.

(** The same for the backward extractor, when the stride is not zero. *)
Lemma launch_unfold_output (image_out patches : list A) ts :
  stride op ≠ 0 →
  Z.of_nat (length image_out) = image_out_numel op →
  Z.of_nat (length patches) = patches_out_numel op →
  ∃ patches',
    launch (unfold_output_into_patches op image_out) ts patches = Ok patches' ∧
    length patches' = length patches ∧
    (∀ t i s, t ∈ ts →
       unfold_output_into_patches_indices op t = Ok (Some (i, s)) →
       elem patches' i = image_out !! Z.to_nat s) ∧
    (∀ j, (∀ t, t ∈ ts → thread_index t = j →
             unfold_output_into_patches_indices op t = Ok None) →
       elem patches' j = elem patches j).
Proof.
  intros Hs Himg Hpat.
  apply (launch_copy (unfold_output_into_patches_indices op) image_out).
  - apply unfold_output_indices_same.
  - intros t i s H.
    apply (unfold_output_indices_inv op Hop) in H
      as (? & ? & ? & ? & ? & ? & ? & ? & ? & ? & ?). done.
  - intros t _. by apply (unfold_output_indices_defined op Hop).
  - intros t i s _ H.
    apply (unfold_output_indices_inv op Hop) in H
      as (b & o & k1 & k2 & y & x & oh & ow & Hin & -> & Hi & Hlt & Hy & Hx & ->).
    pose proof (patches_out_numel64_le op Hop).
    pose proof (thread_index_range t).
    apply (backward_tap_range op Hop) in Hy, Hx. split_shape.
    pose proof (image_offset_lt (batch op) (chan_out op) (h_out op) (w_out op)
                  b o oh ow) as Hoff.
    unfold image_out_numel in Himg. split; [lia|].
    assert (in_shape [(batch op, b); (chan_out op, o); (h_out op, oh);
                      (w_out op, ow)])
      as Hsh by in_shape_tac.
    specialize (Hoff Hsh). lia.
Qed.

End ExtractorLaunch.

(** ** Injectivity of the row-major index *)

Lemma row_major_step_inj q q' d x x' :
  0 <= x < d → 0 <= x' < d → q * d + x = q' * d + x' → q = q' ∧ x = x'.
Proof. intros Hx Hx' Heq. assert (q = q') by nia. subst. lia. Qed.

Lemma row_major_inj l l' :
  l.*1 = l'.*1 → in_shape l → in_shape l' →
  row_major l = row_major l' → l = l'.
Proof.
  revert l'. induction l as [|[d x] l IH] using rev_ind; intros l' Hd Hin Hin' Heq.
  - destruct l'; [done|]. discriminate Hd.
  - destruct l' as [|[d' x'] l' _] using rev_ind.
    { rewrite fmap_app in Hd. simpl in Hd. by destruct (l.*1). }
    rewrite !fmap_app in Hd. simpl in Hd.
    apply app_inj_tail in Hd as [Hd ->].
    rewrite in_shape_snoc in Hin, Hin'. rewrite !row_major_snoc in Heq.
    destruct Hin as [Hin Hx], Hin' as [Hin' Hx'].
    destruct (row_major_step_inj _ _ _ _ _ Hx Hx' Heq) as [Hq ->].
    f_equal. by apply IH.
Qed.

(** ** Loops over the batch axis *)

Section BatchLoops.
Context {A : Type}.

Lemma load_lookup (buf : list A) i v :
  buf !! Z.to_nat i = Some v → load buf i = Ok v.
Proof. unfold load. by intros ->. Qed.

(** The loop of lines 141-143: the same value stored at every offset. *)
Lemma for_each_store (f : A) (off : Z → Z) bs (m0 : list A) :
  (∀ b, b ∈ bs → 0 <= off b < Z.of_nat (length m0)) →
  ∃ m', for_each (fun b m => store m (off b) f) bs m0 = Ok m' ∧
    length m' = length m0 ∧
    (∀ b, b ∈ bs → elem m' (off b) = Some f) ∧
    (∀ j, (∀ b, b ∈ bs → off b ≠ j) → elem m' j = elem m0 j).
Proof.
  induction bs as [|b bs IH] using rev_ind; intros Hoff.
  { exists m0. split_and!; [done | done | | done].
    intros b Hb. by apply elem_of_nil in Hb. }
  destruct IH as (m1 & Hrun & Hlen & Hwr & Hfr).
  { intros b' Hb'. apply Hoff, elem_of_app. by left. }
  rewrite for_each_snoc, Hrun. simpl.
  assert (b ∈ bs ++ [b]) as Hb
    by (apply elem_of_app; right; by apply list_elem_of_singleton).
  pose proof (Hoff b Hb) as Hbb. unfold store.
  rewrite decide_True by lia.
  eexists. split_and!; [done | rewrite length_insert; lia | |].
  - intros b' Hb'. pose proof (Hoff b' Hb') as Hbb'.
    rewrite elem_lookup by lia.
    destruct (decide (off b' = off b)) as [->|Hne].
    { apply list_lookup_insert_eq. lia. }
    rewrite list_lookup_insert_ne by lia.
    apply elem_of_app in Hb' as [Hb'|Hb'].
    + rewrite <- elem_lookup by lia. by apply Hwr.
    + apply list_elem_of_singleton in Hb' as ->. done.
  - intros j Hj. rewrite <- Hfr.
    2:{ intros b' Hb'. apply Hj, elem_of_app. by left. }
    unfold elem. case_decide; [|done].
    apply list_lookup_insert_ne. specialize (Hj b Hb). lia.
Qed.

(** The loop of lines 170-172: the values at the offsets, added in order. *)
Lemma for_each_sum (add : A → A → A) (src : list A) (off : Z → Z) bs vs tmp0 :
  Forall2 (fun b v => src !! Z.to_nat (off b) = Some v) bs vs →
  for_each (fun b tmp => v ← load src (off b); Ok (add tmp v)) bs tmp0
  = Ok (foldl add tmp0 vs).
Proof.
  intros H. revert tmp0. induction H as [|b v bs vs Hv _ IH]; intros tmp0.
  - done.
  - cbn [for_each]. rewrite (load_lookup _ _ _ Hv). simpl. apply IH.
Qed.

Lemma for_int_defined {M : Type} n (body : Z → M → result M) m :
  n <= INT_MAX → for_int n body m = for_each body (seqZ 0 n) m.
Proof.
  intros Hn. unfold for_int. by rewrite (proj2 (Z.ltb_ge _ _) Hn).
Qed.

Lemma for_int_overflow {M : Type} n (body : Z → M → result M) m :
  INT_MAX < n → for_int n body m = Undefined.
Proof.
  intros Hn. unfold for_int. by rewrite (proj2 (Z.ltb_lt _ _) Hn).
Qed.

(** The values a loop of loads reads, when every offset is inside the
    buffer. *)
Lemma lookup_all (src : list A) (off : Z → Z) bs :
  (∀ b, b ∈ bs → 0 <= off b < Z.of_nat (length src)) →
  ∃ vs, Forall2 (fun b v => src !! Z.to_nat (off b) = Some v) bs vs
        ∧ Some <$> vs = (fun b => elem src (off b)) <$> bs.
Proof.
  induction bs as [|b bs IH]; intros Hoff.
  { exists []. split; [constructor | done]. }
  destruct IH as (vs & Hvs & Heq).
  { intros b' Hb'. apply Hoff. by right. }
  assert (0 <= off b < Z.of_nat (length src)) as Hb by (apply Hoff; by left).
  destruct (lookup_lt_is_Some_2 src (Z.to_nat (off b))) as [v Hv]; [lia|].
  exists (v :: vs). split; [by constructor|].
  rewrite !fmap_cons, Heq. f_equal. unfold elem. by rewrite decide_True by lia.
Qed.

End BatchLoops.

(** ** The filter kernels, thread by thread *)

Section TransposedThread.
Context (op : Conv2DOp) (Hop : size_t_fields op).

Lemma transposed_numel64_le nl nr :
  0 <= nl → 0 <= nr →
  0 <= nl *! nr *! kernel op *! kernel op <= nl * nr * kernel op * kernel op.
Proof.
  intros Hl Hr. destruct Hop. unfold is_size_t in *.
  split; [apply mul64_nonneg|].
  repeat (apply mul64_le; [split; [apply mul64_nonneg|] | lia]).
  apply mul64_le; lia.
Qed.

Lemma transposed_numel64_eq nl nr :
  nl *! nr *! kernel op *! kernel op
  = wrap64 (nl * nr * kernel op * kernel op).
Proof. by wrap64_exact. Qed.

(** Both filter kernels compute the same element count. *)
Lemma sum_numel64_transpose_numel64 : sum_numel64 op = transpose_numel64 op.
Proof.
  unfold sum_numel64, transpose_numel64. rewrite !transposed_numel64_eq.
  f_equal. ring.
Qed.

Lemma transposed_indices_at nl nr t o c k1 k2 :
  in_shape [(chan_out op, o); (chan_in op, c); (kernel op, k1); (kernel op, k2)] →
  thread_index t = filters_index op o c k1 k2 →
  transposed_indices op nl nr t =
    if nl *! nr *! kernel op *! kernel op <=? thread_index t then Ok None else
    Ok (Some (thread_index t, nl *! nr *! kernel op *! kernel op,
              image_offset (chan_out op) (kernel op) (kernel op) c o k1 k2)).
Proof.
  intros Hin Hi. pose proof (thread_index_range t) as Hr.
  unfold transposed_indices.
  destruct (_ <=? thread_index t); [done|].
  rewrite Hi in *. clear Hi. unfold filters_index, row_major in *.
  simpl foldl in *. split_shape.
  rewrite Z.mul_0_l, Z.add_0_l in *.
  decode_chain.
  replace o with (0 * chan_out op + o) at 1 by lia.
  rewrite next_coordinate_bind by lia.
  done.
Qed.

Lemma transposed_indices_decode nl nr t :
  0 <= nl → 0 <= nr → nl * nr = chan_out op * chan_in op →
  thread_index t < nl *! nr *! kernel op *! kernel op →
  ∃ o c k1 k2,
    in_shape [(chan_out op, o); (chan_in op, c); (kernel op, k1);
              (kernel op, k2)]
    ∧ thread_index t = filters_index op o c k1 k2.
Proof.
  intros Hl Hr Hlr Hlt. pose proof (transposed_numel64_le nl nr Hl Hr) as Hle.
  pose proof (thread_index_range t) as Hrange.
  destruct (row_major_surj
    [(chan_out op, 0); (chan_in op, 0); (kernel op, 0); (kernel op, 0)]
    (thread_index t)) as (l & Heq & Hin & Hrm).
  { destruct Hop. unfold is_size_t in *. in_shape_tac. }
  { unfold shape_numel. simpl.
    assert (nl * nr * kernel op * kernel op
            = chan_out op * chan_in op * kernel op * kernel op)
      by (by rewrite Hlr).
    lia. }
  destruct_shape l. do 4 eexists. split; [exact Hin | symmetry; exact Hrm].
Qed.


Lemma transposed_indices_defined nl nr t :
  0 <= nl → 0 <= nr → nl * nr = chan_out op * chan_in op →
  ∃ r, transposed_indices op nl nr t = Ok r.
Proof.
  intros Hl Hr Hlr.
  destruct (Z.leb_spec (nl *! nr *! kernel op *! kernel op) (thread_index t))
    as [Hge|Hlt].
  { unfold transposed_indices.
    rewrite (proj2 (Z.leb_le _ _) Hge). eauto. }
  destruct (transposed_indices_decode nl nr t Hl Hr Hlr Hlt)
    as (o & c & k1 & k2 & Hin & Hi).
  rewrite (transposed_indices_at nl nr t o c k1 k2 Hin Hi).
  case_match; eauto.
Qed.

Lemma filters_index_range o c k1 k2 :
  in_shape [(chan_out op, o); (chan_in op, c); (kernel op, k1); (kernel op, k2)] →
  0 <= filters_index op o c k1 k2 < filters_numel op.
Proof.
  intros Hin. pose proof (row_major_range _ Hin) as Hr.
  unfold shape_numel, filters_numel in *. simpl in Hr.
  unfold filters_index. lia.
Qed.

Lemma filters_tr_index_range b c o k1 k2 :
  in_shape [(batch op, b); (chan_in op, c); (chan_out op, o); (kernel op, k1);
            (kernel op, k2)] →
  0 <= filters_tr_index op b c o k1 k2 < filters_tr_numel op.
Proof.
  intros Hin. pose proof (row_major_range _ Hin) as Hr.
  unfold shape_numel, filters_tr_numel in *. simpl in Hr.
  unfold filters_tr_index. lia.
Qed.

(** Whatever the geometry, the offsets of lines 142 and 171 stay inside the
    transposed tensor. *)
Lemma filters_tr_offset_lt numel b c o k1 k2 :
  in_shape [(batch op, b); (chan_in op, c); (chan_out op, o); (kernel op, k1);
            (kernel op, k2)] →
  0 <= numel <= filters_numel op →
  0 <= filters_tr_offset numel
         (image_offset (chan_out op) (kernel op) (kernel op) c o k1 k2) b
    < filters_tr_numel op.
Proof.
  intros Hin Hnumel. unfold filters_tr_offset, add64.
  split; [apply wrap64_range|]. split_shape.
  assert (in_shape [(chan_in op, c); (chan_out op, o); (kernel op, k1);
                    (kernel op, k2)]) as Hs by in_shape_tac.
  pose proof (image_offset_lt _ _ _ _ _ _ _ _ Hs) as Hoff.
  assert (b *! numel <= b * numel) as Hmul by (apply mul64_le; lia).
  pose proof (mul64_nonneg b numel).
  eapply Z.le_lt_trans; [apply wrap64_le; lia|].
  replace (filters_numel op)
    with (chan_in op * chan_out op * kernel op * kernel op) in Hnumel
    by (unfold filters_numel; ring).
  replace (filters_tr_numel op)
    with (batch op * (chan_in op * chan_out op * kernel op * kernel op))
    by (unfold filters_tr_numel; ring).
  revert Hoff Hnumel.
  generalize (chan_in op * chan_out op * kernel op * kernel op).
  generalize (image_offset (chan_out op) (kernel op) (kernel op) c o k1 k2).
  intros off N Hoff Hnumel. nia.
Qed.

(** Without overflow they are the row-major indices of the transposed
    tensor. *)
Lemma filters_tr_offset_exact b c o k1 k2 :
  in_shape [(batch op, b); (chan_in op, c); (chan_out op, o); (kernel op, k1);
            (kernel op, k2)] →
  filters_tr_numel op <= SIZE_MAX →
  filters_tr_offset (filters_numel op)
    (image_offset (chan_out op) (kernel op) (kernel op) c o k1 k2) b
  = filters_tr_index op b c o k1 k2.
Proof.
  intros Hin Hfit. pose proof (filters_tr_index_range _ _ _ _ _ Hin) as Hr.
  unfold filters_tr_offset. rewrite image_offset_mod.
  unfold add64, mul64. rewrite wrap64_mul_l || idtac.
  rewrite wrap64_add_l, wrap64_add_r.
  unfold filters_tr_index, row_major, filters_numel in *. simpl in *.
  match goal with
  | |- wrap64 ?m = ?e => replace m with e by ring
  end.
  apply wrap64_small. lia.
Qed.

(** When the transposed tensor is not empty and fits a 64-bit address
    space, both kernels compute the exact element count of the filters. *)
Lemma transposed_numel64_exact nl nr :
  nl * nr = chan_out op * chan_in op →
  0 < batch op → filters_tr_numel op <= SIZE_MAX →
  nl *! nr *! kernel op *! kernel op = filters_numel op.
Proof.
  intros Hlr Hb Hfit. rewrite transposed_numel64_eq, Hlr.
  destruct Hop. unfold is_size_t in *.
  unfold filters_tr_numel, filters_numel in *.
  apply wrap64_small.
  assert (0 <= chan_out op * chan_in op * kernel op * kernel op)
    by (repeat apply Z.mul_nonneg_nonneg; lia).
  nia.
Qed.

Lemma transposed_numel64_small nl nr :
  nl * nr = chan_out op * chan_in op →
  filters_numel op <= SIZE_MAX →
  nl *! nr *! kernel op *! kernel op = filters_numel op.
Proof.
  intros Hlr Hfit. rewrite transposed_numel64_eq, Hlr.
  destruct Hop. unfold is_size_t in *. unfold filters_numel in *.
  apply wrap64_small. split; [|done].
  repeat apply Z.mul_nonneg_nonneg; lia.
Qed.

End TransposedThread.

(** ** Launches of the filter kernels *)

Section FilterLaunch.
Context {A : Type} (op : Conv2DOp) (Hop : size_t_fields op).
Context (Hbatch : batch op <= INT_MAX) (Hfit : filters_tr_numel op <= SIZE_MAX).

Lemma filters_numel_nonneg : 0 <= filters_numel op.
Proof.
  destruct Hop. unfold is_size_t, filters_numel in *.
  repeat apply Z.mul_nonneg_nonneg; lia.
Qed.

(** One thread of [transpose_and_broadcast_filters]. *)
Lemma transpose_thread (filters dst : list A) t :
  Z.of_nat (length filters) = filters_numel op →
  Z.of_nat (length dst) = filters_tr_numel op →
  (transpose_numel64 op <= thread_index t
   ∧ transpose_and_broadcast_filters op filters t dst = Ok dst)
  ∨ (∃ o c k1 k2 dst',
       in_shape [(chan_out op, o); (chan_in op, c); (kernel op, k1);
                 (kernel op, k2)]
       ∧ thread_index t = filters_index op o c k1 k2
       ∧ transpose_and_broadcast_filters op filters t dst = Ok dst'
       ∧ length dst' = length dst
       ∧ (∀ b, 0 <= b < batch op →
            elem dst' (filters_tr_index op b c o k1 k2)
            = elem filters (filters_index op o c k1 k2))
       ∧ (∀ j, (∀ b, 0 <= b < batch op →
                  j ≠ filters_tr_index op b c o k1 k2) →
            elem dst' j = elem dst j)).
Proof.
  intros Hlen Hdst. destruct Hop as [? ? ? ? Hci Hco ? ? ? ?].
  unfold is_size_t in *.
  assert (chan_in op * chan_out op = chan_out op * chan_in op) as Hlr by ring.
  destruct (Z.leb_spec (transpose_numel64 op) (thread_index t)) as [Hge|Hlt].
  { left. split; [done|]. unfold transpose_and_broadcast_filters, transposed_indices.
    fold (transpose_numel64 op). by rewrite (proj2 (Z.leb_le _ _) Hge). }
  right.
  destruct (transposed_indices_decode op Hop _ _ t (proj1 Hci) (proj1 Hco) Hlr Hlt)
    as (o & c & k1 & k2 & Hin & Hi).
  pose proof (transposed_numel64_le op Hop _ _ (proj1 Hci) (proj1 Hco)) as Hle.
  fold (transpose_numel64 op) in Hle.
  pose proof (thread_index_range t) as Hrange.
  assert (filters_numel op
          = chan_in op * chan_out op * kernel op * kernel op) as HN
    by (unfold filters_numel; ring).
  unfold transpose_and_broadcast_filters.
  rewrite (transposed_indices_at op _ _ t o c k1 k2 Hin Hi).
  fold (transpose_numel64 op). rewrite (proj2 (Z.leb_gt _ _) Hlt). simpl.
  destruct (lookup_lt_is_Some_2 filters (Z.to_nat (thread_index t))) as [f Hf];
    [lia|].
  rewrite (load_lookup _ _ _ Hf). simpl. rewrite for_int_defined by done.
  set (off := filters_tr_offset (transpose_numel64 op)
                (image_offset (chan_out op) (kernel op) (kernel op) c o k1 k2)).
  assert (∀ b, 0 <= b < batch op →
            in_shape [(batch op, b); (chan_in op, c); (chan_out op, o);
                      (kernel op, k1); (kernel op, k2)]) as Hsh.
  { intros b Hb. split_shape. in_shape_tac. }
  destruct (for_each_store f off (seqZ 0 (batch op)) dst)
    as (dst' & Hrun & Hlen' & Hwr & Hfr).
  { intros b Hb%elem_of_seqZ. rewrite Hdst.
    apply (filters_tr_offset_lt op); [apply Hsh; lia | lia]. }
  assert (∀ b, 0 <= b < batch op → off b = filters_tr_index op b c o k1 k2)
    as Hoff.
  { intros b Hb. unfold off, transpose_numel64.
    rewrite (transposed_numel64_exact op Hop) by (done || lia).
    apply (filters_tr_offset_exact op); [by apply Hsh | done]. }
  exists o, c, k1, k2, dst'. split_and!; [done | done | done | done | |].
  - intros b Hb. rewrite <- Hoff by done.
    rewrite Hwr by (apply elem_of_seqZ; lia).
    rewrite <- Hi. by rewrite elem_lookup by lia.
  - intros j Hj. apply Hfr. intros b Hb%elem_of_seqZ.
    rewrite Hoff by lia. intros <-. apply (Hj b); [lia | done].
Qed.

(** A launch of [transpose_and_broadcast_filters]. *)
Lemma launch_transpose (filters dst : list A) ts :
  Z.of_nat (length filters) = filters_numel op →
  Z.of_nat (length dst) = filters_tr_numel op →
  ∃ dst',
    launch (transpose_and_broadcast_filters op filters) ts dst = Ok dst' ∧
    length dst' = length dst ∧
    ∀ b c o k1 k2,
      in_shape [(batch op, b); (chan_in op, c); (chan_out op, o);
                (kernel op, k1); (kernel op, k2)] →
      ((∃ t, t ∈ ts ∧ thread_index t = filters_index op o c k1 k2) →
         elem dst' (filters_tr_index op b c o k1 k2)
         = elem filters (filters_index op o c k1 k2))
      ∧ ((∀ t, t ∈ ts → thread_index t ≠ filters_index op o c k1 k2) →
           elem dst' (filters_tr_index op b c o k1 k2)
           = elem dst (filters_tr_index op b c o k1 k2)).
Proof.
  intros Hlen Hdst. unfold launch.
  induction ts as [|t ts IH] using rev_ind.
  { exists dst. split_and!; [done | done |].
    intros b c o k1 k2 Hin. split; [|done].
    intros (t & Ht & _). by apply elem_of_nil in Ht. }
  destruct IH as (dst1 & Hrun & Hlen1 & Hpost).
  rewrite for_each_snoc, Hrun. simpl.
  assert (t ∈ ts ++ [t]) as Htin
    by (apply elem_of_app; right; by apply list_elem_of_singleton).
  destruct (transpose_thread filters dst1 t) as
    [[Hge Ht] | (o0 & c0 & k10 & k20 & dst' & Hin0 & Hi0 & Ht & Hlen' & Hwr & Hfr)];
    [done | lia | |].
  - (* the thread returns at line 125 *)
    rewrite Ht. exists dst1. split_and!; [done | done |].
    intros b c o k1 k2 Hin. destruct (Hpost b c o k1 k2 Hin) as [Hp1 Hp2].
    assert (thread_index t ≠ filters_index op o c k1 k2) as Hne.
    { assert (0 < batch op) by (split_shape; lia).
      unfold transpose_numel64 in Hge.
      rewrite (transposed_numel64_exact op Hop) in Hge by (done || ring).
      assert (in_shape [(chan_out op, o); (chan_in op, c); (kernel op, k1);
                        (kernel op, k2)]) as Hs
        by (split_shape; in_shape_tac).
      pose proof (filters_index_range op _ _ _ _ Hs). lia. }
    split.
    + intros (t' & Ht' & Hi'). apply Hp1. exists t'. split; [|done].
      apply elem_of_app in Ht' as [Ht'|Ht']; [done|].
      apply list_elem_of_singleton in Ht' as ->. done.
    + intros Hno. apply Hp2. intros t' Ht'. apply Hno, elem_of_app. by left.
  - (* the thread broadcasts its filter element *)
    rewrite Ht. exists dst'. split_and!; [done | lia |].
    intros b c o k1 k2 Hin. destruct (Hpost b c o k1 k2 Hin) as [Hp1 Hp2].
    assert (0 <= b < batch op) as Hb by (split_shape; lia).
    destruct (decide (filters_index op o c k1 k2 = thread_index t)) as [Heq|Hne].
    + assert ([(chan_out op, o); (chan_in op, c); (kernel op, k1);
               (kernel op, k2)]
              = [(chan_out op, o0); (chan_in op, c0); (kernel op, k10);
                 (kernel op, k20)]) as Hco.
      { apply row_major_inj; [done | | done |].
        - split_shape. in_shape_tac.
        - unfold filters_index in *. congruence. }
      simplify_eq. split; [intros _; by apply Hwr|].
      intros Hno. by destruct (Hno t Htin).
    + assert (elem dst' (filters_tr_index op b c o k1 k2)
              = elem dst1 (filters_tr_index op b c o k1 k2)) as Hsame.
      { apply Hfr. intros b' Hb' Heq. apply Hne. rewrite Hi0.
        assert ([(batch op, b); (chan_in op, c); (chan_out op, o);
                 (kernel op, k1); (kernel op, k2)]
                = [(batch op, b'); (chan_in op, c0); (chan_out op, o0);
                   (kernel op, k10); (kernel op, k20)]) as Hco.
        { apply row_major_inj; [done | done | | done].
          split_shape. in_shape_tac. }
        by simplify_eq. }
      rewrite Hsame. split.
      * intros (t' & Ht' & Hi'). apply Hp1. exists t'. split; [|done].
        apply elem_of_app in Ht' as [Ht'|Ht']; [done|].
        apply list_elem_of_singleton in Ht' as ->. congruence.
      * intros Hno. apply Hp2. intros t' Ht'. apply Hno, elem_of_app. by left.
Qed.

(** One thread of [sum_transposed_filters]. *)
Lemma sum_thread (zero : A) (add : A → A → A) (filters_tr dst : list A) t :
  Z.of_nat (length filters_tr) = filters_tr_numel op →
  Z.of_nat (length dst) = filters_numel op →
  (sum_numel64 op <= thread_index t
   ∧ sum_transposed_filters zero add op filters_tr t dst = Ok dst)
  ∨ (∃ o c k1 k2 old vs,
       in_shape [(chan_out op, o); (chan_in op, c); (kernel op, k1);
                 (kernel op, k2)]
       ∧ thread_index t = filters_index op o c k1 k2
       ∧ elem dst (filters_index op o c k1 k2) = Some old
       ∧ Some <$> vs = batch_column op filters_tr c o k1 k2
       ∧ sum_transposed_filters zero add op filters_tr t dst
         = Ok (<[Z.to_nat (thread_index t) := add old (foldl add zero vs)]> dst)).
Proof.
  intros Hlen Hdst. destruct Hop as [? ? ? ? Hci Hco ? ? ? ?].
  unfold is_size_t in *.
  assert (chan_out op * chan_in op = chan_out op * chan_in op) as Hlr by ring.
  destruct (Z.leb_spec (sum_numel64 op) (thread_index t)) as [Hge|Hlt].
  { left. split; [done|]. unfold sum_transposed_filters, transposed_indices.
    fold (sum_numel64 op). by rewrite (proj2 (Z.leb_le _ _) Hge). }
  right.
  destruct (transposed_indices_decode op Hop _ _ t (proj1 Hco) (proj1 Hci) Hlr Hlt)
    as (o & c & k1 & k2 & Hin & Hi).
  pose proof (transposed_numel64_le op Hop _ _ (proj1 Hco) (proj1 Hci)) as Hle.
  fold (sum_numel64 op) in Hle.
  pose proof (thread_index_range t) as Hrange.
  unfold sum_transposed_filters.
  rewrite (transposed_indices_at op _ _ t o c k1 k2 Hin Hi).
  fold (sum_numel64 op). rewrite (proj2 (Z.leb_gt _ _) Hlt). simpl.
  rewrite for_int_defined by done.
  set (off := filters_tr_offset (sum_numel64 op)
                (image_offset (chan_out op) (kernel op) (kernel op) c o k1 k2)).
  assert (∀ b, 0 <= b < batch op →
            in_shape [(batch op, b); (chan_in op, c); (chan_out op, o);
                      (kernel op, k1); (kernel op, k2)]) as Hsh.
  { intros b Hb. split_shape. in_shape_tac. }
  destruct (lookup_all filters_tr off (seqZ 0 (batch op))) as (vs & Hvs & Heq).
  { intros b Hb%elem_of_seqZ. rewrite Hlen.
    apply (filters_tr_offset_lt op); [apply Hsh; lia |].
    unfold filters_numel. lia. }
  rewrite (for_each_sum add filters_tr off _ vs zero Hvs). simpl.
  destruct (lookup_lt_is_Some_2 dst (Z.to_nat (thread_index t))) as [old Hold];
    [unfold filters_numel in Hdst; lia|].
  rewrite (load_lookup _ _ _ Hold). simpl. unfold store.
  rewrite decide_True by (unfold filters_numel in Hdst; lia).
  exists o, c, k1, k2, old, vs. split_and!; [done | done | | | done].
  - rewrite <- Hi. by rewrite elem_lookup by lia.
  - rewrite Heq. unfold batch_column. apply list_fmap_ext.
    intros n b Hb. apply lookup_seqZ in Hb as [-> Hb]. f_equal.
    unfold off, sum_numel64.
    rewrite (transposed_numel64_exact op Hop) by (done || lia).
    apply (filters_tr_offset_exact op); [apply Hsh; lia | done].
Qed.

(** A launch of [sum_transposed_filters] in which no two threads share a
    flat index. *)
Lemma launch_sum (zero : A) (add : A → A → A) (filters_tr dst : list A) ts :
  filters_numel op <= SIZE_MAX →
  Z.of_nat (length filters_tr) = filters_tr_numel op →
  Z.of_nat (length dst) = filters_numel op →
  NoDup (thread_index <$> ts) →
  ∃ dst',
    launch (sum_transposed_filters zero add op filters_tr) ts dst = Ok dst' ∧
    length dst' = length dst ∧
    ∀ o c k1 k2,
      in_shape [(chan_out op, o); (chan_in op, c); (kernel op, k1);
                (kernel op, k2)] →
      ((∃ t, t ∈ ts ∧ thread_index t = filters_index op o c k1 k2) →
         ∃ old vs,
           elem dst (filters_index op o c k1 k2) = Some old
           ∧ Some <$> vs = batch_column op filters_tr c o k1 k2
           ∧ elem dst' (filters_index op o c k1 k2)
             = Some (add old (foldl add zero vs)))
      ∧ ((∀ t, t ∈ ts → thread_index t ≠ filters_index op o c k1 k2) →
           elem dst' (filters_index op o c k1 k2)
           = elem dst (filters_index op o c k1 k2)).
Proof.
  intros HfitN Hlen Hdst. unfold launch.
  induction ts as [|t ts IH] using rev_ind; intros Hnodup.
  { exists dst. split_and!; [done | done |].
    intros o c k1 k2 Hin. split; [|done].
    intros (t & Ht & _). by apply elem_of_nil in Ht. }
  rewrite fmap_app in Hnodup. apply NoDup_app in Hnodup as (Hnd & Hfresh & _).
  destruct (IH Hnd) as (dst1 & Hrun & Hlen1 & Hpost).
  rewrite for_each_snoc, Hrun. simpl.
  assert (t ∈ ts ++ [t]) as Htin
    by (apply elem_of_app; right; by apply list_elem_of_singleton).
  assert (∀ t', t' ∈ ts → thread_index t' ≠ thread_index t) as Hother.
  { intros t' Ht' Heq. apply (Hfresh (thread_index t')).
    - apply list_elem_of_fmap. eauto.
    - rewrite Heq. simpl. by left. }
  pose proof (thread_index_range t) as Hrange.
  destruct (sum_thread zero add filters_tr dst1 t) as
    [[Hge Ht] | (o0 & c0 & k10 & k20 & old & vs & Hin0 & Hi0 & Hold & Hvs & Ht)];
    [done | lia | |].
  - (* the thread returns at line 154 *)
    rewrite Ht. exists dst1. split_and!; [done | done |].
    intros o c k1 k2 Hin. destruct (Hpost o c k1 k2 Hin) as [Hp1 Hp2].
    assert (thread_index t ≠ filters_index op o c k1 k2) as Hne.
    { unfold sum_numel64 in Hge.
      rewrite (transposed_numel64_small op Hop) in Hge by done.
      pose proof (filters_index_range op _ _ _ _ Hin). lia. }
    split.
    + intros (t' & Ht' & Hi'). apply Hp1. exists t'. split; [|done].
      apply elem_of_app in Ht' as [Ht'|Ht']; [done|].
      apply list_elem_of_singleton in Ht' as ->. done.
    + intros Hno. apply Hp2. intros t' Ht'. apply Hno, elem_of_app. by left.
  - (* the thread adds its column *)
    rewrite Ht. eexists. split_and!; [done | rewrite length_insert; lia |].
    intros o c k1 k2 Hin. destruct (Hpost o c k1 k2 Hin) as [Hp1 Hp2].
    pose proof (filters_index_range op _ _ _ _ Hin) as Hir.
    destruct (decide (filters_index op o c k1 k2 = thread_index t)) as [Heq|Hne].
    + assert ([(chan_out op, o); (chan_in op, c); (kernel op, k1);
               (kernel op, k2)]
              = [(chan_out op, o0); (chan_in op, c0); (kernel op, k10);
                 (kernel op, k20)]) as Hco.
      { apply row_major_inj; [done | done | done |].
        unfold filters_index in *. congruence. }
      simplify_eq. split.
      * intros _. exists old, vs. split_and!; [|done|].
        -- rewrite <- Hold. symmetry. apply Hp2.
           intros t' Ht'. rewrite <- Hi0. by apply Hother.
        -- rewrite <- Hi0, elem_lookup by lia.
           apply list_lookup_insert_eq. unfold filters_numel in *. lia.
      * intros Hno. by destruct (Hno t Htin).
    + assert (elem (<[Z.to_nat (thread_index t) := add old (foldl add zero vs)]>
                      dst1) (filters_index op o c k1 k2)
              = elem dst1 (filters_index op o c k1 k2)) as Hsame.
      { rewrite !elem_lookup by lia. apply list_lookup_insert_ne. lia. }
      rewrite Hsame. split.
      * intros (t' & Ht' & Hi'). apply Hp1. exists t'. split; [|done].
        apply elem_of_app in Ht' as [Ht'|Ht']; [done|].
        apply list_elem_of_singleton in Ht' as ->. congruence.
      * intros Hno. apply Hp2. intros t' Ht'. apply Hno, elem_of_app. by left.
Qed.

End FilterLaunch.

(** ** Grids *)

Lemma elem_of_grid gridDim bd t :
  t ∈ grid gridDim bd ↔
  0 <= blockIdx t < gridDim ∧ blockDim t = bd ∧ 0 <= threadIdx t < bd.
Proof.
  unfold grid. rewrite list_elem_of_bind. split.
  - intros (bi & Ht & Hbi). apply list_elem_of_bind in Ht as (ti & Ht & Hti).
    apply list_elem_of_singleton in Ht as ->. simpl.
    apply elem_of_seqZ in Hbi, Hti. lia.
  - intros (Hbi & <- & Hti). exists (blockIdx t). split.
    + apply list_elem_of_bind. exists (threadIdx t). split.
      * destruct t. simpl. by apply list_elem_of_singleton.
      * apply elem_of_seqZ. lia.
    + apply elem_of_seqZ. lia.
Qed.

(** A grid of at most [2^32] threads covers the flat indices below its
    size. *)
Lemma grid_covers gridDim bd numel :
  0 < bd → numel <= gridDim * bd <= UINT_MAX + 1 →
  covers (grid gridDim bd) numel.
Proof.
  intros Hbd Hn i Hi. exists (MkThread (i / bd) bd (i mod bd)).
  pose proof (Z.mod_pos_bound i bd Hbd) as Hmod.
  pose proof (Z.div_mod i bd) as Hdm.
  assert (0 <= i / bd < gridDim) as Hdiv.
  { split; [apply Z.div_pos; lia|]. apply Z.div_lt_upper_bound; nia. }
  split.
  - apply elem_of_grid. simpl. lia.
  - rewrite thread_index_grid; [nia | lia | lia | nia].
Qed.

(** * The claims *)

Ltac size_t_fields_tac :=
  constructor; unfold is_size_t, SIZE_MAX; simpl; lia.

Lemma op_5x5_size_t : size_t_fields op_5x5.
Proof. size_t_fields_tac. Defined.

Lemma op_padded_size_t : size_t_fields op_padded.
Proof. size_t_fields_tac. Defined.

(** C6. For every geometry descriptor and every thread, whatever its
    index, a write of [unfold_input_into_patches] or of
    [unfold_output_into_patches] targets a flat index below the element count
    of the patches tensor it writes (the exact product of the six extents). *)
Theorem extractor_writes_in_bounds (op : Conv2DOp) (t : Thread) (dst src : Z) :
  size_t_fields op →
  (unfold_input_into_patches_indices op t = Ok (Some (dst, src)) →
     0 <= dst < patches_in_numel op)
  ∧ (unfold_output_into_patches_indices op t = Ok (Some (dst, src)) →
       0 <= dst < patches_out_numel op).
Proof.
  intros Hop. pose proof (thread_index_range t) as Hr. split; intros H.
  - apply (unfold_input_indices_inv op Hop) in H
      as (b & c & k1 & k2 & oh & ow & y & x & _ & -> & _ & Hlt & _).
    pose proof (patches_in_numel64_le op Hop). lia.
  - apply (unfold_output_indices_inv op Hop) in H
      as (b & o & k1 & k2 & y & x & oh & ow & _ & -> & _ & Hlt & _).
    pose proof (patches_out_numel64_le op Hop). lia.
Qed.

(** Thread 40 of the forward kernel and thread 231 of the backward kernel
    write in the padded geometry. *)
Lemma extractor_writes_in_bounds_witness :
  0 <= 40 < patches_in_numel op_padded ∧ 0 <= 231 < patches_out_numel op_padded.
Proof.
  split.
  - apply (proj1 (extractor_writes_in_bounds op_padded (MkThread 0 64 40) 40 12
                    op_padded_size_t)).
    reflexivity.
  - apply (proj2 (extractor_writes_in_bounds op_padded (MkThread 3 64 39) 231 13
                    op_padded_size_t)).
    reflexivity.
Defined.

(** C9. For every geometry descriptor, valid or not, and every thread, the
    source offset of a read of either extractor is below the exact element
    count of the tensor it reads: [batch * chan_in * h_in * w_in] for the
    image, [batch * chan_out * h_out * w_out] for the output tensor. *)
Theorem extractor_reads_in_bounds (op : Conv2DOp) (t : Thread) (dst src : Z) :
  size_t_fields op →
  (unfold_input_into_patches_indices op t = Ok (Some (dst, src)) →
     0 <= src < image_numel op)
  ∧ (unfold_output_into_patches_indices op t = Ok (Some (dst, src)) →
       0 <= src < image_out_numel op).
Proof.
  intros Hop. split; intros H.
  - apply (unfold_input_indices_inv op Hop) in H
      as (b & c & k1 & k2 & oh & ow & y & x & Hin & _ & _ & _ & Hy & Hx & ->).
    apply forward_tap_range in Hy, Hx. split_shape.
    apply image_offset_lt. in_shape_tac.
  - apply (unfold_output_indices_inv op Hop) in H
      as (b & o & k1 & k2 & y & x & oh & ow & Hin & _ & _ & _ & Hy & Hx & ->).
    apply (backward_tap_range op Hop) in Hy, Hx. split_shape.
    apply image_offset_lt. in_shape_tac.
Qed.

Lemma extractor_reads_in_bounds_witness :
  0 <= 12 < image_numel op_padded ∧ 0 <= 13 < image_out_numel op_padded.
Proof.
  split.
  - apply (proj1 (extractor_reads_in_bounds op_padded (MkThread 0 64 40) 40 12
                    op_padded_size_t)).
    reflexivity.
  - apply (proj2 (extractor_reads_in_bounds op_padded (MkThread 3 64 39) 231 13
                    op_padded_size_t)).
    reflexivity.
Defined.

Lemma mul_pos_factors a b : 0 <= a → 0 <= b → 0 < a * b → 0 < a ∧ 0 < b.
Proof. nia. Qed.

(** A patches tensor that is not empty has no empty axis. *)
Lemma patches_in_nonempty op :
  size_t_fields op → 0 < patches_in_numel op →
  0 < batch op ∧ 0 < chan_in op ∧ 0 < kernel op ∧ 0 < h_out op ∧ 0 < w_out op.
Proof.
  intros [] H. unfold is_size_t, patches_in_numel in *.
  apply mul_pos_factors in H as [H ?]; [|repeat apply Z.mul_nonneg_nonneg; lia|lia].
  apply mul_pos_factors in H as [H ?]; [|repeat apply Z.mul_nonneg_nonneg; lia|lia].
  apply mul_pos_factors in H as [H ?]; [|repeat apply Z.mul_nonneg_nonneg; lia|lia].
  apply mul_pos_factors in H as [H ?]; [|repeat apply Z.mul_nonneg_nonneg; lia|lia].
  apply mul_pos_factors in H as [H ?]; lia.
Qed.

(** C7. For every geometry with a padding, and a zero-initialized patches
    tensor of the declared size that is not empty, a launch of
    [unfold_input_into_patches] leaves at least one element exactly zero: no
    thread writes the element [(b, c, 0, 0, 0, 0)], whose source row
    underflows the padding, so it keeps its zero. *)
Theorem zero_fill_respected {A : Type} (zero : A) (op : Conv2DOp)
    (image patches : list A) (ts : list Thread) :
  size_t_fields op →
  0 < padding op →
  Z.of_nat (length image) = image_numel op →
  0 < patches_in_numel op →
  patches = replicate (Z.to_nat (patches_in_numel op)) zero →
  ∃ patches',
    launch (unfold_input_into_patches op image) ts patches = Ok patches'
    ∧ (∃ j, 0 <= j < patches_in_numel op ∧ elem patches' j = Some zero)
    ∧ ∀ b c, 0 <= b < batch op → 0 <= c < chan_in op →
        (∀ t, thread_index t = patches_in_index op b c 0 0 0 0 →
           unfold_input_into_patches_indices op t = Ok None)
        ∧ elem patches' (patches_in_index op b c 0 0 0 0) = Some zero.
Proof.
  intros Hop Hpad Himg Hne ->.
  destruct (patches_in_nonempty op Hop Hne) as (Hb & Hc & Hk & Hh & Hw).
  destruct (launch_unfold_input op Hop image
              (replicate (Z.to_nat (patches_in_numel op)) zero) ts)
    as (patches' & Hrun & Hlen & _ & Hfr); [done | |].
  { rewrite length_replicate. lia. }
  assert (∀ b c, 0 <= b < batch op → 0 <= c < chan_in op →
            (∀ t, thread_index t = patches_in_index op b c 0 0 0 0 →
               unfold_input_into_patches_indices op t = Ok None)
            ∧ elem patches' (patches_in_index op b c 0 0 0 0) = Some zero)
    as Hall.
  { intros b c Hbr Hcr.
    assert (in_shape [(batch op, b); (chan_in op, c); (kernel op, 0);
                      (kernel op, 0); (h_out op, 0); (w_out op, 0)]) as Hin
      by in_shape_tac.
    assert (∀ t, thread_index t = patches_in_index op b c 0 0 0 0 →
              unfold_input_into_patches_indices op t = Ok None) as Hskip.
    { intros t Ht.
      rewrite (unfold_input_indices_at op t b c 0 0 0 0 Hin Ht).
      rewrite forward_tap_padding by done. by destruct (_ <=? _). }
    split; [done|].
    rewrite Hfr by (intros t _; apply Hskip).
    pose proof (patches_in_index_range op _ _ _ _ _ _ Hin) as Hr.
    rewrite elem_lookup by lia. apply lookup_replicate_2. lia. }
  exists patches'. split_and!; [done | | done].
  exists (patches_in_index op 0 0 0 0 0 0). split.
  - apply patches_in_index_range. in_shape_tac.
  - apply Hall; lia.
Qed.

Lemma zero_fill_respected_witness :
  ∃ patches',
    launch (unfold_input_into_patches op_padded (seqZ 1 25)) (grid 1 128)
      (replicate 81 0) = Ok patches'
    ∧ (∃ j, 0 <= j < 81 ∧ elem patches' j = Some 0)
    ∧ ∀ b c, 0 <= b < 1 → 0 <= c < 1 →
        (∀ t, thread_index t = patches_in_index op_padded b c 0 0 0 0 →
           unfold_input_into_patches_indices op_padded t = Ok None)
        ∧ elem patches' (patches_in_index op_padded b c 0 0 0 0) = Some 0.
Proof.
  apply (zero_fill_respected 0 op_padded (seqZ 1 25) (replicate 81 0)
           (grid 1 128) op_padded_size_t);
    [reflexivity | reflexivity | reflexivity | reflexivity].
Defined.

Lemma op_overflow_size_t : size_t_fields op_overflow.
Proof. size_t_fields_tac. Qed.

Lemma op_batch_2_32_size_t : size_t_fields op_batch_2_32.
Proof. size_t_fields_tac. Qed.

Lemma op_chan_2_32_size_t : size_t_fields op_chan_2_32.
Proof. size_t_fields_tac. Qed.

Lemma op_overflow_valid : valid_geometry op_overflow.
Proof. unfold valid_geometry. split_and!; by vm_compute. Qed.

(** C1, amended. For every geometry descriptor and every coordinate
    [(b, c, k1, k2, oh, ow)] of the forward patches tensor such that
    [oh * stride + k1] and [ow * stride + k2] do not overflow a [size_t], with
    image and patches buffers of the declared sizes: the thread that owns the
    coordinate reaches the copy exactly when [y = oh * stride + k1 - padding]
    is in [[0, h_in)] and [x = ow * stride + k2 - padding] is in [[0, w_in)],
    and a launch that has such a thread sets the patches element to the image
    element [(b, c, y, x)] in that case and leaves it at its previous value
    otherwise. *)
Theorem unfold_input_into_patches_spec {A : Type} (op : Conv2DOp)
    (image patches : list A) (ts : list Thread) (b c k1 k2 oh ow : Z) :
  size_t_fields op →
  is_buffer image (image_numel op) →
  is_buffer patches (patches_in_numel op) →
  in_shape [(batch op, b); (chan_in op, c); (kernel op, k1); (kernel op, k2);
            (h_out op, oh); (w_out op, ow)] →
  oh * stride op + k1 <= SIZE_MAX →
  ow * stride op + k2 <= SIZE_MAX →
  (∃ t, t ∈ ts ∧ thread_index t = patches_in_index op b c k1 k2 oh ow) →
  let i := patches_in_index op b c k1 k2 oh ow in
  let y := oh * stride op + k1 - padding op in
  let x := ow * stride op + k2 - padding op in
  (∀ t, thread_index t = i →
     unfold_input_into_patches_indices op t =
       Ok (if decide (0 <= y < h_in op ∧ 0 <= x < w_in op)
           then Some (i, image_index op b c y x) else None))
  ∧ ∃ patches',
      launch (unfold_input_into_patches op image) ts patches = Ok patches'
      ∧ elem patches' i =
          if decide (0 <= y < h_in op ∧ 0 <= x < w_in op)
          then elem image (image_index op b c y x)
          else elem patches i.
Proof.
  intros Hop [Himg HimgN] [Hpat HpatN] Hin Hoh How (t0 & Ht0 & Hi0) i y x.
  pose proof (patches_in_index_range op _ _ _ _ _ _ Hin) as Hir. fold i in Hir.
  assert (∀ t, thread_index t = i →
     unfold_input_into_patches_indices op t =
       Ok (if decide (0 <= y < h_in op ∧ 0 <= x < w_in op)
           then Some (i, image_index op b c y x) else None)) as Hthread.
  { intros t Ht.
    rewrite (unfold_input_indices_at op t b c k1 k2 oh ow Hin Ht).
    rewrite (patches_in_numel64_exact op Hop HpatN).
    rewrite (proj2 (Z.leb_gt _ _)) by (rewrite Ht; lia).
    assert (0 <= oh ∧ 0 <= k1 ∧ 0 <= ow ∧ 0 <= k2) as (? & ? & ? & ?)
      by (split_shape; lia).
    rewrite !(forward_tap_exact op Hop) by done. fold y x.
    destruct (decide (0 <= y < h_in op)) as [Hy|Hy].
    2:{ rewrite decide_False by tauto. done. }
    destruct (decide (0 <= x < w_in op)) as [Hx|Hx].
    2:{ rewrite decide_False by tauto. done. }
    rewrite decide_True by done. rewrite Ht. do 3 f_equal.
    apply image_offset_exact; [split_shape; in_shape_tac|].
    unfold image_numel in HimgN. lia. }
  split; [done|].
  destruct (launch_unfold_input op Hop image patches ts Himg Hpat)
    as (patches' & Hrun & _ & Hwr & Hfr).
  exists patches'. split; [done|].
  specialize (Hthread t0 Hi0). case_decide as Hyx.
  - rewrite (Hwr t0 i _ Ht0 Hthread). symmetry. apply elem_lookup.
    destruct Hyx. split_shape.
    assert (in_shape [(batch op, b); (chan_in op, c); (h_in op, y);
                      (w_in op, x)]) as Hs by in_shape_tac.
    pose proof (row_major_range _ Hs). unfold image_index. lia.
  - apply Hfr. intros t _ Ht.
    rewrite (unfold_input_indices_same op t t0) by (by rewrite Ht, Hi0).
    done.
Qed.

Lemma op_5x5_buffers :
  is_buffer (seqZ 0 25) (image_numel op_5x5)
  ∧ is_buffer (replicate 81 (-1)) (patches_in_numel op_5x5).
Proof. by vm_compute. Qed.

(** Patches element [(0, 0, 2, 2, 2, 2)] of the 5x5 example is image
    element [(0, 0, 4, 4)]. *)
Lemma unfold_input_into_patches_spec_witness :
  ∃ patches',
    launch (unfold_input_into_patches op_5x5 (seqZ 0 25)) (grid 1 128)
      (replicate 81 (-1)) = Ok patches'
    ∧ elem patches' (patches_in_index op_5x5 0 0 2 2 2 2)
      = elem (seqZ 0 25) (image_index op_5x5 0 0 4 4).
Proof.
  destruct (unfold_input_into_patches_spec op_5x5 (seqZ 0 25)
              (replicate 81 (-1)) (grid 1 128) 0 0 2 2 2 2)
    as [_ (patches' & Hrun & Helem)].
  - exact op_5x5_size_t.
  - exact (proj1 op_5x5_buffers).
  - exact (proj2 op_5x5_buffers).
  - in_shape_tac.
  - by vm_compute.
  - by vm_compute.
  - exists (MkThread 0 128 80). split; [apply elem_of_grid; simpl; lia | reflexivity].
  - exists patches'. split; [exact Hrun | exact Helem].
Defined.

(** No thread has a flat index of [2^32] or more. *)
Lemma thread_index_below t j : UINT_MAX < j → thread_index t ≠ j.
Proof. intros Hj Ht. pose proof (thread_index_range t). lia. Qed.

(** In the valid geometry [op_overflow] the row [3 * stride + 1 - padding]
    of coordinate [(0, 0, 1, 1, 3, 3)] is [2^64], outside the 2x2 image, yet
    the launch overwrites that patches element with image element 0: the
    product [3 * stride + 1] wraps to [2^64 - 1]. In [op_batch_2_32] the
    source position of coordinate [(2^32, 0, 0, 0, 0, 0)] is inside the image,
    yet no launch writes that patches element: its flat index [2^32] is not
    an [unsigned int]. *)
Lemma unfold_input_into_patches_counterexample :
  let op := op_overflow in
  let y := 3 * stride op + 1 - padding op in
  let op' := op_batch_2_32 in
  size_t_fields op ∧ valid_geometry op
  ∧ is_buffer [1; 2; 3; 4] (image_numel op)
  ∧ is_buffer (replicate 64 0) (patches_in_numel op)
  ∧ in_shape [(batch op, 0); (chan_in op, 0); (kernel op, 1); (kernel op, 1);
              (h_out op, 3); (w_out op, 3)]
  ∧ patches_in_index op 0 0 1 1 3 3 = 63
  ∧ ¬ (0 <= y < h_in op)
  ∧ elem (replicate 64 0) 63 = Some 0
  ∧ (∃ patches',
       launch (unfold_input_into_patches op [1; 2; 3; 4]) (grid 1 64)
         (replicate 64 0) = Ok patches'
       ∧ elem patches' 63 = Some 1)
  ∧ size_t_fields op' ∧ valid_geometry op'
  ∧ in_shape [(batch op', 2 ^ 32); (chan_in op', 0); (kernel op', 0);
              (kernel op', 0); (h_out op', 0); (w_out op', 0)]
  ∧ patches_in_index op' (2 ^ 32) 0 0 0 0 0 = 2 ^ 32
  ∧ 0 <= 0 * stride op' + 0 - padding op' < h_in op'
  ∧ 0 <= 0 * stride op' + 0 - padding op' < w_in op'
  ∧ ∀ (image patches : list Z) ts,
      is_buffer image (image_numel op') →
      is_buffer patches (patches_in_numel op') →
      ∃ patches',
        launch (unfold_input_into_patches op' image) ts patches = Ok patches'
        ∧ elem patches' (2 ^ 32) = elem patches (2 ^ 32).
Proof.
  split_and!.
  - exact op_overflow_size_t.
  - exact op_overflow_valid.
  - by vm_compute.
  - by vm_compute.
  - in_shape_tac.
  - reflexivity.
  - vm_compute. intros [_ H]. discriminate H.
  - reflexivity.
  - eexists. split; [by vm_compute | reflexivity].
  - exact op_batch_2_32_size_t.
  - unfold valid_geometry. split_and!; by vm_compute.
  - in_shape_tac.
  - reflexivity.
  - by vm_compute.
  - by vm_compute.
  - by vm_compute.
  - by vm_compute.
  - intros image patches ts [Himg _] [Hpat _].
    destruct (launch_unfold_input op_batch_2_32 op_batch_2_32_size_t image
                patches ts Himg Hpat) as (patches' & Hrun & _ & _ & Hfr).
    exists patches'. split; [done|]. apply Hfr.
    intros t _ Ht. by apply thread_index_below in Ht.
Qed.

(** C2, amended. For every geometry descriptor with a stride that is not
    zero and every coordinate [(b, o, k1, k2, y, x)] of the backward patches
    tensor such that [y + padding] and [x + padding] do not overflow a
    [size_t], with output and patches buffers of the declared sizes: the
    thread that owns the coordinate reaches the copy if and only if the three
    guards hold along both axes ([y + padding >= k1], [y + padding - k1]
    exactly divisible by the stride, quotient [oh] below [h_out], and the same
    for [x], [k2], [w_out]); a launch that has such a thread then sets the
    patches element to the output element [(b, o, oh, ow)], and leaves it at
    its previous value when a guard fails. *)
Theorem unfold_output_into_patches_spec {A : Type} (op : Conv2DOp)
    (image_out patches : list A) (ts : list Thread) (b o k1 k2 y x : Z) :
  size_t_fields op →
  0 < stride op →
  is_buffer image_out (image_out_numel op) →
  is_buffer patches (patches_out_numel op) →
  in_shape [(batch op, b); (chan_out op, o); (kernel op, k1); (kernel op, k2);
            (h_in op, y); (w_in op, x)] →
  y + padding op <= SIZE_MAX →
  x + padding op <= SIZE_MAX →
  (∃ t, t ∈ ts ∧ thread_index t = patches_out_index op b o k1 k2 y x) →
  let i := patches_out_index op b o k1 k2 y x in
  let oh := (y + padding op - k1) / stride op in
  let ow := (x + padding op - k2) / stride op in
  (∀ t, thread_index t = i →
     unfold_output_into_patches_indices op t =
       Ok (if decide (backward_guard op y k1 (h_out op)
                      ∧ backward_guard op x k2 (w_out op))
           then Some (i, image_out_index op b o oh ow) else None))
  ∧ ∃ patches',
      launch (unfold_output_into_patches op image_out) ts patches = Ok patches'
      ∧ elem patches' i =
          if decide (backward_guard op y k1 (h_out op)
                     ∧ backward_guard op x k2 (w_out op))
          then elem image_out (image_out_index op b o oh ow)
          else elem patches i.
Proof.
  intros Hop Hs [Himg HimgN] [Hpat HpatN] Hin Hy Hx (t0 & Ht0 & Hi0) i oh ow.
  pose proof (patches_out_index_range op _ _ _ _ _ _ Hin) as Hir. fold i in Hir.
  assert (0 <= y ∧ 0 <= k1 ∧ 0 <= x ∧ 0 <= k2 ∧ 0 <= b < batch op
          ∧ 0 <= o < chan_out op) as (? & ? & ? & ? & ? & ?)
    by (split_shape; lia).
  assert (∀ t, thread_index t = i →
     unfold_output_into_patches_indices op t =
       Ok (if decide (backward_guard op y k1 (h_out op)
                      ∧ backward_guard op x k2 (w_out op))
           then Some (i, image_out_index op b o oh ow) else None)) as Hthread.
  { intros t Ht.
    rewrite (unfold_output_indices_at op t b o k1 k2 y x Hin Ht).
    rewrite (patches_out_numel64_exact op Hop HpatN).
    rewrite (proj2 (Z.leb_gt _ _)) by (rewrite Ht; lia).
    rewrite !(backward_tap_exact op Hop) by done. fold oh ow. simpl.
    destruct (decide (backward_guard op y k1 (h_out op))) as [Hgy|Hgy]; simpl.
    2:{ rewrite decide_False by tauto. done. }
    destruct (decide (backward_guard op x k2 (w_out op))) as [Hgx|Hgx]; simpl.
    2:{ rewrite decide_False by tauto. done. }
    rewrite decide_True by done. rewrite Ht. do 3 f_equal.
    destruct Hgy as (? & ? & ?), Hgx as (? & ? & ?).
    apply image_offset_exact; [|unfold image_out_numel in HimgN; lia].
    assert (0 <= oh ∧ 0 <= ow) as [? ?]
      by (split; apply Z.div_pos; lia).
    in_shape_tac. }
  split; [done|].
  destruct (launch_unfold_output op Hop image_out patches ts) as
    (patches' & Hrun & _ & Hwr & Hfr); [lia | done | done |].
  exists patches'. split; [done|].
  specialize (Hthread t0 Hi0). case_decide as Hg.
  - rewrite (Hwr t0 i _ Ht0 Hthread). symmetry. apply elem_lookup.
    destruct Hg as [(? & ? & ?) (? & ? & ?)].
    assert (0 <= oh ∧ 0 <= ow) as [? ?]
      by (split; apply Z.div_pos; lia).
    assert (in_shape [(batch op, b); (chan_out op, o); (h_out op, oh);
                      (w_out op, ow)]) as Hsh by in_shape_tac.
    pose proof (row_major_range _ Hsh). unfold image_out_index. lia.
  - apply Hfr. intros t _ Ht.
    rewrite (unfold_output_indices_same op t t0) by (by rewrite Ht, Hi0).
    done.
Qed.

Lemma op_padded_out_buffers :
  is_buffer (seqZ 100 18) (image_out_numel op_padded)
  ∧ is_buffer (replicate 450 (-1)) (patches_out_numel op_padded).
Proof. by vm_compute. Qed.

(** In the padded geometry, patches element [(0, 1, 0, 1, 1, 4)] is output
    element [(0, 1, 1, 2)], and element [(0, 1, 0, 1, 1, 3)], whose tap is
    not aligned with the stride, is not written. *)
Lemma unfold_output_into_patches_spec_witness :
  ∃ patches',
    launch (unfold_output_into_patches op_padded (seqZ 100 18)) (grid 4 128)
      (replicate 450 (-1)) = Ok patches'
    ∧ elem patches' (patches_out_index op_padded 0 1 0 1 1 4)
      = elem (seqZ 100 18) (image_out_index op_padded 0 1 1 2)
    ∧ elem patches' (patches_out_index op_padded 0 1 0 1 1 3) = Some (-1).
Proof.
  destruct (unfold_output_into_patches_spec op_padded (seqZ 100 18)
              (replicate 450 (-1)) (grid 4 128) 0 1 0 1 1 4)
    as [_ (patches' & Hrun & Helem)].
  - exact op_padded_size_t.
  - reflexivity.
  - exact (proj1 op_padded_out_buffers).
  - exact (proj2 op_padded_out_buffers).
  - in_shape_tac.
  - by vm_compute.
  - by vm_compute.
  - exists (MkThread 2 128 3). split; [apply elem_of_grid; simpl; lia | reflexivity].
  - destruct (unfold_output_into_patches_spec op_padded (seqZ 100 18)
                (replicate 450 (-1)) (grid 4 128) 0 1 0 1 1 3)
      as [_ (patches'' & Hrun' & Helem')].
    + exact op_padded_size_t.
    + reflexivity.
    + exact (proj1 op_padded_out_buffers).
    + exact (proj2 op_padded_out_buffers).
    + in_shape_tac.
    + by vm_compute.
    + by vm_compute.
    + exists (MkThread 2 128 2). split; [apply elem_of_grid; simpl; lia | reflexivity].
    + exists patches'. split; [exact Hrun|]. split; [exact Helem|].
      rewrite Hrun in Hrun'. injection Hrun' as <-. exact Helem'.
Defined.

(** In the valid geometry [op_overflow], [y + padding - k1] is [2^64] at
    coordinate [(0, 0, 0, 0, 1, 1)], which the stride does not divide: a
    guard fails, yet the launch overwrites the element with output element 0,
    because [y + padding] wraps to zero. With a stride of zero the modulo of
    line 92 is undefined. In [op_batch_2_32] all guards hold at coordinate
    [(2^32, 0, 0, 0, 0, 0)], yet no launch writes that patches element: its
    flat index [2^32] is not an [unsigned int]. *)
Lemma unfold_output_into_patches_counterexample :
  let op := op_overflow in
  let op' := op_batch_2_32 in
  size_t_fields op ∧ valid_geometry op
  ∧ is_buffer (seqZ 1 16) (image_out_numel op)
  ∧ is_buffer (replicate 16 0) (patches_out_numel op)
  ∧ in_shape [(batch op, 0); (chan_out op, 0); (kernel op, 0); (kernel op, 0);
              (h_in op, 1); (w_in op, 1)]
  ∧ patches_out_index op 0 0 0 0 1 1 = 3
  ∧ ¬ backward_guard op 1 0 (h_out op)
  ∧ elem (replicate 16 0) 3 = Some 0
  ∧ (∃ patches',
       launch (unfold_output_into_patches op (seqZ 1 16)) (grid 1 16)
         (replicate 16 0) = Ok patches'
       ∧ elem patches' 3 = Some 1)
  ∧ size_t_fields op_stride_0
  ∧ unfold_output_into_patches_indices op_stride_0 (MkThread 0 1 0) = Undefined
  ∧ size_t_fields op' ∧ valid_geometry op'
  ∧ in_shape [(batch op', 2 ^ 32); (chan_out op', 0); (kernel op', 0);
              (kernel op', 0); (h_in op', 0); (w_in op', 0)]
  ∧ patches_out_index op' (2 ^ 32) 0 0 0 0 0 = 2 ^ 32
  ∧ backward_guard op' 0 0 (h_out op')
  ∧ backward_guard op' 0 0 (w_out op')
  ∧ ∀ (image_out patches : list Z) ts,
      is_buffer image_out (image_out_numel op') →
      is_buffer patches (patches_out_numel op') →
      ∃ patches',
        launch (unfold_output_into_patches op' image_out) ts patches
        = Ok patches'
        ∧ elem patches' (2 ^ 32) = elem patches (2 ^ 32).
Proof.
  split_and!.
  - exact op_overflow_size_t.
  - exact op_overflow_valid.
  - by vm_compute.
  - by vm_compute.
  - in_shape_tac.
  - reflexivity.
  - intros (_ & H & _). vm_compute in H. discriminate H.
  - reflexivity.
  - eexists. split; [by vm_compute | reflexivity].
  - size_t_fields_tac.
  - reflexivity.
  - exact op_batch_2_32_size_t.
  - unfold valid_geometry. split_and!; by vm_compute.
  - in_shape_tac.
  - reflexivity.
  - unfold backward_guard. split_and!; by vm_compute.
  - unfold backward_guard. split_and!; by vm_compute.
  - intros image_out patches ts [Himg _] [Hpat _].
    destruct (launch_unfold_output op_batch_2_32 op_batch_2_32_size_t image_out
                patches ts) as (patches' & Hrun & _ & _ & Hfr);
      [by vm_compute | done | done |].
    exists patches'. split; [done|]. apply Hfr.
    intros t _ Ht. by apply thread_index_below in Ht.
Qed.

(** C3, amended. For every valid geometry and every coordinate
    [(b, c, k1, k2, oh, ow)] at which the forward extractor writes, provided
    [oh * stride + k1] and [ow * stride + k2] do not overflow a [size_t]: the
    source position [y = oh * stride + k1 - padding],
    [x = ow * stride + k2 - padding] lies in the image, and the guard logic of
    the backward extractor at [(y, k1)] and [(x, k2)] passes all its guards
    and solves exactly [(oh, ow)]. *)
Theorem unfold_duality (op : Conv2DOp) (t : Thread) (dst src : Z)
    (b c k1 k2 oh ow : Z) :
  size_t_fields op →
  valid_geometry op →
  in_shape [(batch op, b); (chan_in op, c); (kernel op, k1); (kernel op, k2);
            (h_out op, oh); (w_out op, ow)] →
  thread_index t = patches_in_index op b c k1 k2 oh ow →
  oh * stride op + k1 <= SIZE_MAX →
  ow * stride op + k2 <= SIZE_MAX →
  unfold_input_into_patches_indices op t = Ok (Some (dst, src)) →
  let y := oh * stride op + k1 - padding op in
  let x := ow * stride op + k2 - padding op in
  (0 <= y < h_in op ∧ 0 <= x < w_in op)
  ∧ backward_guard op y k1 (h_out op)
  ∧ backward_guard op x k2 (w_out op)
  ∧ backward_tap op y k1 (h_out op) = Ok (Some oh)
  ∧ backward_tap op x k2 (w_out op) = Ok (Some ow).
Proof.
  intros Hop (Hs & _) Hin Hi Hoh How Hwrite y x.
  rewrite (unfold_input_indices_at op t b c k1 k2 oh ow Hin Hi) in Hwrite.
  destruct (_ <=? _); [done|].
  assert (0 <= oh < h_out op ∧ 0 <= k1 ∧ 0 <= ow < w_out op ∧ 0 <= k2)
    as (? & ? & ? & ?) by (split_shape; lia).
  rewrite !(forward_tap_exact op Hop) in Hwrite by lia. fold y x in Hwrite.
  destruct (decide (0 <= y < h_in op)) as [Hy|]; [|done].
  destruct (decide (0 <= x < w_in op)) as [Hx|]; [|done].
  assert (backward_guard op y k1 (h_out op)) as Hgy.
  { unfold backward_guard, y.
    replace (oh * stride op + k1 - padding op + padding op - k1)
      with (oh * stride op) by ring.
    rewrite Z.mod_mul, Z.div_mul by lia. nia. }
  assert (backward_guard op x k2 (w_out op)) as Hgx.
  { unfold backward_guard, x.
    replace (ow * stride op + k2 - padding op + padding op - k2)
      with (ow * stride op) by ring.
    rewrite Z.mod_mul, Z.div_mul by lia. nia. }
  split; [done|]. split; [done|]. split; [done|]. split.
  - rewrite (backward_tap_exact op Hop) by (unfold y; lia).
    rewrite decide_True by done. do 2 f_equal. unfold y.
    replace (oh * stride op + k1 - padding op + padding op - k1)
      with (oh * stride op) by ring.
    apply Z.div_mul. lia.
  - rewrite (backward_tap_exact op Hop) by (unfold x; lia).
    rewrite decide_True by done. do 2 f_equal. unfold x.
    replace (ow * stride op + k2 - padding op + padding op - k2)
      with (ow * stride op) by ring.
    apply Z.div_mul. lia.
Qed.

Lemma op_padded_valid : valid_geometry op_padded.
Proof. unfold valid_geometry. split_and!; by vm_compute. Qed.

(** The forward thread of coordinate [(0, 0, 1, 1, 1, 1)] of the padded
    geometry reads image position [(2, 2)], and the backward guards at
    [(2, 1)] solve the window [(1, 1)] again. *)
Lemma unfold_duality_witness :
  backward_tap op_padded 2 1 (h_out op_padded) = Ok (Some 1)
  ∧ backward_tap op_padded 2 1 (w_out op_padded) = Ok (Some 1).
Proof.
  destruct (unfold_duality op_padded (MkThread 0 64 40) 40 12 0 0 1 1 1 1)
    as (_ & _ & _ & Hy & Hx).
  - exact op_padded_size_t.
  - exact op_padded_valid.
  - in_shape_tac.
  - reflexivity.
  - by vm_compute.
  - by vm_compute.
  - reflexivity.
  - split; [exact Hy | exact Hx].
Defined.

(** In the valid geometry [op_overflow] the forward thread of coordinate
    [(0, 0, 1, 1, 3, 3)] writes, reading row 0 of the image, because
    [3 * stride + 1] wraps; the backward guards recover no window from that
    row, nor from the exact value [2^64] of [3 * stride + 1 - padding]. *)
Lemma unfold_duality_counterexample :
  let op := op_overflow in
  size_t_fields op ∧ valid_geometry op
  ∧ in_shape [(batch op, 0); (chan_in op, 0); (kernel op, 1); (kernel op, 1);
              (h_out op, 3); (w_out op, 3)]
  ∧ thread_index (MkThread 0 64 63) = patches_in_index op 0 0 1 1 3 3
  ∧ unfold_input_into_patches_indices op (MkThread 0 64 63) = Ok (Some (63, 0))
  ∧ forward_tap op 3 1 (h_in op) = Some 0
  ∧ backward_tap op 0 1 (h_out op) = Ok None
  ∧ 3 * stride op + 1 - padding op = 2 ^ 64
  ∧ backward_tap op (2 ^ 64) 1 (h_out op) = Ok None.
Proof.
  split_and!; try reflexivity.
  - exact op_overflow_size_t.
  - exact op_overflow_valid.
  - in_shape_tac.
Qed.

Lemma op_filters_size_t : size_t_fields op_filters.
Proof. size_t_fields_tac. Defined.

(** C4, amended. For every geometry descriptor whose batch count is at
    most [INT_MAX], and every filter tensor, with buffers of the declared
    sizes: after a launch of [transpose_and_broadcast_filters] that has a
    thread for every flat index of the filter tensor,
    [result[b][c][o][k1][k2] = filter[o][c][k1][k2]] for all indices, hence
    any two batch slices of the result are equal. *)
Theorem transpose_and_broadcast_filters_spec {A : Type} (op : Conv2DOp)
    (filters filters_tr : list A) (ts : list Thread) :
  size_t_fields op →
  batch op <= INT_MAX →
  is_buffer filters (filters_numel op) →
  is_buffer filters_tr (filters_tr_numel op) →
  covers ts (filters_numel op) →
  ∃ filters_tr',
    launch (transpose_and_broadcast_filters op filters) ts filters_tr
    = Ok filters_tr'
    ∧ (∀ b c o k1 k2,
         in_shape [(batch op, b); (chan_in op, c); (chan_out op, o);
                   (kernel op, k1); (kernel op, k2)] →
         elem filters_tr' (filters_tr_index op b c o k1 k2)
         = elem filters (filters_index op o c k1 k2))
    ∧ (∀ b1 b2 c o k1 k2,
         in_shape [(batch op, b1); (chan_in op, c); (chan_out op, o);
                   (kernel op, k1); (kernel op, k2)] →
         0 <= b2 < batch op →
         elem filters_tr' (filters_tr_index op b1 c o k1 k2)
         = elem filters_tr' (filters_tr_index op b2 c o k1 k2)).
Proof.
  intros Hop Hbatch [Hlen _] [Hdst Hfit] Hcov.
  destruct (launch_transpose op Hop Hbatch Hfit filters filters_tr ts Hlen Hdst)
    as (filters_tr' & Hrun & _ & Hpost).
  assert (∀ b c o k1 k2,
            in_shape [(batch op, b); (chan_in op, c); (chan_out op, o);
                      (kernel op, k1); (kernel op, k2)] →
            elem filters_tr' (filters_tr_index op b c o k1 k2)
            = elem filters (filters_index op o c k1 k2)) as Hall.
  { intros b c o k1 k2 Hin. apply (Hpost b c o k1 k2 Hin).
    apply Hcov. apply filters_index_range. split_shape. in_shape_tac. }
  exists filters_tr'. split_and!; [done | done |].
  intros b1 b2 c o k1 k2 Hin Hb2. rewrite !Hall; [done | | done].
  split_shape. in_shape_tac.
Qed.

Lemma op_filters_buffers :
  is_buffer (seqZ 0 24) (filters_numel op_filters)
  ∧ is_buffer (replicate 72 (-1)) (filters_tr_numel op_filters)
  ∧ is_buffer (seqZ 0 72) (filters_tr_numel op_filters)
  ∧ is_buffer (replicate 24 1000) (filters_numel op_filters).
Proof. by vm_compute. Qed.

(** Element [(2, 1, 2, 0, 1)] of the broadcast tensor is filter element
    [(2, 1, 0, 1)]. *)
Lemma transpose_and_broadcast_filters_spec_witness :
  ∃ filters_tr',
    launch (transpose_and_broadcast_filters op_filters (seqZ 0 24)) (grid 1 32)
      (replicate 72 (-1)) = Ok filters_tr'
    ∧ elem filters_tr' (filters_tr_index op_filters 2 1 2 0 1)
      = elem (seqZ 0 24) (filters_index op_filters 2 1 0 1).
Proof.
  destruct (transpose_and_broadcast_filters_spec op_filters (seqZ 0 24)
              (replicate 72 (-1)) (grid 1 32))
    as (filters_tr' & Hrun & Hall & _).
  - exact op_filters_size_t.
  - by vm_compute.
  - exact (proj1 op_filters_buffers).
  - exact (proj1 (proj2 op_filters_buffers)).
  - apply grid_covers; by vm_compute.
  - exists filters_tr'. split; [exact Hrun|]. apply Hall. in_shape_tac.
Defined.

(** With [2^31] batches the loop counter of line 141 overflows: the
    behaviour of the thread is undefined whatever the destination. In
    [op_chan_2_32], filter element [(2^32, 0, 0, 0)] has no thread, its flat
    index not being an [unsigned int]: every launch leaves element
    [(0, 0, 2^32, 0, 0)] of the destination as it was. *)
Lemma transpose_and_broadcast_filters_counterexample :
  let op := op_batch_2_31 in
  let op' := op_chan_2_32 in
  size_t_fields op
  ∧ filters_tr_numel op = 2 ^ 31
  ∧ is_buffer [7] (filters_numel op)
  ∧ covers (grid 1 1) (filters_numel op)
  ∧ (∀ filters_tr : list Z,
       launch (transpose_and_broadcast_filters op [7]) (grid 1 1) filters_tr
       = Undefined)
  ∧ size_t_fields op'
  ∧ in_shape [(batch op', 0); (chan_in op', 0); (chan_out op', 2 ^ 32);
              (kernel op', 0); (kernel op', 0)]
  ∧ filters_index op' (2 ^ 32) 0 0 0 = 2 ^ 32
  ∧ filters_tr_index op' 0 0 (2 ^ 32) 0 0 = 2 ^ 32
  ∧ ∀ (filters filters_tr : list Z) ts,
      is_buffer filters (filters_numel op') →
      is_buffer filters_tr (filters_tr_numel op') →
      ∃ filters_tr',
        launch (transpose_and_broadcast_filters op' filters) ts filters_tr
        = Ok filters_tr'
        ∧ elem filters_tr' (2 ^ 32) = elem filters_tr (2 ^ 32).
Proof.
  split_and!.
  - size_t_fields_tac.
  - reflexivity.
  - by vm_compute.
  - apply grid_covers; by vm_compute.
  - intros filters_tr. change (grid 1 1) with [MkThread 0 1 0].
    unfold launch. cbn [for_each]. unfold transpose_and_broadcast_filters.
    change (transposed_indices op_batch_2_31 (chan_in op_batch_2_31)
              (chan_out op_batch_2_31) (MkThread 0 1 0))
      with (Ok (Some (0, 1, 0)) : result (option (Z * Z * Z))).
    cbn [mbind result_bind]. change (load [7] 0) with (Ok 7).
    cbn [mbind result_bind].
    by rewrite for_int_overflow by (by vm_compute).
  - exact op_chan_2_32_size_t.
  - in_shape_tac.
  - reflexivity.
  - reflexivity.
  - intros filters filters_tr ts [Hlen _] [Hdst Hfit].
    assert (batch op_chan_2_32 <= INT_MAX) as Hbatch by (by vm_compute).
    destruct (launch_transpose op_chan_2_32 op_chan_2_32_size_t Hbatch Hfit
                filters filters_tr ts Hlen Hdst)
      as (filters_tr' & Hrun & _ & Hpost).
    exists filters_tr'. split; [done|].
    apply (Hpost 0 0 (2 ^ 32) 0 0); [in_shape_tac|].
    intros t _. by apply thread_index_below.
Qed.

(** C5, amended. For every geometry descriptor whose batch count is at
    most [INT_MAX], with buffers of the declared sizes, and a launch of
    [sum_transposed_filters] whose threads have distinct flat indices: the
    element [(o, c, k1, k2)] of the destination that has a thread becomes its
    prior value plus the sum, taken from zero in the order of [b], of
    [source[b][c][o][k1][k2]] over the batch; a second launch adds the sum of
    its own source to that result, so invocations accumulate. *)
Theorem sum_transposed_filters_spec {A : Type} (zero : A) (add : A → A → A)
    (op : Conv2DOp) (filters_tr filters_tr2 filters : list A)
    (ts : list Thread) (o c k1 k2 : Z) :
  size_t_fields op →
  batch op <= INT_MAX →
  is_buffer filters_tr (filters_tr_numel op) →
  is_buffer filters_tr2 (filters_tr_numel op) →
  is_buffer filters (filters_numel op) →
  NoDup (thread_index <$> ts) →
  in_shape [(chan_out op, o); (chan_in op, c); (kernel op, k1); (kernel op, k2)] →
  (∃ t, t ∈ ts ∧ thread_index t = filters_index op o c k1 k2) →
  ∃ filters' filters'' old vs vs2,
    launch (sum_transposed_filters zero add op filters_tr) ts filters
    = Ok filters'
    ∧ elem filters (filters_index op o c k1 k2) = Some old
    ∧ Some <$> vs = batch_column op filters_tr c o k1 k2
    ∧ elem filters' (filters_index op o c k1 k2)
      = Some (add old (foldl add zero vs))
    ∧ launch (sum_transposed_filters zero add op filters_tr2) ts filters'
      = Ok filters''
    ∧ Some <$> vs2 = batch_column op filters_tr2 c o k1 k2
    ∧ elem filters'' (filters_index op o c k1 k2)
      = Some (add (add old (foldl add zero vs)) (foldl add zero vs2)).
Proof.
  intros Hop Hbatch [Hlen Hfit] [Hlen2 _] [Hdst HfitN] Hnodup Hin Ht.
  destruct (launch_sum op Hop Hbatch Hfit zero add filters_tr filters ts)
    as (filters' & Hrun & Hlen' & Hpost); [done..|].
  destruct (proj1 (Hpost o c k1 k2 Hin) Ht) as (old & vs & Hold & Hvs & Hnew).
  destruct (launch_sum op Hop Hbatch Hfit zero add filters_tr2 filters' ts)
    as (filters'' & Hrun2 & _ & Hpost2); [done | done | lia | done |].
  destruct (proj1 (Hpost2 o c k1 k2 Hin) Ht)
    as (old2 & vs2 & Hold2 & Hvs2 & Hnew2).
  rewrite Hnew in Hold2. injection Hold2 as <-.
  exists filters', filters'', old, vs, vs2. split_and!; done.
Qed.

(** Element [(1, 0, 1, 0)] of a destination filled with 1000, after one
    launch on the source [0 .. 71]: the three batch slices hold 6, 30 and 54
    there. *)
Lemma sum_transposed_filters_spec_witness :
  ∃ filters',
    launch (sum_transposed_filters 0 Z.add op_filters (seqZ 0 72)) (grid 1 32)
      (replicate 24 1000) = Ok filters'
    ∧ elem filters' (filters_index op_filters 1 0 1 0)
      = Some (1000 + (0 + 6 + 30 + 54)).
Proof.
  destruct (sum_transposed_filters_spec 0 Z.add op_filters (seqZ 0 72)
              (seqZ 0 72) (replicate 24 1000) (grid 1 32) 1 0 1 0)
    as (filters' & _ & old & vs & _ & Hrun & Hold & Hvs & Hnew & _).
  - exact op_filters_size_t.
  - by vm_compute.
  - exact (proj1 (proj2 (proj2 op_filters_buffers))).
  - exact (proj1 (proj2 (proj2 op_filters_buffers))).
  - exact (proj2 (proj2 (proj2 op_filters_buffers))).
  - apply (bool_decide_unpack _). by vm_compute.
  - in_shape_tac.
  - exists (MkThread 0 32 10). split; [apply elem_of_grid; simpl; lia | reflexivity].
  - exists filters'. split; [exact Hrun|]. rewrite Hnew.
    assert (old = 1000) as -> by (vm_compute in Hold; congruence).
    assert (vs = [6; 30; 54]) as ->
      by (apply (inj (fmap Some)); rewrite Hvs; reflexivity).
    reflexivity.
Defined.

(** With [2^31] batches the loop counter of line 170 overflows: the
    behaviour of the thread is undefined whatever the buffers. In
    [op_chan_2_32], destination element [(2^32, 0, 0, 0)] has no thread, its
    flat index not being an [unsigned int]: every launch leaves it as it
    was, whatever the source holds. *)
Lemma sum_transposed_filters_counterexample :
  let op := op_batch_2_31 in
  let op' := op_chan_2_32 in
  size_t_fields op
  ∧ filters_numel op = 1
  ∧ NoDup (thread_index <$> grid 1 1)
  ∧ in_shape [(chan_out op, 0); (chan_in op, 0); (kernel op, 0); (kernel op, 0)]
  ∧ (∃ t, t ∈ grid 1 1 ∧ thread_index t = filters_index op 0 0 0 0)
  ∧ (∀ filters_tr filters : list Z,
       launch (sum_transposed_filters 0 Z.add op filters_tr) (grid 1 1) filters
       = Undefined)
  ∧ size_t_fields op'
  ∧ in_shape [(chan_out op', 2 ^ 32); (chan_in op', 0); (kernel op', 0);
              (kernel op', 0)]
  ∧ filters_index op' (2 ^ 32) 0 0 0 = 2 ^ 32
  ∧ ∀ (filters_tr filters : list Z) ts,
      is_buffer filters_tr (filters_tr_numel op') →
      is_buffer filters (filters_numel op') →
      NoDup (thread_index <$> ts) →
      ∃ filters',
        launch (sum_transposed_filters 0 Z.add op' filters_tr) ts filters
        = Ok filters'
        ∧ elem filters' (2 ^ 32) = elem filters (2 ^ 32).
Proof.
  split_and!.
  - size_t_fields_tac.
  - reflexivity.
  - apply (bool_decide_unpack _). by vm_compute.
  - in_shape_tac.
  - exists (MkThread 0 1 0). split; [apply elem_of_grid; simpl; lia | reflexivity].
  - intros filters_tr filters. change (grid 1 1) with [MkThread 0 1 0].
    unfold launch. cbn [for_each]. unfold sum_transposed_filters.
    change (transposed_indices op_batch_2_31 (chan_out op_batch_2_31)
              (chan_in op_batch_2_31) (MkThread 0 1 0))
      with (Ok (Some (0, 1, 0)) : result (option (Z * Z * Z))).
    cbn [mbind result_bind].
    by rewrite for_int_overflow by (by vm_compute).
  - exact op_chan_2_32_size_t.
  - in_shape_tac.
  - reflexivity.
  - intros filters_tr filters ts [Hlen Hfit] [Hdst HfitN] Hnodup.
    assert (batch op_chan_2_32 <= INT_MAX) as Hbatch by (by vm_compute).
    destruct (launch_sum op_chan_2_32 op_chan_2_32_size_t Hbatch Hfit 0 Z.add
                filters_tr filters ts HfitN Hlen Hdst Hnodup)
      as (filters' & Hrun & _ & Hpost).
    exists filters'. split; [done|].
    apply (Hpost (2 ^ 32) 0 0 0); [in_shape_tac|].
    intros t _. by apply thread_index_below.
Qed.

(** ** The write map of the broadcast *)

Section WriteMap.
Context (op : Conv2DOp) (Hop : size_t_fields op).
Context (Hfit : filters_tr_numel op <= SIZE_MAX).



End WriteMap.




(** A thread that passes the backward guards has divided by a stride that
    is not zero. *)
Lemma backward_tap_stride op y k extent o :
  backward_tap op y k extent = Ok (Some o) → stride op ≠ 0.
Proof.
  unfold backward_tap. intros H Hs. rewrite Hs in H.
  destruct (_ <? _); [done|]. done.
Qed.

(** With a stride of zero the modulo of line 92 is undefined. *)
Lemma backward_tap_stride_zero op y k extent :
  stride op = 0 → k <= y +! padding op →
  backward_tap op y k extent = Undefined.
Proof.
  intros Hs Hk. unfold backward_tap.
  rewrite (proj2 (Z.ltb_ge _ _) Hk), Hs. done.
Qed.

(** C8, amended. Element counts and source offsets are computed in the
    64-bit [size_t] and the flat index of a thread in the 32-bit
    [unsigned int]. For every geometry descriptor: the computed patch element
    count is the exact one when that is at most [2^64 - 1]; the flat index is
    the exact [blockIdx * blockDim + threadIdx] when that is at most
    [2^32 - 1]; the divide chain never truncates, so a thread that reaches the
    copy has decomposed its flat index into a coordinate inside the patches
    shape whose row-major index is that flat index; and its source offset is
    the exact row-major offset of the exact source position when the source
    tensor has at most [2^64 - 1] elements and [oh * stride + k1],
    [ow * stride + k2] (forward) or [y + padding], [x + padding] (backward) do
    not overflow. *)
Theorem index_arithmetic_exact (op : Conv2DOp) (t : Thread) :
  size_t_fields op →
  (patches_in_numel op <= SIZE_MAX →
     patches_in_numel64 op = patches_in_numel op)
  ∧ (patches_out_numel op <= SIZE_MAX →
       patches_out_numel64 op = patches_out_numel op)
  ∧ (0 <= blockIdx t → 0 <= blockDim t → 0 <= threadIdx t →
     blockIdx t * blockDim t + threadIdx t <= UINT_MAX →
       thread_index t = blockIdx t * blockDim t + threadIdx t)
  ∧ (∀ dst src,
       unfold_input_into_patches_indices op t = Ok (Some (dst, src)) →
       ∃ b c k1 k2 oh ow,
         in_shape [(batch op, b); (chan_in op, c); (kernel op, k1);
                   (kernel op, k2); (h_out op, oh); (w_out op, ow)]
         ∧ dst = thread_index t
         ∧ dst = patches_in_index op b c k1 k2 oh ow
         ∧ (image_numel op <= SIZE_MAX →
            oh * stride op + k1 <= SIZE_MAX →
            ow * stride op + k2 <= SIZE_MAX →
            src = image_index op b c (oh * stride op + k1 - padding op)
                    (ow * stride op + k2 - padding op)))
  ∧ (∀ dst src,
       unfold_output_into_patches_indices op t = Ok (Some (dst, src)) →
       ∃ b o k1 k2 y x,
         in_shape [(batch op, b); (chan_out op, o); (kernel op, k1);
                   (kernel op, k2); (h_in op, y); (w_in op, x)]
         ∧ dst = thread_index t
         ∧ dst = patches_out_index op b o k1 k2 y x
         ∧ (image_out_numel op <= SIZE_MAX →
            y + padding op <= SIZE_MAX →
            x + padding op <= SIZE_MAX →
            src = image_out_index op b o ((y + padding op - k1) / stride op)
                    ((x + padding op - k2) / stride op))).
Proof.
  intros Hop. split_and!.
  - apply (patches_in_numel64_exact op Hop).
  - apply (patches_out_numel64_exact op Hop).
  - intros Hbi Hbd Hti Hmax. unfold thread_index.
    rewrite (wrap32_small (_ * _)) by nia. apply wrap32_small. lia.
  - intros dst src H.
    apply (unfold_input_indices_inv op Hop) in H
      as (b & c & k1 & k2 & oh & ow & y & x & Hin & Hd & Hi & _ & Hy & Hx & ->).
    exists b, c, k1, k2, oh, ow. split_and!; [done | done | done |].
    intros HimgN Hoh How.
    assert (0 <= oh ∧ 0 <= k1 ∧ 0 <= ow ∧ 0 <= k2 ∧ 0 <= b < batch op
            ∧ 0 <= c < chan_in op) as (? & ? & ? & ? & ? & ?)
      by (split_shape; lia).
    rewrite (forward_tap_exact op Hop) in Hy, Hx by done.
    case_decide; [|done]. case_decide; [|done]. simplify_eq.
    apply image_offset_exact; [in_shape_tac|].
    unfold image_numel in HimgN. lia.
  - intros dst src H.
    apply (unfold_output_indices_inv op Hop) in H
      as (b & o & k1 & k2 & y & x & oh & ow & Hin & Hd & Hi & _ & Hy & Hx & ->).
    exists b, o, k1, k2, y, x. split_and!; [done | done | done |].
    intros HimgN Hyp Hxp.
    pose proof (backward_tap_stride _ _ _ _ _ Hy) as Hs.
    pose proof (backward_tap_range op Hop _ _ _ _ Hy) as Hohr.
    pose proof (backward_tap_range op Hop _ _ _ _ Hx) as Howr.
    assert (0 <= y ∧ 0 <= k1 ∧ 0 <= x ∧ 0 <= k2 ∧ 0 <= b < batch op
            ∧ 0 <= o < chan_out op) as (? & ? & ? & ? & ? & ?)
      by (split_shape; lia).
    assert (0 < stride op) by (destruct Hop; unfold is_size_t in *; lia).
    rewrite (backward_tap_exact op Hop) in Hy, Hx by done.
    case_decide; [|done]. case_decide; [|done]. simplify_eq.
    apply image_offset_exact; [in_shape_tac|].
    unfold image_out_numel in HimgN. lia.
Qed.

(** Thread 40 of the padded geometry owns coordinate [(0, 0, 1, 1, 1, 1)] of
    the forward patches tensor and reads image element [(0, 0, 2, 2)]. *)
Lemma index_arithmetic_exact_witness :
  patches_in_numel64 op_padded = 81
  ∧ thread_index (MkThread 0 64 40) = 40
  ∧ ∃ b c k1 k2 oh ow,
      40 = patches_in_index op_padded b c k1 k2 oh ow
      ∧ 12 = image_index op_padded b c (oh * 2 + k1 - 1) (ow * 2 + k2 - 1).
Proof.
  destruct (index_arithmetic_exact op_padded (MkThread 0 64 40)
              op_padded_size_t) as (Hnumel & _ & Hidx & Hfwd & _).
  split; [apply Hnumel; by vm_compute|].
  split; [apply Hidx; by vm_compute|].
  destruct (Hfwd 40 12 eq_refl)
    as (b & c & k1 & k2 & oh & ow & Hin & _ & Hdst & Hsrc).
  exists b, c, k1, k2, oh, ow. split; [exact Hdst|].
  apply Hsrc; [by vm_compute | |]; split_shape; simpl in *;
    unfold SIZE_MAX; lia.
Defined.

(** The patch element count [2^32 + 1] of [op_batch_2_32] is representable,
    but the thread whose exact index is [2^32] gets the flat index 0 and
    copies element 0 again, and no thread has the flat index [2^32]. In
    [op_overflow], with 64 patch elements, thread 63 computes the source
    offset 0 where the exact offset of its source position is [3 * 2^64]. *)
Lemma index_arithmetic_counterexample :
  let op := op_batch_2_32 in
  let t := MkThread (2 ^ 22) 1024 0 in
  size_t_fields op
  ∧ patches_in_numel op = 2 ^ 32 + 1
  ∧ patches_in_numel op <= SIZE_MAX
  ∧ patches_in_numel64 op = 2 ^ 32 + 1
  ∧ blockIdx t * blockDim t + threadIdx t = 2 ^ 32
  ∧ thread_index t = 0
  ∧ unfold_input_into_patches_indices op t = Ok (Some (0, 0))
  ∧ (∀ t', thread_index t' ≠ 2 ^ 32)
  ∧ size_t_fields op_overflow
  ∧ patches_in_numel op_overflow = 64
  ∧ thread_index (MkThread 0 64 63) = patches_in_index op_overflow 0 0 1 1 3 3
  ∧ unfold_input_into_patches_indices op_overflow (MkThread 0 64 63)
    = Ok (Some (63, 0))
  ∧ image_index op_overflow 0 0
      (3 * stride op_overflow + 1 - padding op_overflow)
      (3 * stride op_overflow + 1 - padding op_overflow) = 3 * 2 ^ 64.
Proof.
  split_and!; try reflexivity.
  - size_t_fields_tac.
  - by vm_compute.
  - intros t' Ht'. pose proof (thread_index_range t') as Hr.
    rewrite Ht' in Hr. vm_compute in Hr. by destruct Hr as [_ []].
  - exact op_overflow_size_t.
Qed.

(** * Further properties *)

(** X1. The forward extractor has no undefined behaviour: for every geometry
    descriptor and every launch, on an image and a patches buffer of the
    declared sizes, no thread divides by zero or touches an element outside
    a buffer, and the patches buffer keeps its size. *)
Theorem unfold_input_launch_defined {A : Type} (op : Conv2DOp)
    (image patches : list A) (ts : list Thread) :
  size_t_fields op →
  Z.of_nat (length image) = image_numel op →
  Z.of_nat (length patches) = patches_in_numel op →
  ∃ patches',
    launch (unfold_input_into_patches op image) ts patches = Ok patches'
    ∧ length patches' = length patches.
Proof.
  intros Hop Himg Hpat.
  destruct (launch_unfold_input op Hop image patches ts Himg Hpat)
    as (patches' & Hrun & Hlen & _).
  by exists patches'.
Qed.

Lemma unfold_input_launch_defined_witness :
  ∃ patches',
    launch (unfold_input_into_patches op_padded (seqZ 1 25)) (grid 2 64)
      (replicate 81 0) = Ok patches'
    ∧ length patches' = 81%nat.
Proof.
  apply (unfold_input_launch_defined op_padded (seqZ 1 25) (replicate 81 0)
           (grid 2 64) op_padded_size_t); reflexivity.
Defined.

(** X2. The shape example of the specification, for any batch and channel
    counts, any image of the shape and any patches buffer: with stride 1, no
    padding, a 3x3 kernel and 5x5 images the formula gives 3x3 windows, and a
    launch of the forward extractor with a thread for every element sets
    patches element [(b, c, k1, k2, oh, ow)] to image element
    [(b, c, oh + k1, ow + k2)]; so [(b, c, 0, 0, 0, 0)] is image element
    [(b, c, 0, 0)] and [(b, c, 2, 2, 2, 2)] is image element
    [(b, c, 4, 4)]. *)
Theorem unfold_input_5x5 {A : Type} (op : Conv2DOp)
    (image patches : list A) (ts : list Thread) (b c k1 k2 oh ow : Z) :
  size_t_fields op →
  stride op = 1 → padding op = 0 → kernel op = 3 →
  h_in op = 5 → w_in op = 5 →
  h_out op = conv_out_size op (h_in op) →
  w_out op = conv_out_size op (w_in op) →
  is_buffer image (image_numel op) →
  is_buffer patches (patches_in_numel op) →
  covers ts (patches_in_numel op) →
  0 <= b < batch op → 0 <= c < chan_in op →
  0 <= k1 < 3 → 0 <= k2 < 3 → 0 <= oh < 3 → 0 <= ow < 3 →
  valid_geometry op
  ∧ h_out op = 3 ∧ w_out op = 3
  ∧ ∃ patches',
      launch (unfold_input_into_patches op image) ts patches = Ok patches'
      ∧ elem patches' (patches_in_index op b c k1 k2 oh ow)
        = elem image (image_index op b c (oh + k1) (ow + k2)).
Proof.
  intros Hop Hs Hp Hk Hhi Hwi Hho Hwo [Himg Hfiti] [Hpat Hfit] Hcov
    Hb Hc Hk1 Hk2 Hoh How.
  assert (h_out op = 3) as Hh3
    by (rewrite Hho; unfold conv_out_size; rewrite Hhi, Hp, Hk, Hs; done).
  assert (w_out op = 3) as Hw3
    by (rewrite Hwo; unfold conv_out_size; rewrite Hwi, Hp, Hk, Hs; done).
  split_and!; [|done|done|].
  { unfold valid_geometry. rewrite <- Hho, <- Hwo. lia. }
  destruct (launch_unfold_input op Hop image patches ts Himg Hpat)
    as (patches' & Hrun & _ & Hwr & _).
  exists patches'. split; [done|].
  assert (in_shape [(batch op, b); (chan_in op, c); (kernel op, k1);
                    (kernel op, k2); (h_out op, oh); (w_out op, ow)]) as Hin
    by in_shape_tac.
  pose proof (patches_in_index_range op _ _ _ _ _ _ Hin) as Hr.
  destruct (Hcov _ Hr) as (t & Ht & Hi).
  pose proof (unfold_input_indices_at op t b c k1 k2 oh ow Hin Hi) as Hat.
  rewrite (patches_in_numel64_exact op Hop Hfit) in Hat.
  rewrite (proj2 (Z.leb_gt _ _)) in Hat by lia.
  rewrite !(forward_tap_exact op Hop) in Hat
    by (rewrite ?Hs; unfold SIZE_MAX; lia).
  rewrite Hs, Hp in Hat. rewrite !decide_True in Hat by lia.
  rewrite (image_offset_exact (batch op)) in Hat;
    [| in_shape_tac | unfold image_numel in Hfiti; lia].
  rewrite <- Hi, (Hwr t _ _ Ht Hat).
  replace (oh * 1 + k1 - 0) with (oh + k1) by lia.
  replace (ow * 1 + k2 - 0) with (ow + k2) by lia.
  fold (image_index op b c (oh + k1) (ow + k2)).
  symmetry. apply elem_lookup.
  assert (in_shape [(batch op, b); (chan_in op, c); (h_in op, oh + k1);
                    (w_in op, ow + k2)]) as Hsh by in_shape_tac.
  pose proof (row_major_range _ Hsh). unfold image_index. lia.
Qed.

Lemma unfold_input_5x5_witness :
  valid_geometry op_5x5
  ∧ h_out op_5x5 = 3 ∧ w_out op_5x5 = 3
  ∧ ∃ patches',
      launch (unfold_input_into_patches op_5x5 (seqZ 100 25)) (grid 1 128)
        (replicate 81 0) = Ok patches'
      ∧ elem patches' (patches_in_index op_5x5 0 0 2 2 2 2)
        = elem (seqZ 100 25) (image_index op_5x5 0 0 4 4).
Proof.
  apply (unfold_input_5x5 op_5x5 (seqZ 100 25) (replicate 81 0) (grid 1 128)
           0 0 2 2 2 2 op_5x5_size_t);
    try reflexivity; try (simpl; lia); try (split; by vm_compute).
  apply grid_covers; [lia | by vm_compute].
Defined.

(** X3. With a stride that is not zero the index computation of the
    backward extractor is defined for every thread. *)
Theorem unfold_output_defined (op : Conv2DOp) (t : Thread) :
  size_t_fields op →
  stride op ≠ 0 →
  ∃ r, unfold_output_into_patches_indices op t = Ok r.
Proof. intros Hop Hs. by apply unfold_output_indices_defined. Qed.

Lemma unfold_output_defined_witness :
  ∃ r, unfold_output_into_patches_indices op_padded (MkThread 3 64 39) = Ok r.
Proof.
  apply (unfold_output_defined op_padded (MkThread 3 64 39) op_padded_size_t).
  by vm_compute.
Defined.

(** X4. With a stride of zero, a thread of the backward extractor that
    passes the guards of lines 69 and 88 computes a modulo by zero at line
    92: its behaviour is undefined. *)
Theorem unfold_output_stride_zero (op : Conv2DOp) (t : Thread)
    (b o k1 k2 y x : Z) :
  stride op = 0 →
  in_shape [(batch op, b); (chan_out op, o); (kernel op, k1); (kernel op, k2);
            (h_in op, y); (w_in op, x)] →
  thread_index t = patches_out_index op b o k1 k2 y x →
  thread_index t < patches_out_numel64 op →
  k1 <= y +! padding op →
  unfold_output_into_patches_indices op t = Undefined.
Proof.
  intros Hs Hin Hi Hlt Hk.
  rewrite (unfold_output_indices_at op t b o k1 k2 y x Hin Hi).
  rewrite (proj2 (Z.leb_gt _ _) Hlt).
  by rewrite (backward_tap_stride_zero op y k1 (h_out op) Hs Hk).
Qed.

Lemma unfold_output_stride_zero_witness :
  unfold_output_into_patches_indices op_stride_0 (MkThread 0 64 7) = Undefined.
Proof.
  apply (unfold_output_stride_zero op_stride_0 (MkThread 0 64 7) 0 0 0 0 1 2).
  - reflexivity.
  - in_shape_tac.
  - reflexivity.
  - by vm_compute.
  - by vm_compute.
Defined.

(** ** Launches without undefined behaviour *)

Section FilterDefined.
Context {A : Type} (op : Conv2DOp) (Hop : size_t_fields op).
Context (Hbatch : batch op <= INT_MAX) (Hfit : filters_tr_numel op <= SIZE_MAX).

(** A launch of [sum_transposed_filters] is defined whether or not two of
    its threads share a flat index. *)
Lemma launch_sum_defined (zero : A) (add : A → A → A) (filters_tr dst : list A)
    ts :
  Z.of_nat (length filters_tr) = filters_tr_numel op →
  Z.of_nat (length dst) = filters_numel op →
  ∃ dst',
    launch (sum_transposed_filters zero add op filters_tr) ts dst = Ok dst'
    ∧ length dst' = length dst.
Proof.
  intros Hlen. unfold launch. revert dst.
  induction ts as [|t ts IH]; intros dst Hdst; [by exists dst|].
  cbn [for_each].
  destruct (sum_thread op Hop Hbatch Hfit zero add filters_tr dst t) as
    [[_ Ht] | (o & c & k1 & k2 & old & vs & _ & _ & _ & _ & Ht)];
    [done | done | |]; rewrite Ht; simpl.
  - by apply IH.
  - destruct (IH (<[Z.to_nat (thread_index t) := add old (foldl add zero vs)]>
                    dst)) as (dst' & Hrun & Hlen').
    { by rewrite length_insert. }
    exists dst'. split; [done|]. by rewrite Hlen', length_insert.
Qed.

End FilterDefined.

(** X5. The backward extractor has no undefined behaviour as soon as the
    stride is not zero: for every such geometry descriptor and every launch,
    on an output tensor and a patches buffer of the declared sizes, no
    thread divides by zero or touches an element outside a buffer, and the
    patches buffer keeps its size. *)
Theorem unfold_output_launch_defined {A : Type} (op : Conv2DOp)
    (image_out patches : list A) (ts : list Thread) :
  size_t_fields op →
  stride op ≠ 0 →
  Z.of_nat (length image_out) = image_out_numel op →
  Z.of_nat (length patches) = patches_out_numel op →
  ∃ patches',
    launch (unfold_output_into_patches op image_out) ts patches = Ok patches'
    ∧ length patches' = length patches.
Proof.
  intros Hop Hs Himg Hpat.
  destruct (launch_unfold_output op Hop image_out patches ts Hs Himg Hpat)
    as (patches' & Hrun & Hlen & _).
  by exists patches'.
Qed.

Lemma unfold_output_launch_defined_witness :
  ∃ patches',
    launch (unfold_output_into_patches op_padded (seqZ 1 18)) (grid 4 128)
      (replicate 450 0) = Ok patches'
    ∧ length patches' = 450%nat.
Proof.
  apply (unfold_output_launch_defined op_padded (seqZ 1 18) (replicate 450 0)
           (grid 4 128) op_padded_size_t); [by vm_compute | reflexivity..].
Defined.

(** X6. [transpose_and_broadcast_filters] has no undefined behaviour when
    the batch count fits the [int] loop counter: on a filter tensor and a
    transposed buffer of the declared sizes every launch is defined and the
    transposed buffer keeps its size. *)
Theorem transpose_launch_defined {A : Type} (op : Conv2DOp)
    (filters filters_tr : list A) (ts : list Thread) :
  size_t_fields op →
  batch op <= INT_MAX →
  filters_tr_numel op <= SIZE_MAX →
  Z.of_nat (length filters) = filters_numel op →
  Z.of_nat (length filters_tr) = filters_tr_numel op →
  ∃ filters_tr',
    launch (transpose_and_broadcast_filters op filters) ts filters_tr
      = Ok filters_tr'
    ∧ length filters_tr' = length filters_tr.
Proof.
  intros Hop Hbatch Hfit Hlen Hdst.
  destruct (launch_transpose op Hop Hbatch Hfit filters filters_tr ts Hlen Hdst)
    as (dst' & Hrun & Hlen' & _).
  by exists dst'.
Qed.

Lemma transpose_launch_defined_witness :
  ∃ filters_tr',
    launch (transpose_and_broadcast_filters op_filters (seqZ 1 24)) (grid 1 32)
      (replicate 72 0) = Ok filters_tr'
    ∧ length filters_tr' = 72%nat.
Proof.
  apply (transpose_launch_defined op_filters (seqZ 1 24) (replicate 72 0)
           (grid 1 32) op_filters_size_t); by vm_compute.
Defined.

(** X7. [sum_transposed_filters] has no undefined behaviour when the batch
    count fits the [int] loop counter: on buffers of the declared sizes every
    launch is defined, whether or not its threads have distinct flat
    indices, and the filter-gradient buffer keeps its size. *)
Theorem sum_launch_defined {A : Type} (zero : A) (add : A → A → A)
    (op : Conv2DOp) (filters_tr filters : list A) (ts : list Thread) :
  size_t_fields op →
  batch op <= INT_MAX →
  filters_tr_numel op <= SIZE_MAX →
  Z.of_nat (length filters_tr) = filters_tr_numel op →
  Z.of_nat (length filters) = filters_numel op →
  ∃ filters',
    launch (sum_transposed_filters zero add op filters_tr) ts filters
      = Ok filters'
    ∧ length filters' = length filters.
Proof.
  intros Hop Hbatch Hfit Hlen Hdst.
  by apply launch_sum_defined.
Qed.

Lemma sum_launch_defined_witness :
  ∃ filters',
    launch (sum_transposed_filters 0 Z.add op_filters (seqZ 1 72))
      (grid 2 32) (replicate 24 0) = Ok filters'
    ∧ length filters' = 24%nat.
Proof.
  apply (sum_launch_defined 0 Z.add op_filters (seqZ 1 72) (replicate 24 0)
           (grid 2 32) op_filters_size_t); by vm_compute.
Defined.

(** X8. A batch count above [INT_MAX] is undefined behaviour in both filter
    kernels: the loop counter of lines 141 and 170 is an [int], so every
    thread below the element count runs into a read outside the filters or
    into the overflow of the counter. *)
Theorem filter_kernels_batch_overflow {A : Type} (zero : A) (add : A → A → A)
    (op : Conv2DOp) (filters filters_tr filters_tr_dst filters_dst : list A)
    (t : Thread) :
  size_t_fields op →
  INT_MAX < batch op →
  thread_index t < transpose_numel64 op →
  transpose_and_broadcast_filters op filters t filters_tr_dst = Undefined
  ∧ sum_transposed_filters zero add op filters_tr t filters_dst = Undefined.
Proof.
  intros Hop Hbatch Hlt. pose proof Hop as [? ? ? ? Hci Hco ? ? ? ?].
  unfold is_size_t in *.
  assert (chan_in op * chan_out op = chan_out op * chan_in op) as Hlr by ring.
  destruct (transposed_indices_decode op Hop _ _ t (proj1 Hci) (proj1 Hco)
              Hlr Hlt) as (o & c & k1 & k2 & Hin & Hi).
  split.
  - unfold transpose_and_broadcast_filters.
    rewrite (transposed_indices_at op _ _ t o c k1 k2 Hin Hi).
    fold (transpose_numel64 op). rewrite (proj2 (Z.leb_gt _ _) Hlt). simpl.
    destruct (load filters (thread_index t)); simpl; [|done].
    by apply for_int_overflow.
  - rewrite <- sum_numel64_transpose_numel64 in Hlt.
    unfold sum_transposed_filters.
    rewrite (transposed_indices_at op _ _ t o c k1 k2 Hin Hi).
    fold (sum_numel64 op). rewrite (proj2 (Z.leb_gt _ _) Hlt). simpl.
    by rewrite for_int_overflow.
Qed.

Lemma filter_kernels_batch_overflow_witness :
  transpose_and_broadcast_filters op_batch_2_31 [7] (MkThread 0 32 0) []
    = Undefined
  ∧ sum_transposed_filters 0 Z.add op_batch_2_31 [] (MkThread 0 32 0) [7]
    = Undefined.
Proof.
  apply filter_kernels_batch_overflow.
  - size_t_fields_tac.
  - by vm_compute.
  - by vm_compute.
Defined.

(** ** The bounds guard and empty tensors *)

Lemma for_each_filter {I M : Type} (body : I → M → result M) (P : I → Prop)
    `{∀ x, Decision (P x)} l m :
  (∀ x m, ¬ P x → body x m = Ok m) →
  for_each body l m = for_each body (filter P l) m.
Proof.
  intros Hskip. revert m. induction l as [|x l IH]; intros m; [done|].
  rewrite filter_cons. destruct (decide (P x)) as [HP|HP]; simpl.
  - destruct (body x m); simpl; [apply IH | done].
  - rewrite Hskip by done. simpl. apply IH.
Qed.

Lemma for_each_skip {I M : Type} (body : I → M → result M) l m :
  (∀ x, x ∈ l → ∀ m, body x m = Ok m) → for_each body l m = Ok m.
Proof.
  induction l as [|x l IH]; intros Hskip; [done|].
  simpl. rewrite Hskip by left. simpl. apply IH.
  intros y Hy. apply Hskip. by right.
Qed.

Lemma unfold_input_past_the_end {A : Type} op (image : list A) t patches :
  patches_in_numel64 op <= thread_index t →
  unfold_input_into_patches op image t patches = Ok patches.
Proof.
  intros Hge. unfold unfold_input_into_patches, copy_thread,
    unfold_input_into_patches_indices.
  fold (patches_in_numel64 op). by rewrite (proj2 (Z.leb_le _ _) Hge).
Qed.

Lemma unfold_output_past_the_end {A : Type} op (image_out : list A) t patches :
  patches_out_numel64 op <= thread_index t →
  unfold_output_into_patches op image_out t patches = Ok patches.
Proof.
  intros Hge. unfold unfold_output_into_patches, copy_thread,
    unfold_output_into_patches_indices.
  fold (patches_out_numel64 op). by rewrite (proj2 (Z.leb_le _ _) Hge).
Qed.

Lemma transpose_past_the_end {A : Type} op (filters : list A) t filters_tr :
  transpose_numel64 op <= thread_index t →
  transpose_and_broadcast_filters op filters t filters_tr = Ok filters_tr.
Proof.
  intros Hge. unfold transpose_and_broadcast_filters, transposed_indices.
  fold (transpose_numel64 op). by rewrite (proj2 (Z.leb_le _ _) Hge).
Qed.

Lemma sum_past_the_end {A : Type} (zero : A) add op (filters_tr : list A) t
    filters :
  sum_numel64 op <= thread_index t →
  sum_transposed_filters zero add op filters_tr t filters = Ok filters.
Proof.
  intros Hge. unfold sum_transposed_filters, transposed_indices.
  fold (sum_numel64 op). by rewrite (proj2 (Z.leb_le _ _) Hge).
Qed.

(** The element counts of lines 20, 68, 123 and 152 are the exact counts
    modulo [2^64]. *)
Lemma patches_in_numel64_wrap op :
  patches_in_numel64 op = wrap64 (patches_in_numel op).
Proof. unfold patches_in_numel64. by wrap64_exact. Qed.

Lemma patches_out_numel64_wrap op :
  patches_out_numel64 op = wrap64 (patches_out_numel op).
Proof. unfold patches_out_numel64. by wrap64_exact. Qed.

Lemma transpose_numel64_wrap op :
  transpose_numel64 op = wrap64 (filters_numel op).
Proof.
  unfold transpose_numel64. rewrite transposed_numel64_eq.
  unfold filters_numel. f_equal. ring.
Qed.

Lemma sum_numel64_wrap op : sum_numel64 op = wrap64 (filters_numel op).
Proof. unfold sum_numel64. by rewrite transposed_numel64_eq. Qed.

(** X9. Rounding the grid up is harmless: in each of the four kernels a
    thread whose flat index is not below the element count the kernel
    computes returns at once, so a launch does what its threads below that
    count do, whatever the geometry and the buffers. *)
Theorem threads_past_the_end_do_nothing {A : Type} (zero : A)
    (add : A → A → A) (op : Conv2DOp) (src dst : list A) (ts : list Thread) :
  launch (unfold_input_into_patches op src) ts dst
  = launch (unfold_input_into_patches op src)
      (filter (fun t => thread_index t < patches_in_numel64 op) ts) dst
  ∧ launch (unfold_output_into_patches op src) ts dst
    = launch (unfold_output_into_patches op src)
        (filter (fun t => thread_index t < patches_out_numel64 op) ts) dst
  ∧ launch (transpose_and_broadcast_filters op src) ts dst
    = launch (transpose_and_broadcast_filters op src)
        (filter (fun t => thread_index t < transpose_numel64 op) ts) dst
  ∧ launch (sum_transposed_filters zero add op src) ts dst
    = launch (sum_transposed_filters zero add op src)
        (filter (fun t => thread_index t < sum_numel64 op) ts) dst.
Proof.
  unfold launch. split_and!; apply for_each_filter; intros t m Hge.
  - apply unfold_input_past_the_end. lia.
  - apply unfold_output_past_the_end. lia.
  - apply transpose_past_the_end. lia.
  - apply sum_past_the_end. lia.
Qed.

(** X10. An empty patches tensor: when one of its extents is zero, a launch
    of the forward extractor changes nothing and is defined, whatever the
    stride, the threads and the buffers. *)
Theorem unfold_input_empty {A : Type} (op : Conv2DOp)
    (image patches : list A) (ts : list Thread) :
  patches_in_numel op = 0 →
  launch (unfold_input_into_patches op image) ts patches = Ok patches.
Proof.
  intros Hz. apply for_each_skip. intros t _ m.
  apply unfold_input_past_the_end.
  rewrite patches_in_numel64_wrap, Hz. apply thread_index_range.
Qed.

Lemma unfold_input_empty_witness :
  launch (unfold_input_into_patches op_batch_0 ([] : list Z)) (grid 1 32) []
  = Ok [].
Proof. apply unfold_input_empty. reflexivity. Defined.

(** X11. An empty patches tensor: when one of its extents is zero, a launch
    of the backward extractor changes nothing and is defined, whatever the
    threads and the buffers, even with a stride of zero: no thread gets to
    the modulo of line 92. *)
Theorem unfold_output_empty {A : Type} (op : Conv2DOp)
    (image_out patches : list A) (ts : list Thread) :
  patches_out_numel op = 0 →
  launch (unfold_output_into_patches op image_out) ts patches = Ok patches.
Proof.
  intros Hz. apply for_each_skip. intros t _ m.
  apply unfold_output_past_the_end.
  rewrite patches_out_numel64_wrap, Hz. apply thread_index_range.
Qed.

Lemma unfold_output_empty_witness :
  launch (unfold_output_into_patches op_batch_0 ([] : list Z)) (grid 1 32) []
  = Ok [].
Proof. apply unfold_output_empty. reflexivity. Defined.

(** X12. An empty filter tensor: when one of its extents is zero, a launch
    of either filter kernel changes nothing and is defined, whatever the
    batch count, the threads and the buffers. *)
Theorem filter_kernels_empty {A : Type} (zero : A) (add : A → A → A)
    (op : Conv2DOp) (filters filters_tr src dst : list A) (ts : list Thread) :
  filters_numel op = 0 →
  launch (transpose_and_broadcast_filters op filters) ts filters_tr
    = Ok filters_tr
  ∧ launch (sum_transposed_filters zero add op src) ts dst = Ok dst.
Proof.
  intros Hz. split; apply for_each_skip; intros t _ m.
  - apply transpose_past_the_end.
    rewrite transpose_numel64_wrap, Hz. apply thread_index_range.
  - apply sum_past_the_end.
    rewrite sum_numel64_wrap, Hz. apply thread_index_range.
Qed.

Lemma filter_kernels_empty_witness :
  launch (transpose_and_broadcast_filters op_chan_in_0 []) (grid 1 32) [7]
    = Ok [7]
  ∧ launch (sum_transposed_filters 0 Z.add op_chan_in_0 []) (grid 1 32) [7]
    = Ok [7].
Proof. apply filter_kernels_empty. reflexivity. Defined.

(** ** Launches under another schedule *)

(** Bodies that commute pairwise can run in any order. *)
Lemma for_each_Permutation {I M : Type} (body : I → M → result M) l l' m :
  (∀ x y m, body x m ≫= body y = body y m ≫= body x) →
  l ≡ₚ l' → for_each body l m = for_each body l' m.
Proof.
  intros Hcomm Hperm. revert m.
  induction Hperm as [|x l l' _ IH|x y l|l l' l'' _ IH1 _ IH2]; intros m.
  - done.
  - simpl. destruct (body x m); simpl; [apply IH | done].
  - simpl. specialize (Hcomm x y m).
    destruct (body y m) as [m1|], (body x m) as [m2|]; simpl in *.
    + destruct (body x m1), (body y m2); simpl in *; by simplify_eq.
    + by destruct (body x m1).
    + by destruct (body y m2).
    + done.
  - by rewrite IH1.
Qed.

(** Two buffers of the same size with the same elements are equal. *)
Lemma elem_ext {A : Type} (l1 l2 : list A) :
  length l1 = length l2 →
  (∀ j, 0 <= j < Z.of_nat (length l1) → elem l1 j = elem l2 j) →
  l1 = l2.
Proof.
  intros Hlen Hel. apply list_eq. intros n.
  destruct (decide (n < length l1)%nat) as [Hn|Hn].
  - specialize (Hel (Z.of_nat n)). unfold elem in Hel.
    rewrite !decide_True, Nat2Z.id in Hel by lia. apply Hel. lia.
  - rewrite !lookup_ge_None_2 by lia. done.
Qed.

Section CopySchedule.
Context {A : Type} (indices : Thread → result (option (Z * Z))) (src : list A).

Hypothesis indices_same :
  ∀ t t', thread_index t = thread_index t' → indices t = indices t'.
Hypothesis indices_own :
  ∀ t i s, indices t = Ok (Some (i, s)) → i = thread_index t.

(** Two threads of a copy kernel commute: they write different elements,
    or the same value to the same element. *)
Lemma copy_thread_comm t1 t2 (dst : list A) :
  copy_thread indices src t1 dst ≫= copy_thread indices src t2
  = copy_thread indices src t2 dst ≫= copy_thread indices src t1.
Proof.
  destruct (decide (thread_index t1 = thread_index t2)) as [Heq|Hne].
  { unfold copy_thread. by rewrite (indices_same _ _ Heq). }
  unfold copy_thread.
  destruct (indices t1) as [[[i1 s1]|]|] eqn:H1,
           (indices t2) as [[[i2 s2]|]|] eqn:H2; simpl;
    rewrite ?H1, ?H2; simpl; try done.
  - apply indices_own in H1, H2. subst i1 i2.
    pose proof (thread_index_range t1). pose proof (thread_index_range t2).
    destruct (load src s1) as [v1|], (load src s2) as [v2|]; simpl.
    + unfold store.
      destruct (decide (Z.to_nat (thread_index t1) < length dst)%nat),
               (decide (Z.to_nat (thread_index t2) < length dst)%nat); simpl;
        rewrite ?length_insert; repeat case_decide; try done; try lia.
      f_equal. apply list_insert_insert_ne. lia.
    + by destruct (store dst _ v1).
    + by destruct (store dst _ v2).
    + done.
  - by destruct (load src s1 ≫= _).
  - by destruct (load src s1 ≫= _).
  - by destruct (load src s2 ≫= _).
  - by destruct (load src s2 ≫= _).
Qed.

Lemma launch_copy_Permutation ts ts' (dst : list A) :
  ts ≡ₚ ts' →
  launch (copy_thread indices src) ts dst
  = launch (copy_thread indices src) ts' dst.
Proof.
  apply for_each_Permutation. intros t1 t2 m. apply copy_thread_comm.
Qed.

(** What a defined launch says of its threads. *)
Lemma launch_copy_inv ts (dst dst' : list A) :
  launch (copy_thread indices src) ts dst = Ok dst' →
  (∀ t, t ∈ ts → ∃ r, indices t = Ok r)
  ∧ (∀ t i s, t ∈ ts → indices t = Ok (Some (i, s)) →
       (Z.to_nat i < length dst)%nat ∧ (Z.to_nat s < length src)%nat).
Proof.
  unfold launch. revert dst. induction ts as [|t ts IH]; intros dst Hrun.
  { split; [intros t Ht | intros t i s Ht _]; by apply elem_of_nil in Ht. }
  cbn [for_each] in Hrun. apply bind_Ok in Hrun as (dst1 & Ht & Hrun).
  destruct (IH _ Hrun) as [IH1 IH2].
  unfold copy_thread in Ht. apply bind_Ok in Ht as (r & Hr & Ht).
  assert (length dst1 = length dst
          ∧ ∀ i s, r = Some (i, s) →
              (Z.to_nat i < length dst)%nat ∧ (Z.to_nat s < length src)%nat)
    as [Hlen Hb].
  { destruct r as [[i s]|]; simpl in Ht; [|by simplify_eq].
    apply bind_Ok in Ht as (v & Hv & Ht). unfold load, store in *.
    destruct (src !! Z.to_nat s) eqn:Hs; [|done].
    apply lookup_lt_Some in Hs. case_decide; [|done]. simplify_eq.
    split; [apply length_insert|]. intros ? ? [= <- <-]. done. }
  split.
  - intros t' [->|Ht']%elem_of_cons; [eauto | by apply IH1].
  - intros t' i s [->|Ht']%elem_of_cons Hi.
    + rewrite Hr in Hi. simplify_eq. by apply Hb.
    + rewrite <- Hlen. by apply (IH2 t').
Qed.

(** A defined launch of a copy kernel can be repeated: the second launch
    changes nothing. *)
Lemma launch_copy_twice ts (dst dst' : list A) :
  launch (copy_thread indices src) ts dst = Ok dst' →
  launch (copy_thread indices src) ts dst' = Ok dst'.
Proof.
  intros Hrun. destruct (launch_copy_inv ts dst dst' Hrun) as [Hdef Hin].
  destruct (launch_copy indices src indices_same indices_own ts dst Hdef Hin)
    as (dst1 & Hrun1 & Hlen1 & Hwr1 & Hfr1).
  rewrite Hrun in Hrun1. simplify_eq.
  destruct (launch_copy indices src indices_same indices_own ts dst1 Hdef)
    as (dst2 & Hrun2 & Hlen2 & Hwr2 & Hfr2).
  { intros t i s Ht Hi. rewrite Hlen1. by apply (Hin t). }
  rewrite Hrun2. f_equal. apply elem_ext; [done|]. intros j Hj.
  destruct (decide (Exists (fun t => thread_index t = j) ts)) as [Hex|Hno].
  - apply Exists_exists in Hex as (t & Ht & Hi).
    destruct (Hdef t Ht) as [[[i s]|] Hr].
    + pose proof (indices_own _ _ _ Hr) as ->.
      rewrite <- Hi, (Hwr2 t _ s Ht Hr). symmetry. by apply (Hwr1 t).
    + apply Hfr2. intros t' Ht' Hi'.
      rewrite (indices_same t' t) by congruence. done.
  - apply Hfr2. intros t' Ht' Hi'. destruct Hno.
    apply Exists_exists. eauto.
Qed.

End CopySchedule.

(** A thread of an extractor that reaches the copy writes the element of
    its own flat index, whatever the geometry. *)
Lemma unfold_input_indices_own op t i s :
  unfold_input_into_patches_indices op t = Ok (Some (i, s)) →
  i = thread_index t.
Proof.
  unfold unfold_input_into_patches_indices. intros H.
  destruct (_ <=? _); [done|].
  repeat (apply bind_Ok in H as ([? ?] & _ & H)).
  repeat case_match; by simplify_eq.
Qed.

Lemma unfold_output_indices_own op t i s :
  unfold_output_into_patches_indices op t = Ok (Some (i, s)) →
  i = thread_index t.
Proof.
  unfold unfold_output_into_patches_indices. intros H.
  destruct (_ <=? _); [done|].
  repeat (apply bind_Ok in H as ([? ?] & _ & H)).
  apply bind_Ok in H as ([?|] & _ & H); [|done].
  apply bind_Ok in H as ([?|] & _ & H); [|done].
  by simplify_eq.
Qed.

(** X13. The order in which the threads of an extractor run does not
    matter: two launches of the same threads in different orders leave the
    same patches buffer, and one is undefined exactly when the other is.
    This holds for every geometry descriptor and all buffers. *)
Theorem extractors_schedule_independent {A : Type} (op : Conv2DOp)
    (image patches_in image_out patches_out : list A) (ts ts' : list Thread) :
  ts ≡ₚ ts' →
  launch (unfold_input_into_patches op image) ts patches_in
  = launch (unfold_input_into_patches op image) ts' patches_in
  ∧ launch (unfold_output_into_patches op image_out) ts patches_out
    = launch (unfold_output_into_patches op image_out) ts' patches_out.
Proof.
  intros Hperm. split.
  - apply launch_copy_Permutation; [|apply unfold_input_indices_own|done].
    apply unfold_input_indices_same.
  - apply launch_copy_Permutation; [|apply unfold_output_indices_own|done].
    apply unfold_output_indices_same.
Qed.

Lemma extractors_schedule_independent_witness :
  launch (unfold_input_into_patches op_5x5 (seqZ 100 25)) (grid 1 128)
    (replicate 81 0)
  = launch (unfold_input_into_patches op_5x5 (seqZ 100 25))
      (reverse (grid 1 128)) (replicate 81 0)
  ∧ launch (unfold_output_into_patches op_5x5 (seqZ 100 9)) (grid 1 128)
      (replicate 225 0)
    = launch (unfold_output_into_patches op_5x5 (seqZ 100 9))
        (reverse (grid 1 128)) (replicate 225 0).
Proof.
  apply (extractors_schedule_independent op_5x5).
  symmetry. apply reverse_Permutation.
Defined.

(** X14. A launch of the forward extractor can be repeated: if a launch is
    defined, launching the same threads again on its result changes
    nothing. *)
Theorem unfold_input_relaunch {A : Type} (op : Conv2DOp)
    (image patches patches' : list A) (ts : list Thread) :
  launch (unfold_input_into_patches op image) ts patches = Ok patches' →
  launch (unfold_input_into_patches op image) ts patches' = Ok patches'.
Proof.
  apply launch_copy_twice; [|apply unfold_input_indices_own].
  apply unfold_input_indices_same.
Qed.

Lemma unfold_input_relaunch_witness :
  ∃ patches',
    launch (unfold_input_into_patches op_padded (seqZ 1 25)) (grid 1 128)
      (replicate 81 0) = Ok patches'
    ∧ launch (unfold_input_into_patches op_padded (seqZ 1 25)) (grid 1 128)
        patches' = Ok patches'.
Proof.
  eexists. split; [by vm_compute|].
  apply (unfold_input_relaunch op_padded (seqZ 1 25) (replicate 81 0)).
  by vm_compute.
Defined.

(** X15. A launch of the backward extractor can be repeated: if a launch
    is defined, launching the same threads again on its result changes
    nothing. *)
Theorem unfold_output_relaunch {A : Type} (op : Conv2DOp)
    (image_out patches patches' : list A) (ts : list Thread) :
  launch (unfold_output_into_patches op image_out) ts patches = Ok patches' →
  launch (unfold_output_into_patches op image_out) ts patches' = Ok patches'.
Proof.
  apply launch_copy_twice; [|apply unfold_output_indices_own].
  apply unfold_output_indices_same.
Qed.

Lemma unfold_output_relaunch_witness :
  ∃ patches',
    launch (unfold_output_into_patches op_padded (seqZ 1 18)) (grid 4 128)
      (replicate 450 0) = Ok patches'
    ∧ launch (unfold_output_into_patches op_padded (seqZ 1 18)) (grid 4 128)
        patches' = Ok patches'.
Proof.
  eexists. split; [by vm_compute|].
  apply (unfold_output_relaunch op_padded (seqZ 1 18) (replicate 450 0)).
  by vm_compute.
Defined.

(** ** The filter kernels under another schedule *)

Section FilterSchedule.
Context {A : Type} (op : Conv2DOp) (Hop : size_t_fields op).
Context (Hbatch : batch op <= INT_MAX) (Hfit : filters_tr_numel op <= SIZE_MAX).

(** Every index of the transposed tensor is the flat index of a
    coordinate. *)
Lemma filters_tr_index_surj j :
  0 <= j < filters_tr_numel op →
  ∃ b c o k1 k2,
    in_shape [(batch op, b); (chan_in op, c); (chan_out op, o);
              (kernel op, k1); (kernel op, k2)]
    ∧ filters_tr_index op b c o k1 k2 = j.
Proof.
  intros Hj.
  destruct (row_major_surj
    [(batch op, 0); (chan_in op, 0); (chan_out op, 0); (kernel op, 0);
     (kernel op, 0)] j) as (l & Hl & Hin & Hrm).
  { destruct Hop. unfold is_size_t in *. in_shape_tac. }
  { unfold shape_numel, filters_tr_numel in *. simpl. lia. }
  destruct_shape l. do 5 eexists. split; [exact Hin | reflexivity].
Qed.

Lemma filters_index_surj j :
  0 <= j < filters_numel op →
  ∃ o c k1 k2,
    in_shape [(chan_out op, o); (chan_in op, c); (kernel op, k1);
              (kernel op, k2)]
    ∧ filters_index op o c k1 k2 = j.
Proof.
  intros Hj.
  destruct (row_major_surj
    [(chan_out op, 0); (chan_in op, 0); (kernel op, 0); (kernel op, 0)] j)
    as (l & Hl & Hin & Hrm).
  { destruct Hop. unfold is_size_t in *. in_shape_tac. }
  { unfold shape_numel, filters_numel in *. simpl. lia. }
  destruct_shape l. do 4 eexists. split; [exact Hin | reflexivity].
Qed.

(** What a launch of [transpose_and_broadcast_filters] leaves only depends
    on which flat indices have a thread. *)
Lemma launch_transpose_same_indices (filters dst : list A) ts ts' :
  Z.of_nat (length filters) = filters_numel op →
  Z.of_nat (length dst) = filters_tr_numel op →
  (∀ i, (∃ t, t ∈ ts ∧ thread_index t = i)
        ↔ (∃ t, t ∈ ts' ∧ thread_index t = i)) →
  launch (transpose_and_broadcast_filters op filters) ts dst
  = launch (transpose_and_broadcast_filters op filters) ts' dst.
Proof.
  intros Hlen Hdst Hsame.
  destruct (launch_transpose op Hop Hbatch Hfit filters dst ts Hlen Hdst)
    as (d1 & Hrun1 & Hlen1 & Hpost1).
  destruct (launch_transpose op Hop Hbatch Hfit filters dst ts' Hlen Hdst)
    as (d2 & Hrun2 & Hlen2 & Hpost2).
  rewrite Hrun1, Hrun2. f_equal. apply elem_ext; [congruence|].
  intros j Hj.
  destruct (filters_tr_index_surj j) as (b & c & o & k1 & k2 & Hin & <-);
    [lia|].
  destruct (Hpost1 b c o k1 k2 Hin) as [Hw1 Hf1].
  destruct (Hpost2 b c o k1 k2 Hin) as [Hw2 Hf2].
  destruct (decide (Exists (fun t => thread_index t = filters_index op o c k1 k2)
                      ts)) as [Hex|Hno].
  - apply Exists_exists in Hex as (t & Ht & Hi).
    rewrite Hw1 by eauto. symmetry. apply Hw2. apply Hsame. eauto.
  - rewrite Hf1, Hf2; [done | |].
    + intros t Ht Hi. destruct Hno. apply Exists_exists.
      destruct (proj2 (Hsame _) (ex_intro _ t (conj Ht Hi))) as (t' & ? & ?).
      eauto.
    + intros t Ht Hi. destruct Hno. apply Exists_exists. eauto.
Qed.

(** A launch of [transpose_and_broadcast_filters] can be repeated. *)
Lemma launch_transpose_twice (filters dst : list A) ts :
  Z.of_nat (length filters) = filters_numel op →
  Z.of_nat (length dst) = filters_tr_numel op →
  ∃ dst',
    launch (transpose_and_broadcast_filters op filters) ts dst = Ok dst'
    ∧ launch (transpose_and_broadcast_filters op filters) ts dst' = Ok dst'.
Proof.
  intros Hlen Hdst.
  destruct (launch_transpose op Hop Hbatch Hfit filters dst ts Hlen Hdst)
    as (d1 & Hrun1 & Hlen1 & Hpost1).
  destruct (launch_transpose op Hop Hbatch Hfit filters d1 ts Hlen)
    as (d2 & Hrun2 & Hlen2 & Hpost2); [lia|].
  exists d1. split; [done|]. rewrite Hrun2. f_equal.
  apply elem_ext; [done|]. intros j Hj.
  destruct (filters_tr_index_surj j) as (b & c & o & k1 & k2 & Hin & <-);
    [lia|].
  destruct (Hpost1 b c o k1 k2 Hin) as [Hw1 Hf1].
  destruct (Hpost2 b c o k1 k2 Hin) as [Hw2 Hf2].
  destruct (decide (Exists (fun t => thread_index t = filters_index op o c k1 k2)
                      ts)) as [Hex|Hno].
  - apply Exists_exists in Hex as (t & Ht & Hi).
    rewrite Hw2 by eauto. symmetry. apply Hw1. eauto.
  - apply Hf2. intros t Ht Hi. destruct Hno. apply Exists_exists. eauto.
Qed.

(** The same for [sum_transposed_filters], when no two threads of a launch
    share a flat index. *)
Lemma launch_sum_same_indices (zero : A) (add : A → A → A)
    (filters_tr dst : list A) ts ts' :
  filters_numel op <= SIZE_MAX →
  Z.of_nat (length filters_tr) = filters_tr_numel op →
  Z.of_nat (length dst) = filters_numel op →
  NoDup (thread_index <$> ts) → NoDup (thread_index <$> ts') →
  (∀ i, (∃ t, t ∈ ts ∧ thread_index t = i)
        ↔ (∃ t, t ∈ ts' ∧ thread_index t = i)) →
  launch (sum_transposed_filters zero add op filters_tr) ts dst
  = launch (sum_transposed_filters zero add op filters_tr) ts' dst.
Proof.
  intros HfitN Hlen Hdst Hnd Hnd' Hsame.
  destruct (launch_sum op Hop Hbatch Hfit zero add filters_tr dst ts
              HfitN Hlen Hdst Hnd) as (d1 & Hrun1 & Hlen1 & Hpost1).
  destruct (launch_sum op Hop Hbatch Hfit zero add filters_tr dst ts'
              HfitN Hlen Hdst Hnd') as (d2 & Hrun2 & Hlen2 & Hpost2).
  rewrite Hrun1, Hrun2. f_equal. apply elem_ext; [congruence|].
  intros j Hj.
  destruct (filters_index_surj j) as (o & c & k1 & k2 & Hin & <-); [lia|].
  destruct (Hpost1 o c k1 k2 Hin) as [Hw1 Hf1].
  destruct (Hpost2 o c k1 k2 Hin) as [Hw2 Hf2].
  destruct (decide (Exists (fun t => thread_index t = filters_index op o c k1 k2)
                      ts)) as [Hex|Hno].
  - apply Exists_exists in Hex as (t & Ht & Hi).
    destruct Hw1 as (old1 & vs1 & Ho1 & Hv1 & ->); [eauto|].
    destruct Hw2 as (old2 & vs2 & Ho2 & Hv2 & ->); [apply Hsame; eauto|].
    rewrite Ho1 in Ho2. rewrite <- Hv1 in Hv2.
    apply (inj (fmap Some)) in Hv2. by simplify_eq.
  - rewrite Hf1, Hf2; [done | |].
    + intros t Ht Hi. destruct Hno. apply Exists_exists.
      destruct (proj2 (Hsame _) (ex_intro _ t (conj Ht Hi))) as (t' & ? & ?).
      eauto.
    + intros t Ht Hi. destruct Hno. apply Exists_exists. eauto.
Qed.

End FilterSchedule.

Lemma Permutation_same_indices (ts ts' : list Thread) :
  ts ≡ₚ ts' →
  ∀ i, (∃ t, t ∈ ts ∧ thread_index t = i)
       ↔ (∃ t, t ∈ ts' ∧ thread_index t = i).
Proof.
  intros Hperm i. split; intros (t & Ht & Hi); exists t; split; try done.
  - by rewrite <- Hperm.
  - by rewrite Hperm.
Qed.

(** X16. The order in which the threads of
    [transpose_and_broadcast_filters] run does not matter: on buffers of
    the declared sizes, with a batch count that fits the loop counter, two
    launches of the same threads in different orders leave the same
    transposed buffer. *)
Theorem transpose_schedule_independent {A : Type} (op : Conv2DOp)
    (filters filters_tr : list A) (ts ts' : list Thread) :
  size_t_fields op →
  batch op <= INT_MAX →
  filters_tr_numel op <= SIZE_MAX →
  Z.of_nat (length filters) = filters_numel op →
  Z.of_nat (length filters_tr) = filters_tr_numel op →
  ts ≡ₚ ts' →
  launch (transpose_and_broadcast_filters op filters) ts filters_tr
  = launch (transpose_and_broadcast_filters op filters) ts' filters_tr.
Proof.
  intros Hop Hbatch Hfit Hlen Hdst Hperm.
  apply launch_transpose_same_indices; try done.
  by apply Permutation_same_indices.
Qed.

Lemma transpose_schedule_independent_witness :
  launch (transpose_and_broadcast_filters op_filters (seqZ 1 24)) (grid 1 32)
    (replicate 72 0)
  = launch (transpose_and_broadcast_filters op_filters (seqZ 1 24))
      (reverse (grid 1 32)) (replicate 72 0).
Proof.
  apply (transpose_schedule_independent op_filters (seqZ 1 24) (replicate 72 0)
           (grid 1 32) (reverse (grid 1 32)) op_filters_size_t);
    [by vm_compute.. |].
  symmetry. apply reverse_Permutation.
Defined.

(** X17. The order in which the threads of [sum_transposed_filters] run
    does not matter, as long as no two threads of the launch share a flat
    index: on buffers of the declared sizes, with a batch count that fits
    the loop counter, two launches of the same threads in different orders
    leave the same filter gradients. *)
Theorem sum_schedule_independent {A : Type} (zero : A) (add : A → A → A)
    (op : Conv2DOp) (filters_tr filters : list A) (ts ts' : list Thread) :
  size_t_fields op →
  batch op <= INT_MAX →
  filters_tr_numel op <= SIZE_MAX →
  filters_numel op <= SIZE_MAX →
  Z.of_nat (length filters_tr) = filters_tr_numel op →
  Z.of_nat (length filters) = filters_numel op →
  NoDup (thread_index <$> ts) →
  ts ≡ₚ ts' →
  launch (sum_transposed_filters zero add op filters_tr) ts filters
  = launch (sum_transposed_filters zero add op filters_tr) ts' filters.
Proof.
  intros Hop Hbatch Hfit HfitN Hlen Hdst Hnd Hperm.
  apply launch_sum_same_indices; try done.
  - by rewrite <- Hperm.
  - by apply Permutation_same_indices.
Qed.

Lemma sum_schedule_independent_witness :
  launch (sum_transposed_filters 0 Z.add op_filters (seqZ 1 72)) (grid 1 32)
    (replicate 24 0)
  = launch (sum_transposed_filters 0 Z.add op_filters (seqZ 1 72))
      (reverse (grid 1 32)) (replicate 24 0).
Proof.
  apply (sum_schedule_independent 0 Z.add op_filters (seqZ 1 72)
           (replicate 24 0) (grid 1 32) (reverse (grid 1 32))
           op_filters_size_t); [by vm_compute.. | | ].
  - apply (bool_decide_unpack _). by vm_compute.
  - symmetry. apply reverse_Permutation.
Defined.

(** X18. A launch of [transpose_and_broadcast_filters] can be repeated:
    launching the same threads again on its result changes nothing. *)
Theorem transpose_relaunch {A : Type} (op : Conv2DOp)
    (filters filters_tr : list A) (ts : list Thread) :
  size_t_fields op →
  batch op <= INT_MAX →
  filters_tr_numel op <= SIZE_MAX →
  Z.of_nat (length filters) = filters_numel op →
  Z.of_nat (length filters_tr) = filters_tr_numel op →
  ∃ filters_tr',
    launch (transpose_and_broadcast_filters op filters) ts filters_tr
      = Ok filters_tr'
    ∧ launch (transpose_and_broadcast_filters op filters) ts filters_tr'
      = Ok filters_tr'.
Proof.
  intros Hop Hbatch Hfit Hlen Hdst. by apply launch_transpose_twice.
Qed.

Lemma transpose_relaunch_witness :
  ∃ filters_tr',
    launch (transpose_and_broadcast_filters op_filters (seqZ 1 24)) (grid 1 16)
      (replicate 72 0) = Ok filters_tr'
    ∧ launch (transpose_and_broadcast_filters op_filters (seqZ 1 24))
        (grid 1 16) filters_tr' = Ok filters_tr'.
Proof.
  apply (transpose_relaunch op_filters (seqZ 1 24) (replicate 72 0) (grid 1 16)
           op_filters_size_t); by vm_compute.
Defined.

(** ** The two filter kernels, one after the other *)

(** X19. The two filter kernels address the transposed tensor in the same
    way. For every geometry descriptor whose batch count is at most
    [INT_MAX], on buffers of the declared sizes that fit a [size_t]: after a
    launch of [transpose_and_broadcast_filters] with a thread for every flat
    index of the filter tensor, a launch of [sum_transposed_filters] on its
    result, with threads of distinct flat indices, sets every
    filter-gradient element that has a thread to its prior value plus the
    sum, taken from zero, of as many copies of the filter element of the same
    index as there are batches. *)
Theorem transpose_then_sum {A : Type} (zero : A) (add : A → A → A)
    (op : Conv2DOp) (filters filters_tr grad : list A) (ts ts' : list Thread) :
  size_t_fields op →
  batch op <= INT_MAX →
  filters_tr_numel op <= SIZE_MAX →
  filters_numel op <= SIZE_MAX →
  Z.of_nat (length filters) = filters_numel op →
  Z.of_nat (length filters_tr) = filters_tr_numel op →
  Z.of_nat (length grad) = filters_numel op →
  covers ts (filters_numel op) →
  NoDup (thread_index <$> ts') →
  ∃ filters_tr' grad',
    launch (transpose_and_broadcast_filters op filters) ts filters_tr
      = Ok filters_tr'
    ∧ launch (sum_transposed_filters zero add op filters_tr') ts' grad
      = Ok grad'
    ∧ ∀ t f old,
        t ∈ ts' →
        elem filters (thread_index t) = Some f →
        elem grad (thread_index t) = Some old →
        elem grad' (thread_index t)
        = Some (add old (foldl add zero (replicate (Z.to_nat (batch op)) f))).
Proof.
  intros Hop Hbatch Hfit HfitN Hlen Hdst Hgrad Hcov Hnd.
  destruct (launch_transpose op Hop Hbatch Hfit filters filters_tr ts Hlen Hdst)
    as (tr' & Hrun1 & Hlen1 & Hpost1).
  destruct (launch_sum op Hop Hbatch Hfit zero add tr' grad ts' HfitN)
    as (grad' & Hrun2 & Hlen2 & Hpost2); [lia | done | done |].
  exists tr', grad'. split_and!; [done | done |].
  intros t f old Ht Hf Hold.
  pose proof (thread_index_range t) as Hr.
  assert (thread_index t < filters_numel op) as Hlt.
  { rewrite elem_lookup in Hf by lia. apply lookup_lt_Some in Hf. lia. }
  destruct (filters_index_surj op Hop (thread_index t))
    as (o & c & k1 & k2 & Hin & Hi); [lia|].
  rewrite <- Hi in *.
  destruct (Hpost2 o c k1 k2 Hin) as [Hw2 _].
  destruct Hw2 as (old' & vs & Hold' & Hvs & ->); [eauto|].
  rewrite Hold in Hold'. simplify_eq. do 3 f_equal.
  symmetry. apply replicate_as_Forall. split.
  - apply (f_equal length) in Hvs. unfold batch_column in Hvs.
    by rewrite !length_fmap, length_seqZ in Hvs.
  - apply Forall_lookup. intros n v Hv.
    assert ((Some <$> vs) !! n = Some (Some v)) as Hn
      by (by rewrite list_lookup_fmap, Hv).
    rewrite Hvs in Hn. unfold batch_column in Hn.
    rewrite list_lookup_fmap in Hn.
    destruct (seqZ 0 (batch op) !! n) as [b|] eqn:Hb; [|done].
    apply lookup_seqZ in Hb as [-> Hb]. simpl in Hn.
    assert (in_shape [(batch op, 0 + Z.of_nat n); (chan_in op, c);
                      (chan_out op, o); (kernel op, k1); (kernel op, k2)])
      as Hsh by (split_shape; in_shape_tac).
    destruct (Hpost1 _ c o k1 k2 Hsh) as [Hw1 _].
    rewrite Hw1, Hf in Hn; [by simplify_eq|].
    apply Hcov. lia.
Qed.

Lemma transpose_then_sum_witness :
  ∃ filters_tr' grad',
    launch (transpose_and_broadcast_filters op_filters (seqZ 1 24)) (grid 1 32)
      (replicate 72 0) = Ok filters_tr'
    ∧ launch (sum_transposed_filters 0 Z.add op_filters filters_tr')
        (grid 1 32) (replicate 24 1000) = Ok grad'
    ∧ elem grad' 10 = Some (1000 + (0 + 11 + 11 + 11)).
Proof.
  destruct (transpose_then_sum 0 Z.add op_filters (seqZ 1 24) (replicate 72 0)
              (replicate 24 1000) (grid 1 32) (grid 1 32))
    as (tr' & grad' & Hrun1 & Hrun2 & Hsum).
  - exact op_filters_size_t.
  - by vm_compute.
  - by vm_compute.
  - by vm_compute.
  - reflexivity.
  - reflexivity.
  - reflexivity.
  - apply grid_covers; [lia | by vm_compute].
  - apply (bool_decide_unpack _). by vm_compute.
  - exists tr', grad'. split_and!; [done | done |].
    apply (Hsum (MkThread 0 32 10) 11 1000); [|reflexivity..].
    apply elem_of_grid. simpl. lia.
Defined.

(** X20. An empty batch: [transpose_and_broadcast_filters] reads its filter
    element and writes nothing, and [sum_transposed_filters] adds the zero
    it starts from to every filter-gradient element that has a thread. *)
Theorem filter_kernels_empty_batch {A : Type} (zero : A) (add : A → A → A)
    (op : Conv2DOp) (filters filters_tr grad : list A) (ts ts' : list Thread) :
  size_t_fields op →
  batch op = 0 →
  filters_numel op <= SIZE_MAX →
  Z.of_nat (length filters) = filters_numel op →
  Z.of_nat (length filters_tr) = filters_tr_numel op →
  Z.of_nat (length grad) = filters_numel op →
  NoDup (thread_index <$> ts') →
  launch (transpose_and_broadcast_filters op filters) ts filters_tr
    = Ok filters_tr
  ∧ ∃ grad',
      launch (sum_transposed_filters zero add op filters_tr) ts' grad
        = Ok grad'
      ∧ ∀ t old,
          t ∈ ts' →
          elem grad (thread_index t) = Some old →
          elem grad' (thread_index t) = Some (add old zero).
Proof.
  intros Hop Hb HfitN Hlen Hdst Hgrad Hnd.
  assert (filters_tr_numel op = 0) as Hz
    by (unfold filters_tr_numel; rewrite Hb; ring).
  assert (batch op <= INT_MAX) as Hbatch by (rewrite Hb; by vm_compute).
  assert (filters_tr_numel op <= SIZE_MAX) as Hfit
    by (rewrite Hz; by vm_compute).
  assert (filters_tr = []) as ->
    by (apply length_zero_iff_nil; lia).
  split.
  - destruct (launch_transpose op Hop Hbatch Hfit filters [] ts Hlen Hdst)
      as (tr' & -> & Hlen1 & _).
    f_equal. by apply length_zero_iff_nil.
  - destruct (launch_sum op Hop Hbatch Hfit zero add [] grad ts' HfitN)
      as (grad' & Hrun2 & Hlen2 & Hpost2); [done..|].
    exists grad'. split; [done|]. intros t old Ht Hold.
    pose proof (thread_index_range t) as Hr.
    assert (thread_index t < filters_numel op) as Hlt.
    { rewrite elem_lookup in Hold by lia. apply lookup_lt_Some in Hold. lia. }
    destruct (filters_index_surj op Hop (thread_index t))
      as (o & c & k1 & k2 & Hin & Hi); [lia|].
    rewrite <- Hi in *.
    destruct (Hpost2 o c k1 k2 Hin) as [Hw2 _].
    destruct Hw2 as (old' & vs & Hold' & Hvs & ->); [eauto|].
    rewrite Hold in Hold'. simplify_eq.
    unfold batch_column in Hvs. rewrite Hb in Hvs. simpl in Hvs.
    apply fmap_nil_inv in Hvs as ->. done.
Qed.

Lemma filter_kernels_empty_batch_witness :
  launch (transpose_and_broadcast_filters op_batch_0 (seqZ 1 24)) (grid 1 32) []
    = Ok []
  ∧ ∃ grad',
      launch (sum_transposed_filters 0 Z.add op_batch_0 []) (grid 1 32)
        (seqZ 1 24) = Ok grad'
      ∧ elem grad' 10 = Some (11 + 0).
Proof.
  destruct (filter_kernels_empty_batch 0 Z.add op_batch_0 (seqZ 1 24) []
              (seqZ 1 24) (grid 1 32) (grid 1 32))
    as (Htr & grad' & Hrun & Hsum).
  - size_t_fields_tac.
  - reflexivity.
  - by vm_compute.
  - reflexivity.
  - reflexivity.
  - reflexivity.
  - apply (bool_decide_unpack _). by vm_compute.
  - split; [exact Htr|]. exists grad'. split; [exact Hrun|].
    apply (Hsum (MkThread 0 32 10) 11); [|reflexivity].
    apply elem_of_grid. simpl. lia.
Defined.

(** ** Flat indices of a grid *)

Lemma bind_singleton_fmap {B C : Type} (g : B → C) (l : list B) :
  l ≫= (fun x => [g x]) = g <$> l.
Proof. induction l as [|x l IH]; [done|]. by rewrite bind_cons, IH. Qed.

Lemma grid_block bi bd :
  0 <= bi → (bi + 1) * bd <= UINT_MAX + 1 →
  thread_index <$> (seqZ 0 bd ≫= fun ti => [MkThread bi bd ti])
  = seqZ (bi * bd) bd.
Proof.
  intros Hbi Hmax. rewrite bind_singleton_fmap, <- list_fmap_compose.
  transitivity (Z.add (bi * bd) <$> seqZ 0 bd);
    [|rewrite fmap_add_seqZ; f_equal; lia].
  apply list_fmap_ext.
  intros n ti [-> Hti]%lookup_seqZ. simpl.
  apply thread_index_grid; lia.
Qed.

(** X21. The threads of a launch of at most [2^32] threads have the flat
    indices [0], [1], ... up to the number of threads, each once and in the
    order of the grid: the index of line 19 does not wrap. *)
Theorem grid_thread_indices (gridDim bd : Z) :
  0 <= gridDim → 0 <= bd → gridDim * bd <= UINT_MAX + 1 →
  thread_index <$> grid gridDim bd = seqZ 0 (gridDim * bd).
Proof.
  intros Hg Hbd. rewrite <- (Z2Nat.id gridDim) by done.
  generalize (Z.to_nat gridDim) as n. clear Hg gridDim.
  induction n as [|n IH]; intros Hmax.
  { unfold grid. simpl. done. }
  unfold grid in *. rewrite seqZ_S, bind_app, fmap_app, IH by nia.
  rewrite bind_singleton, Z.add_0_l, grid_block by nia.
  rewrite <- seqZ_app by nia. f_equal. lia.
Qed.

Lemma grid_thread_indices_witness :
  thread_index <$> grid 3 64 = seqZ 0 (3 * 64).
Proof. apply grid_thread_indices; by vm_compute. Defined.

(** ** Pointwise convolutions *)

Section Pointwise.
Context (op : Conv2DOp) (Hop : size_t_fields op).
Context (Hk : kernel op = 1) (Hs : stride op = 1) (Hp : padding op = 0).

Lemma forward_tap_pointwise o extent :
  0 <= o < extent → extent <= SIZE_MAX → forward_tap op o 0 extent = Some o.
Proof.
  intros Ho He. rewrite (forward_tap_exact op Hop) by lia.
  rewrite Hs, Hp, decide_True by lia. f_equal. lia.
Qed.

Lemma backward_tap_pointwise y extent :
  0 <= y < extent → extent <= SIZE_MAX →
  backward_tap op y 0 extent = Ok (Some y).
Proof.
  intros Hy He. rewrite (backward_tap_exact op Hop) by lia.
  rewrite decide_True.
  - rewrite Hs, Hp, Z.div_1_r. do 2 f_equal. lia.
  - unfold backward_guard. rewrite Hs, Hp, Z.mod_1_r, Z.div_1_r. lia.
Qed.

End Pointwise.

(** X22. A pointwise convolution unfolds to its input: with a 1x1 kernel,
    stride 1, no padding and windows of the size of the image, a launch of
    the forward extractor with a thread for every element leaves a copy of
    the image in the patches buffer. *)
Theorem unfold_input_pointwise {A : Type} (op : Conv2DOp)
    (image patches : list A) (ts : list Thread) :
  size_t_fields op →
  kernel op = 1 → stride op = 1 → padding op = 0 →
  h_out op = h_in op → w_out op = w_in op →
  is_buffer image (image_numel op) →
  Z.of_nat (length patches) = image_numel op →
  covers ts (image_numel op) →
  launch (unfold_input_into_patches op image) ts patches = Ok image.
Proof.
  intros Hop Hk Hs Hp Hh Hw [Himg Hfit] Hpat Hcov.
  assert (patches_in_numel op = image_numel op) as HN.
  { unfold patches_in_numel, image_numel. rewrite Hk, Hh, Hw. ring. }
  destruct (launch_unfold_input op Hop image patches ts Himg)
    as (patches' & Hrun & Hlen & Hwr & _); [lia|].
  rewrite Hrun. f_equal. apply elem_ext; [lia|]. intros j Hj.
  destruct (Hcov j) as (t & Ht & Hi); [lia|].
  assert (thread_index t < patches_in_numel64 op) as Hlt.
  { rewrite (patches_in_numel64_exact op Hop) by lia. lia. }
  destruct (unfold_input_indices_decode op Hop t Hlt)
    as (b & c & k1 & k2 & oh & ow & Hin & Hdec).
  pose proof (unfold_input_indices_at op t b c k1 k2 oh ow Hin Hdec) as Hat.
  rewrite (proj2 (Z.leb_gt _ _) Hlt) in Hat.
  pose proof Hop as [? ? ? ? ? ? [_ Hhm] ? [_ Hwm] ?].
  split_shape.
  assert (k1 = 0) as -> by lia. assert (k2 = 0) as -> by lia.
  rewrite !(forward_tap_pointwise op Hop Hs Hp) in Hat by lia.
  rewrite (image_offset_exact (batch op)) in Hat;
    [| in_shape_tac | unfold image_numel in Hfit; lia].
  assert (row_major [(batch op, b); (chan_in op, c); (h_in op, oh);
                     (w_in op, ow)] = j) as Hsrc.
  { rewrite <- Hi, Hdec. unfold patches_in_index, row_major. simpl.
    rewrite Hk, Hh, Hw. ring. }
  rewrite Hsrc, Hi in Hat. rewrite (Hwr t j j Ht Hat).
  symmetry. apply elem_lookup. lia.
Qed.

Lemma unfold_input_pointwise_witness :
  launch (unfold_input_into_patches op_pointwise (seqZ 1 36)) (grid 2 32)
    (replicate 36 0) = Ok (seqZ 1 36).
Proof.
  apply unfold_input_pointwise; try reflexivity.
  - size_t_fields_tac.
  - split; by vm_compute.
  - apply grid_covers; [lia | by vm_compute].
Defined.

(** X23. A pointwise convolution unfolds its output too: with a 1x1
    kernel, stride 1, no padding and an output of the size of the image, a
    launch of the backward extractor with a thread for every element leaves
    a copy of the output tensor in the patches buffer. *)
Theorem unfold_output_pointwise {A : Type} (op : Conv2DOp)
    (image_out patches : list A) (ts : list Thread) :
  size_t_fields op →
  kernel op = 1 → stride op = 1 → padding op = 0 →
  h_out op = h_in op → w_out op = w_in op →
  is_buffer image_out (image_out_numel op) →
  Z.of_nat (length patches) = image_out_numel op →
  covers ts (image_out_numel op) →
  launch (unfold_output_into_patches op image_out) ts patches = Ok image_out.
Proof.
  intros Hop Hk Hs Hp Hh Hw [Himg Hfit] Hpat Hcov.
  assert (patches_out_numel op = image_out_numel op) as HN.
  { unfold patches_out_numel, image_out_numel. rewrite Hk, Hh, Hw. ring. }
  destruct (launch_unfold_output op Hop image_out patches ts)
    as (patches' & Hrun & Hlen & Hwr & _); [lia | done | lia |].
  rewrite Hrun. f_equal. apply elem_ext; [lia|]. intros j Hj.
  destruct (Hcov j) as (t & Ht & Hi); [lia|].
  assert (thread_index t < patches_out_numel64 op) as Hlt.
  { rewrite (patches_out_numel64_exact op Hop) by lia. lia. }
  destruct (unfold_output_indices_decode op Hop t Hlt)
    as (b & o & k1 & k2 & y & x & Hin & Hdec).
  pose proof (unfold_output_indices_at op t b o k1 k2 y x Hin Hdec) as Hat.
  rewrite (proj2 (Z.leb_gt _ _) Hlt) in Hat.
  pose proof Hop as [? ? ? ? ? ? ? [_ Hhm] ? [_ Hwm]].
  split_shape.
  assert (k1 = 0) as -> by lia. assert (k2 = 0) as -> by lia.
  rewrite !(backward_tap_pointwise op Hop Hs Hp) in Hat by lia.
  simpl in Hat.
  rewrite (image_offset_exact (batch op)) in Hat;
    [| in_shape_tac | unfold image_out_numel in Hfit; lia].
  assert (row_major [(batch op, b); (chan_out op, o); (h_out op, y);
                     (w_out op, x)] = j) as Hsrc.
  { rewrite <- Hi, Hdec. unfold patches_out_index, row_major. simpl.
    rewrite Hk, Hh, Hw. ring. }
  rewrite Hsrc, Hi in Hat. rewrite (Hwr t j j Ht Hat).
  symmetry. apply elem_lookup. lia.
Qed.

Lemma unfold_output_pointwise_witness :
  launch (unfold_output_into_patches op_pointwise (seqZ 1 48)) (grid 2 32)
    (replicate 48 0) = Ok (seqZ 1 48).
Proof.
  apply unfold_output_pointwise; try reflexivity.
  - size_t_fields_tac.
  - split; by vm_compute.
  - apply grid_covers; [lia | by vm_compute].
Defined.

(** ** Extraction without padding *)

(** X24. Without padding, and with every window inside the image, the
    forward extractor writes every element of the patches tensor: a launch
    with a thread for every element leaves the same patches whatever the
    buffer held before, so it needs no zero-fill. *)
Theorem unfold_input_no_padding {A : Type} (op : Conv2DOp)
    (image patches1 patches2 : list A) (ts : list Thread) :
  size_t_fields op →
  padding op = 0 →
  (h_out op - 1) * stride op + kernel op <= h_in op →
  (w_out op - 1) * stride op + kernel op <= w_in op →
  Z.of_nat (length image) = image_numel op →
  is_buffer patches1 (patches_in_numel op) →
  is_buffer patches2 (patches_in_numel op) →
  covers ts (patches_in_numel op) →
  ∃ patches',
    launch (unfold_input_into_patches op image) ts patches1 = Ok patches'
    ∧ launch (unfold_input_into_patches op image) ts patches2 = Ok patches'.
Proof.
  intros Hop Hp Hh Hw Himg [Hp1 Hfit] [Hp2 _] Hcov.
  destruct (launch_unfold_input op Hop image patches1 ts Himg Hp1)
    as (p1 & Hrun1 & Hlen1 & Hwr1 & _).
  destruct (launch_unfold_input op Hop image patches2 ts Himg Hp2)
    as (p2 & Hrun2 & Hlen2 & Hwr2 & _).
  exists p1. split; [done|]. rewrite Hrun2. f_equal.
  apply elem_ext; [lia|]. intros j Hj.
  destruct (Hcov j) as (t & Ht & Hi); [lia|].
  assert (thread_index t < patches_in_numel64 op) as Hlt.
  { rewrite (patches_in_numel64_exact op Hop) by lia. lia. }
  destruct (unfold_input_indices_decode op Hop t Hlt)
    as (b & c & k1 & k2 & oh & ow & Hin & Hdec).
  pose proof (unfold_input_indices_at op t b c k1 k2 oh ow Hin Hdec) as Hat.
  rewrite (proj2 (Z.leb_gt _ _) Hlt) in Hat.
  pose proof Hop as [[Hs _] ? ? ? ? ? [_ Hhm] ? [_ Hwm] ?].
  split_shape.
  assert (oh * stride op <= (h_out op - 1) * stride op)
    by (apply Z.mul_le_mono_nonneg_r; lia).
  assert (ow * stride op <= (w_out op - 1) * stride op)
    by (apply Z.mul_le_mono_nonneg_r; lia).
  assert (0 <= oh * stride op) by (apply Z.mul_nonneg_nonneg; lia).
  assert (0 <= ow * stride op) by (apply Z.mul_nonneg_nonneg; lia).
  rewrite !(forward_tap_exact op Hop) in Hat by lia.
  rewrite !decide_True in Hat by lia.
  rewrite Hi in Hat.
  rewrite (Hwr1 t _ _ Ht Hat), (Hwr2 t _ _ Ht Hat). done.
Qed.

Lemma unfold_input_no_padding_witness :
  ∃ patches',
    launch (unfold_input_into_patches op_5x5 (seqZ 100 25)) (grid 1 128)
      (replicate 81 0) = Ok patches'
    ∧ launch (unfold_input_into_patches op_5x5 (seqZ 100 25)) (grid 1 128)
        (replicate 81 7) = Ok patches'.
Proof.
  apply (unfold_input_no_padding op_5x5 (seqZ 100 25) (replicate 81 0)
           (replicate 81 7) (grid 1 128) op_5x5_size_t);
    [reflexivity | by vm_compute | by vm_compute | reflexivity | | |].
  - split; by vm_compute.
  - split; by vm_compute.
  - apply grid_covers; [lia | by vm_compute].
Defined.

(** ** Strided backward extraction *)

(** Two consecutive numbers are not both multiples of a stride of two or
    more. *)
Lemma consecutive_multiples a s :
  2 <= s → a mod s = 0 → (a - 1) mod s = 0 → False.
Proof.
  intros Hs Ha Ha'.
  pose proof (Z.div_mod a s) as H1. pose proof (Z.div_mod (a - 1) s) as H2.
  rewrite Ha in H1. rewrite Ha' in H2.
  assert (s * (a / s - (a - 1) / s) = 1) as H by lia.
  apply Z.mul_eq_1 in H. lia.
Qed.

(** With a stride of two or more, one of the first two kernel rows is
    skipped at every row of the image. *)
Lemma backward_tap_gap op y extent :
  size_t_fields op → 2 <= stride op → 0 <= y → y + padding op <= SIZE_MAX →
  backward_tap op y 0 extent = Ok None ∨ backward_tap op y 1 extent = Ok None.
Proof.
  intros Hop Hs Hy Hmax.
  rewrite !(backward_tap_exact op Hop) by lia.
  destruct (decide (backward_guard op y 0 extent)) as [(_ & H0 & _)|];
    [|by left].
  destruct (decide (backward_guard op y 1 extent)) as [(_ & H1 & _)|];
    [|by right].
  rewrite Z.sub_0_r in H0.
  destruct (consecutive_multiples (y + padding op) (stride op)); done.
Qed.

(** X25. With a stride of two or more and a kernel of two or more rows, the
    backward extractor leaves gaps: at every position of the patches tensor
    one of the first two kernel rows is skipped, so every launch leaves the
    element of that row as the buffer held it. *)
Theorem unfold_output_strided_gaps {A : Type} (op : Conv2DOp)
    (image_out patches : list A) (ts : list Thread) (b o k2 y x : Z) :
  size_t_fields op →
  2 <= stride op →
  2 <= kernel op →
  h_in op + padding op <= SIZE_MAX →
  Z.of_nat (length image_out) = image_out_numel op →
  Z.of_nat (length patches) = patches_out_numel op →
  in_shape [(batch op, b); (chan_out op, o); (kernel op, k2); (h_in op, y);
            (w_in op, x)] →
  ∃ patches',
    launch (unfold_output_into_patches op image_out) ts patches = Ok patches'
    ∧ (elem patches' (patches_out_index op b o 0 k2 y x)
       = elem patches (patches_out_index op b o 0 k2 y x)
       ∨ elem patches' (patches_out_index op b o 1 k2 y x)
         = elem patches (patches_out_index op b o 1 k2 y x)).
Proof.
  intros Hop Hs Hk Hmax Himg Hpat Hin.
  destruct (launch_unfold_output op Hop image_out patches ts)
    as (patches' & Hrun & _ & _ & Hfr); [lia | done | done |].
  exists patches'. split; [done|]. split_shape.
  assert (∀ k1, 0 <= k1 < kernel op →
            backward_tap op y k1 (h_out op) = Ok None →
            elem patches' (patches_out_index op b o k1 k2 y x)
            = elem patches (patches_out_index op b o k1 k2 y x)) as Hgap.
  { intros k1 Hk1 Htap. apply Hfr. intros t _ Hi.
    rewrite (unfold_output_indices_at op t b o k1 k2 y x);
      [| in_shape_tac | done].
    rewrite Htap. by destruct (_ <=? _). }
  destruct (backward_tap_gap op y (h_out op)) as [Htap|Htap];
    [done | lia | lia | lia | left | right]; apply Hgap; (lia || done).
Qed.

Lemma unfold_output_strided_gaps_witness :
  ∃ patches',
    launch (unfold_output_into_patches op_padded (seqZ 1 18)) (grid 4 128)
      (replicate 450 0) = Ok patches'
    ∧ (elem patches' (patches_out_index op_padded 0 1 0 2 3 4)
       = elem (replicate 450 0) (patches_out_index op_padded 0 1 0 2 3 4)
       ∨ elem patches' (patches_out_index op_padded 0 1 1 2 3 4)
         = elem (replicate 450 0) (patches_out_index op_padded 0 1 1 2 3 4)).
Proof.
  apply (unfold_output_strided_gaps op_padded (seqZ 1 18) (replicate 450 0)
           (grid 4 128) 0 1 2 3 4 op_padded_size_t);
    [by vm_compute.. | reflexivity | reflexivity | in_shape_tac].
Defined.
